(** * Outline classification engine of [pdf_parser.py]

    A shallow embedding of the classification core of [src/pdf_parser.py]
    ([clean_text], [filter_non_content], [classify_headings]) and the
    properties of the specification that can be stated over it, followed
    by the text parser [parse_text_page], the block extractor
    [get_document_blocks_parallel] and the body of the loop over the
    files, with further properties of the code.

    Modelling conventions.
    - Python [str] values are Rocq [string]s; a character is a code point of
      the Latin-1 range (0..255).  The character classes below ([isspace],
      [isdigit], [isword]) are the restrictions of Python's Unicode classes
      to that range.
    - Python [int]s are [Z]; [len(...)] results are [nat].
    - [TextBlock.bbox] holds finite coordinates (doubles from the text path,
      integers from the OCR path); both embed in the rationals and Python's
      [<] and [==] on them are [Qclt] and [=] on [Qc].
    - [TextBlock.dir] holds doubles that are only ever compared against the
      literal [0.99]; they are IEEE binary64 values ([PrimFloat.float]).
    - A span's [size] is a finite double, given by its rational value;
      [round] on it is the rounding to the nearest integer, ties to even.
    - The OCR parser works on the pixels of a page and is a parameter of
      the extractor; the order in which the thread pool completes the
      pages is a parameter too.
    - An operation that can raise in Python ([max] of an empty sequence,
      indexing, dictionary subscription, division) returns in the error
      monad [result]; everything else is a total function. *)

From Stdlib Require Import Ascii String Floats.PrimFloat Uint63.
From Stdlib Require Import QArith Qcanon Qround Lqa.
From stdpp Require Import gmap strings list numbers sorting pretty.

Set Default Proof Using "Type".
Open Scope string_scope.
Open Scope list_scope.
Open Scope nat_scope.
Open Scope stdpp_scope.

(** ** Python primitives *)

Module Py.

(** *** Exceptions *)

Inductive exn := ValueError | IndexError | KeyError | ZeroDivisionError.

Inductive result (A : Type) : Type :=
| Ok (a : A)
| Raise (e : exn).
Arguments Ok {A} a.
Arguments Raise {A} e.

#[global] Instance result_ret : MRet result := fun A a => Ok a.
#[global] Instance result_bind : MBind result := fun A B f m =>
  match m with
  | Ok a => f a
  | Raise e => Raise e
  end.

Definition returns {A} (m : result A) : Prop := ∃ a, m = Ok a.

(** *** Characters (Latin-1 restriction of the Unicode classes) *)

Definition code (c : ascii) : N := N_of_ascii c.

Definition in_range (lo hi : N) (c : ascii) : bool :=
  ((lo <=? code c) && (code c <=? hi))%N.

(** [str.isspace], also the class [\s] of [re] and what [str.split()] and
    [str.strip()] treat as white space. *)
Definition isspace (c : ascii) : bool :=
  in_range 9 13 c || in_range 28 31 c || in_range 32 32 c
  || in_range 133 133 c || in_range 160 160 c.

(** The class [\d] of [re]. *)
Definition isdigit (c : ascii) : bool := in_range 48 57 c.

(** The class [[A-Z]]. *)
Definition isupper_AZ (c : ascii) : bool := in_range 65 90 c.

(** The class [\w] of [re], which decides [\b]. *)
Definition isword (c : ascii) : bool :=
  in_range 48 57 c || in_range 65 90 c || in_range 95 95 c
  || in_range 97 122 c || in_range 170 170 c || in_range 178 179 c
  || in_range 181 181 c || in_range 185 186 c || in_range 188 190 c
  || in_range 192 214 c || in_range 216 246 c || in_range 248 255 c.

(** Lower-casing as [re.IGNORECASE] uses it for an ASCII letter of the
    pattern. *)
Definition lower (c : ascii) : ascii :=
  if isupper_AZ c then ascii_of_N (code c + 32) else c.

(** *** Strings *)

Definition is_empty (s : string) : bool :=
  match s with
  | EmptyString => true
  | String _ _ => false
  end.

(** [s.lstrip()] *)
Fixpoint lstrip (s : string) : string :=
  match s with
  | EmptyString => EmptyString
  | String c s' => if isspace c then lstrip s' else s
  end.

(** [s.rstrip()] *)
Fixpoint rstrip (s : string) : string :=
  match s with
  | EmptyString => EmptyString
  | String c s' =>
      let r := rstrip s' in
      if isspace c && is_empty r then EmptyString else String c r
  end.

(** [s.strip()] *)
Definition strip (s : string) : string := rstrip (lstrip s).

(** [s.startswith(c)] for a one-character prefix. *)
Definition startswith (c : ascii) (s : string) : bool :=
  match s with
  | String c' _ => bool_decide (c' = c)
  | EmptyString => false
  end.

(** [c in s] for a one-character needle. *)
Fixpoint contains (c : ascii) (s : string) : bool :=
  match s with
  | EmptyString => false
  | String c' s' => bool_decide (c' = c) || contains c s'
  end.

(** [s.count(c)] for a one-character needle. *)
Fixpoint count (c : ascii) (s : string) : nat :=
  match s with
  | EmptyString => 0
  | String c' s' => (if bool_decide (c' = c) then 1 else 0) + count c s'
  end.

(** [s.split()]: the maximal runs of non-space characters.  [cur] is the
    word being read, in reverse. *)
Fixpoint split_go (cur : option string) (s : string) : list string :=
  match s with
  | EmptyString =>
      match cur with
      | Some w => [String.rev w]
      | None => []
      end
  | String c s' =>
      if isspace c then
        match cur with
        | Some w => String.rev w :: split_go None s'
        | None => split_go None s'
        end
      else
        match cur with
        | Some w => split_go (Some (String c w)) s'
        | None => split_go (Some (String c EmptyString)) s'
        end
  end.

Definition split (s : string) : list string := split_go None s.

(** [s.split(sep, 1)]: at most one cut, at the first [sep]. *)
Fixpoint split1 (sep : ascii) (s : string) : list string :=
  match s with
  | EmptyString => [EmptyString]
  | String c s' =>
      if bool_decide (c = sep) then [EmptyString; s']
      else match split1 sep s' with
           | h :: t => String c h :: t
           | [] => []
           end
  end.

(** [sep.join(parts)] *)
Fixpoint join (sep : string) (parts : list string) : string :=
  match parts with
  | [] => EmptyString
  | [p] => p
  | p :: ps => p +:+ sep +:+ join sep ps
  end.

(** [re.sub(r'\s+', ' ', s)]: every maximal run of white space becomes one
    space.  [in_run] says that the previous character was white space. *)
Fixpoint sub_spaces_go (in_run : bool) (s : string) : string :=
  match s with
  | EmptyString => EmptyString
  | String c s' =>
      if isspace c then
        if in_run then sub_spaces_go true s'
        else String " "%char (sub_spaces_go true s')
      else String c (sub_spaces_go false s')
  end.

Definition sub_spaces (s : string) : string := sub_spaces_go false s.

(** *** Sequences, dictionaries and numbers *)

(** [max(l)]: raises [ValueError] on an empty sequence. *)
Definition max_of (l : list Z) : result Z :=
  match l with
  | [] => Raise ValueError
  | x :: l' => Ok (foldl Z.max x l')
  end.

(** [l[i]] for [i >= 0]: raises [IndexError] out of range. *)
Definition index {A} (l : list A) (i : nat) : result A :=
  match l !! i with
  | Some a => Ok a
  | None => Raise IndexError
  end.

(** [l[-1]] *)
Definition index_last {A} (l : list A) : result A :=
  match last l with
  | Some a => Ok a
  | None => Raise IndexError
  end.

(** [d[k]]: raises [KeyError] on a missing key. *)
Definition subscript `{Countable K} {V} (d : gmap K V) (k : K) : result V :=
  match d !! k with
  | Some v => Ok v
  | None => Raise KeyError
  end.

(** [{k: v for k, v in kvs}]: a later pair overwrites an earlier one. *)
Definition dict_of `{Countable K} {V} (kvs : list (K * V)) : gmap K V :=
  foldl (fun d kv => <[kv.1 := kv.2]> d) ∅ kvs.

(** [enumerate(l)] *)
Definition enumerate {A} (l : list A) : list (nat * A) := imap pair l.

(** [sorted(l, key=...)]: the stable sort.  [lt a b] is the comparison
    [key(a) < key(b)]; equal keys keep their input order, so the result is
    the one Python's sort gives.  For [reverse=True], [lt a b] is
    [key(b) < key(a)] (Python keeps equal keys in input order there too). *)
Fixpoint insort {A} (lt : A → A → bool) (x : A) (l : list A) : list A :=
  match l with
  | [] => [x]
  | y :: l' => if lt y x then y :: insort lt x l' else x :: l
  end.

Definition sorted {A} (lt : A → A → bool) (l : list A) : list A :=
  foldr (insort lt) [] l.

(** [Counter(l)]: the counts, in order of first occurrence. *)
Fixpoint counter_add (x : Z) (c : list (Z * nat)) : list (Z * nat) :=
  match c with
  | [] => [(x, 1)]
  | (y, n) :: c' =>
      if decide (x = y) then (y, S n) :: c' else (y, n) :: counter_add x c'
  end.

Definition Counter (l : list Z) : list (Z * nat) :=
  foldl (fun c x => counter_add x c) [] l.

(** [c.most_common(1)]: [max] over the items by count, which returns the
    first item of maximal count. *)
Definition most_common1 (c : list (Z * nat)) : list (Z * nat) :=
  match c with
  | [] => []
  | e :: c' => [foldl (fun best e' => if (best.2 <? e'.2)%nat then e' else best) e c']
  end.

(** The double nearest to a length (exact below 2^53). *)
Definition float_of_len (n : nat) : float :=
  PrimFloat.of_uint63 (Uint63.of_Z (Z.of_nat n)).

(** [a / b] on two lengths: true division, a double. *)
Definition truediv (a b : nat) : result float :=
  match b with
  | 0 => Raise ZeroDivisionError
  | S _ => Ok (PrimFloat.div (float_of_len a) (float_of_len b))
  end.

End Py.

(** ** Regular expressions

    A backtracking matcher in continuation-passing style: [re R] maps what
    follows the expression (a continuation on positions) to a matcher.
    Alternatives are tried left to right and quantifiers are greedy, so the
    first successful match is the one [re.match] returns.  A position is the
    character before the cursor (for [\b]) and the rest of the input. *)

Module Re.
Import Py.

Definition pos : Type := option ascii * string.
Definition re (R : Type) : Type := (pos → option R) → pos → option R.

Section Combinators.
Context {R : Type}.

Definition chr (f : ascii → bool) : re R := fun k p =>
  match p.2 with
  | String c s => if f c then k (Some c, s) else None
  | EmptyString => None
  end.

Definition eps : re R := fun k => k.

Definition seq (a b : re R) : re R := fun k => a (b k).

Definition alt (a b : re R) : re R := fun k p =>
  match a k p with
  | Some r => Some r
  | None => b k p
  end.

Definition fail : re R := fun _ _ => None.

Definition seqs (l : list (re R)) : re R := foldr seq eps l.
Definition alts (l : list (re R)) : re R := foldr alt fail l.

(** [a?] (greedy) *)
Definition opt (a : re R) : re R := alt a eps.

(** [a*] (greedy), for an [a] that consumes at least one character: no
    more iterations than characters left are possible. *)
Fixpoint star_n (n : nat) (a : re R) : re R :=
  match n with
  | 0 => eps
  | S n' => alt (seq a (star_n n' a)) eps
  end.

Definition star (a : re R) : re R := fun k p =>
  star_n (String.length p.2) a k p.

(** [a+] *)
Definition plus (a : re R) : re R := seq a (star a).

(** [\b] *)
Definition wordb : re R := fun k p =>
  let before := match p.1 with Some c => isword c | None => false end in
  let after := match p.2 with String c _ => isword c | EmptyString => false end in
  if xorb before after then k p else None.

(** A literal under [re.IGNORECASE]. *)
Fixpoint lit_ci (s : string) : re R :=
  match s with
  | EmptyString => eps
  | String x s' =>
      seq (chr (fun c => bool_decide (lower c = lower x))) (lit_ci s')
  end.

Definition is_char (x c : ascii) : bool := bool_decide (c = x).

(** Capturing group: the continuation receives the text matched by [a]. *)
Definition capture (a : re R) (k : string → pos → option R) : pos → option R :=
  fun p =>
    a (fun p' => k (String.substring 0 (String.length p.2 - String.length p'.2) p.2) p') p.

Definition space1 : re R := plus (chr isspace).
Definition digit : re R := chr isdigit.
(** [\d{1,2}] *)
Definition digit12 : re R := seq digit (opt digit).
(** [\d{4}] *)
Definition digit4 : re R := seqs [digit; digit; digit; digit].
End Combinators.

End Re.

Import Py.

(** ** Data model *)

(** [TextBlock = namedtuple('TextBlock', ['text', 'size', 'font', 'bbox',
    'page', 'dir'])].  [dir] is [None] or a pair of doubles. *)
Record TextBlock := {
  text : string;
  size : Z;
  font : string;
  bbox : Qc * Qc * Qc * Qc;
  page : Z;
  dir : option (float * float);
}.

(** [b.bbox[1]], the top of the line. *)
Definition bbox1 (b : TextBlock) : Qc := (bbox b).1.1.2.

(** An outline entry, the dictionary [{"level": .., "text": .., "page": ..}]. *)
Record OutlineItem := {
  level : string;
  item_text : string;
  item_page : Z;
}.

(** The returned dictionary [{"title": .., "outline": ..}]. *)
Record DocumentOutline := {
  title : string;
  outline : list OutlineItem;
}.

#[global] Instance OutlineItem_eq_dec : EqDecision OutlineItem.
Proof. solve_decision. Defined.

(** ** The two patterns of [classify_headings] *)

Module Patterns.
Import Re.

Definition months : list string :=
  ["January"; "February"; "March"; "April"; "May"; "June"; "July"; "August";
   "September"; "October"; "November"; "December"; "Jan"; "Feb"; "Mar";
   "Apr"; "Jun"; "Jul"; "Aug"; "Sep"; "Oct"; "Nov"; "Dec"].

Definition month : re unit := alts (lit_ci <$> months).

(** The pattern "\b(January|...|Dec)\s+\d{1,2},\s+\d{4}\b" or
    "\b\d{1,2}\s+(January|...|Dec)\s+\d{4}\b", with [re.IGNORECASE]. *)
Definition date_pattern : re unit :=
  alt (seqs [wordb; month; space1; digit12; chr (is_char ","); space1;
             digit4; wordb])
      (seqs [wordb; digit12; space1; month; space1; digit4; wordb]).

(** [date_pattern.match(s)], as a truth value. *)
Definition date_pattern_match (s : string) : bool :=
  bool_decide (is_Some (date_pattern (fun _ => Some tt) (None, s))).

(** [number_pattern.match(s)] for the pattern [^\s*(G)\.?\s+], whose group
    [G] is [[A-Z]], or [\d{1,2}] followed by any number of [\.\d{1,2}]:
    [None], or [match.group(1)]. *)
Definition number_pattern_match (s : string) : option string :=
  star (chr isspace)
    (capture (alt (chr isupper_AZ)
                  (seq digit12 (star (seq (chr (is_char ".")) digit12))))
       (fun g => seq (opt (chr (is_char "."))) space1 (fun _ => Some g)))
    (None, s).

End Patterns.
Import Patterns.

(** ** [clean_text] *)

Definition clean_text (t : string) : string := strip (sub_spaces t).

(** [len(s.split())] *)
Definition words (s : string) : nat := length (split s).

(** ** [filter_non_content] *)

(** The literal [0.99] is the double [0x1.fae147ae147aep-1]. *)
Definition lit_0_99 : float := 0x1.fae147ae147aep-1%float.

(** [block.dir and abs(block.dir[0]) < 0.99]: [None] is false, a pair is
    true. *)
Definition rotated (block : TextBlock) : bool :=
  match dir block with
  | None => false
  | Some d => PrimFloat.ltb (PrimFloat.abs d.1) lit_0_99
  end.

Definition filter_non_content (blocks : list TextBlock) (doc : nat)
  : result (list TextBlock) :=
  match blocks with
  | [] => Ok []
  | _ :: _ =>
      let first_page_blocks := filter (fun b => page b = 0%Z) blocks in
      protected_texts ←
        match first_page_blocks with
        | [] => Ok (∅ : gset string)
        | _ :: _ =>
            max_size ← max_of (size <$> first_page_blocks);
            Ok (foldl (fun protected b =>
                         if decide (size b = max_size)
                         then protected ∪ {[text b]} else protected)
                      ∅ first_page_blocks)
        end;
      let texts_to_remove : gset string :=
        foldl (fun to_remove block =>
                 if decide (text block ∈ protected_texts) then to_remove
                 else if rotated block then to_remove ∪ {[text block]}
                 else to_remove)
              ∅ blocks in
      if decide (texts_to_remove = ∅) then Ok blocks
      else Ok (filter (fun b => text b ∉ texts_to_remove) blocks)
  end.

(** ** [classify_headings] *)

(** The f-string [f"H{n}"]. *)
Definition fmt_H (n : nat) : string := "H" +:+ pretty n.

(** The literal [0.1] is the double [0x1.999999999999ap-4]. *)
Definition lit_0_1 : float := 0x1.999999999999ap-4%float.

(** [for x in l: s = body(s, x)] with a body that may raise. *)
Fixpoint for_each {A S} (l : list A) (body : S → A → result S) (s : S)
  : result S :=
  match l with
  | [] => Ok s
  | x :: l' => s' ← body s x; for_each l' body s'
  end.

(** Step 1, document type detection: the value of [is_graphical_doc]. *)
Definition is_graphical_doc (doc : nat) (blocks : list TextBlock)
  : result bool :=
  if decide (doc = 1) then
    let paragraph_blocks := filter (fun b => 15 < words (text b)) blocks in
    if decide (length blocks < 40) then
      match paragraph_blocks with
      | [] => Ok true
      | _ :: _ =>
          (q ← truediv (length paragraph_blocks) (length blocks);
           Ok (PrimFloat.ltb q lit_0_1))
      end
    else Ok false
  else Ok false.

(** The order of [sorted(blocks, key=lambda x: x.size, reverse=True)]. *)
Definition size_gt (x y : TextBlock) : bool := bool_decide (size y < size x)%Z.

(** The graphical path: the outline is the largest block alone. *)
Definition graphical_outline (blocks : list TextBlock)
  : result DocumentOutline :=
  largest_block ← index (sorted size_gt blocks) 0;
  Ok {| title := "";
        outline := [ {| level := "H1";
                        item_text := clean_text (text largest_block);
                        item_page := page largest_block |} ] |}.

(** The order of [sorted(..., key=lambda b: b.bbox[1])]. *)
Definition top_lt (a b : TextBlock) : bool :=
  bool_decide (bbox1 a < bbox1 b)%Qc.

(** Step 2, the title: [(doc_title, title_parts)]. *)
Definition extract_title (blocks : list TextBlock)
  : result (string * list string) :=
  let first_page_blocks := filter (fun b => page b = 0%Z) blocks in
  match first_page_blocks with
  | [] => Ok ("Title Not Found", [])
  | _ :: _ =>
      max_size ← max_of (size <$> first_page_blocks);
      let title_blocks :=
        sorted top_lt
               (filter (fun b => size b = max_size) first_page_blocks) in
      let title_parts := text <$> title_blocks in
      Ok (join " " title_parts, title_parts)
  end.

(** [sorted(list(set(sizes)), reverse=True)] *)
Definition distinct_desc (sizes : list Z) : list Z :=
  sorted (fun a b => bool_decide (b < a)%Z)
         (elements (list_to_set sizes : gset Z)).

(** [{size: f"H{i+1}" for i, size in enumerate(sizes[:3])}] *)
Definition level_map (sizes : list Z) : gmap Z string :=
  dict_of ((fun '(i, sz) => (sz, fmt_H (i + 1))) <$> enumerate (take 3 sizes)).

(** Strategy 1: [text_to_add], the text of the block or, for a long text
    with a short label before its first colon, that label. *)
Definition heading_text (t : string) : result string :=
  if bool_decide (10 ≤ words t) && contains ":" t then
    potential_heading ← index (split1 ":" t) 0;
    if decide (words potential_heading < 5)
    then Ok (potential_heading +:+ ":") else Ok t
  else Ok t.

(** Strategy 1: one iteration of the loop over [blocks], which appends
    at most one entry; [None] when the iteration appends nothing. *)
Definition strategy1_item (title_parts : list string)
    (size_to_level : gmap Z string) (b : TextBlock)
  : result (option OutlineItem) :=
  if bool_decide (text b ∈ title_parts)
     || bool_decide (size_to_level !! size b = None)
     || date_pattern_match (strip (text b))
  then Ok None
  else
    text_to_add ← heading_text (text b);
    if decide (words text_to_add < 10) then
      lvl ← subscript size_to_level (size b);
      Ok (Some {| level := lvl; item_text := text_to_add;
                  item_page := page b |})
    else Ok None.

(** [outline.append(item)] when the iteration produced an entry. *)
Definition append_item (outline : list OutlineItem)
    (item : option OutlineItem) : list OutlineItem :=
  match item with
  | Some it => outline ++ [it]
  | None => outline
  end.

Definition strategy1_body (title_parts : list string)
    (size_to_level : gmap Z string)
    (outline : list OutlineItem) (b : TextBlock) : result (list OutlineItem) :=
  item ← strategy1_item title_parts size_to_level b;
  Ok (append_item outline item).

Definition strategy1 (blocks : list TextBlock) (title_parts : list string)
    (unique_sizes : list Z) : result (list OutlineItem) :=
  let size_to_level := level_map unique_sizes in
  for_each blocks (strategy1_body title_parts size_to_level) [].

(** Strategy 2: the body size, the candidates and the loop. *)
Definition body_size_of (blocks : list TextBlock) (unique_sizes : list Z)
  : result Z :=
  let para_sizes := size <$> filter (fun b => 20 < words (text b)) blocks in
  match para_sizes with
  | _ :: _ => e ← index (most_common1 (Counter para_sizes)) 0; Ok e.1
  | [] =>
      match unique_sizes with
      | _ :: _ => index_last unique_sizes
      | [] => Ok 0%Z
      end
  end.

Definition is_candidate (title_parts : list string) (body_size : Z)
    (b : TextBlock) : Prop :=
  (text b ∉ title_parts) ∧ (body_size < size b)%Z ∧ words (text b) < 20
  ∧ date_pattern_match (strip (text b)) = false.

#[global] Instance is_candidate_dec tp bs b : Decision (is_candidate tp bs b).
Proof. unfold is_candidate. apply _. Defined.

Definition heading_candidates_of (blocks : list TextBlock)
    (title_parts : list string) (body_size : Z) : list TextBlock :=
  filter (is_candidate title_parts body_size) blocks.

(** A string is true when it is not empty. *)
Definition truthy (l : option string) : bool :=
  match l with
  | Some s => negb (is_empty s)
  | None => false
  end.

(** Strategy 2: one iteration of the loop over the sorted candidates;
    [None] when the iteration appends nothing. *)
Definition strategy2_item (size_to_level : gmap Z string) (b : TextBlock)
  : option OutlineItem :=
  let level0 := size_to_level !! size b in
  let level1 :=
    match number_pattern_match (text b) with
    | Some g => Some (fmt_H (Nat.min (count "." g + 1) 3))
    | None => level0
    end in
  match level1 with
  | Some l =>
      if truthy level1
      then Some {| level := l; item_text := text b; item_page := page b |}
      else None
  | None => None
  end.

Definition strategy2_body (size_to_level : gmap Z string)
    (outline : list OutlineItem) (b : TextBlock) : list OutlineItem :=
  append_item outline (strategy2_item size_to_level b).

(** [(a.page, a.bbox[1]) < (b.page, b.bbox[1])] on tuples. *)
Definition page_top_lt (a b : TextBlock) : bool :=
  bool_decide (page a < page b)%Z
  || (bool_decide (page a = page b) && bool_decide (bbox1 a < bbox1 b)%Qc).

Definition strategy2 (blocks : list TextBlock) (title_parts : list string)
    (unique_sizes : list Z) : result (list OutlineItem) :=
  body_size ← body_size_of blocks unique_sizes;
  let heading_candidates := heading_candidates_of blocks title_parts body_size in
  let heading_sizes := distinct_desc (size <$> heading_candidates) in
  let size_to_level := level_map heading_sizes in
  Ok (foldl (strategy2_body size_to_level) []
            (sorted page_top_lt heading_candidates)).

(** Step 3, first loop: keep the first item of every [(text, page)]. *)
Definition dedup_body (st : gset (string * Z) * list OutlineItem)
    (item : OutlineItem) : gset (string * Z) * list OutlineItem :=
  let identifier := (item_text item, item_page item) in
  if decide (identifier ∈ st.1) then st
  else (st.1 ∪ {[identifier]}, (st.2 ++ [item])%list).

Definition dedup_outline (outline : list OutlineItem) : list OutlineItem :=
  (foldl dedup_body (∅, []) outline).2.

(** Step 3, second loop: the test on [current_item] and [prev_item]. *)
Definition mergeable (prev_item current_item : OutlineItem) : bool :=
  bool_decide (item_page current_item = item_page prev_item)
  && bool_decide (level current_item = level prev_item)
  && startswith "&" (strip (item_text current_item)).

(** [prev_item] after
    [prev_item['text'] = f"{prev_item['text']} {current_item['text']}"]. *)
Definition absorb (prev_item current_item : OutlineItem) : OutlineItem :=
  {| level := level prev_item;
     item_text := item_text prev_item +:+ " " +:+ item_text current_item;
     item_page := item_page prev_item |}.

(** One iteration.  [prev_item] is the last entry of [merged_outline], so
    the assignment to its text updates that entry in place.  The same
    dictionary is an entry of [final_outline], at an index the loop has
    passed and does not read again, so the update shows nowhere else. *)
Definition merge_body (final_outline : list OutlineItem)
    (merged_outline : list OutlineItem) (i : nat)
  : result (list OutlineItem) :=
  prev_item ← index_last merged_outline;
  current_item ← index final_outline i;
  if mergeable prev_item current_item
  then Ok (<[length merged_outline - 1 := absorb prev_item current_item]>
             merged_outline)
  else Ok (merged_outline ++ [current_item]).

Definition merge_continuations (final_outline : list OutlineItem)
  : result (list OutlineItem) :=
  match final_outline with
  | [] => Ok []
  | _ :: _ =>
      first ← index final_outline 0;
      for_each (seq 1 (length final_outline - 1)) (merge_body final_outline)
               [first]
  end.

(** Step 3 as a whole, the outline merger. *)
Definition merge (outline : list OutlineItem) : result (list OutlineItem) :=
  merge_continuations (dedup_outline outline).

Definition classify_headings (doc : nat) (blocks : list TextBlock)
  : result DocumentOutline :=
  match blocks with
  | [] => Ok {| title := "Title Not Found"; outline := [] |}
  | _ :: _ =>
      is_graphical ← is_graphical_doc doc blocks;
      if (is_graphical : bool) then graphical_outline blocks
      else
        '(doc_title, title_parts) ← extract_title blocks;
        let unique_sizes := distinct_desc (size <$> blocks) in
        outline ←
          (if decide (1 < length unique_sizes ∧ length unique_sizes ≤ 6)
           then strategy1 blocks title_parts unique_sizes
           else strategy2 blocks title_parts unique_sizes);
        merged_outline ← merge outline;
        Ok {| title := clean_text doc_title; outline := merged_outline |}
  end.

(** ** The page parsers and [get_document_blocks_parallel] *)

(** What PyMuPDF hands over for a page: [page.number], the plain text
    [page.get_text()], and the blocks of [page.get_text("dict")], whose
    text blocks ([type] 0) hold lines of spans.  A span's size and a
    line's [bbox] are finite doubles, given by their rational values. *)
Record Span := {
  span_text : string;
  span_size : Q;
  span_font : string;
}.

Record Line := {
  spans : list Span;
  line_bbox : Qc * Qc * Qc * Qc;
  line_dir : float * float;
}.

Inductive Block :=
| text_block (lines : list Line)
| image_block.

Record Page := {
  number : Z;
  get_text : string;
  dict_blocks : list Block;
}.

(** A document is the list of its pages; [len(doc)] is its length. *)
Definition Document := list Page.

(** [doc.load_page(i)] for [i >= 0]: out of range a [ValueError]. *)
Definition load_page (doc : Document) (i : nat) : result Page :=
  match doc !! i with
  | Some p => Ok p
  | None => Raise ValueError
  end.

(** [round(x)] for a double [x]: the nearest integer, a tie going to the
    even one. *)
Definition round (x : Q) : Z :=
  let f := Qfloor x in
  match (x - inject_Z f ?= 1 # 2)%Q with
  | Lt => f
  | Gt => (f + 1)%Z
  | Eq => if Z.even f then f else (f + 1)%Z
  end.

(** One iteration of the loop over the lines of a text block. *)
Definition parse_line (page : Page) (processed_blocks : list TextBlock)
    (line : Line) : result (list TextBlock) :=
  let line_text := clean_text (join " " (span_text <$> spans line)) in
  if is_empty line_text then Ok processed_blocks
  else
    first_span ← index (spans line) 0;
    Ok (processed_blocks
          ++ [ {| text := line_text; size := round (span_size first_span);
                  font := span_font first_span; bbox := line_bbox line;
                  page := number page; dir := Some (line_dir line) |} ]).

(** One iteration of the loop over the blocks of the page. *)
Definition parse_block (page : Page) (processed_blocks : list TextBlock)
    (block : Block) : result (list TextBlock) :=
  match block with
  | text_block lines => for_each lines (parse_line page) processed_blocks
  | image_block => Ok processed_blocks
  end.

Definition parse_text_page (page_tuple : Document * nat)
  : result (list TextBlock) :=
  let '(doc, page_num) := page_tuple in
  page ← load_page doc page_num;
  for_each (dict_blocks page) (parse_block page) [].

Definition TEXT_LENGTH_THRESHOLD : nat := 150.

Section Extraction.

(** The OCR parser reads the pixels of a page, which lie outside this
    model: it is any function from the page to blocks or an exception. *)
Variable parse_image_page_with_ocr : Document * nat → result (list TextBlock).

(** The first loop: a parser for every page. *)
Definition make_task (doc : Document)
    (tasks : list ((Document * nat)
                   * (Document * nat → result (list TextBlock))))
    (i : nat) :=
  page ← load_page doc i;
  if decide (TEXT_LENGTH_THRESHOLD < String.length (strip (get_text page)))
  then Ok (tasks ++ [((doc, i), parse_text_page)])
  else Ok (tasks ++ [((doc, i), parse_image_page_with_ocr)]).

(** [all_blocks.extend(future.result())] for the future [k]. *)
Definition collect (futures : list (result (list TextBlock)))
    (all_blocks : list TextBlock) (k : nat) : result (list TextBlock) :=
  future ← index futures k;
  blocks ← (future : result (list TextBlock));
  Ok (all_blocks ++ blocks).

(** The thread pool runs the tasks in an order of its own; [completed]
    lists the indices of the futures in the order [as_completed] yields
    them, a permutation of [range(len(doc))]. *)
Definition get_document_blocks_parallel (completed : list nat)
    (doc : Document) : result (list TextBlock) :=
  tasks ← for_each (seq 0 (length doc)) (make_task doc) [];
  let futures := (fun '(arg, func) => func arg) <$> tasks in
  all_blocks ← for_each completed (collect futures) [];
  Ok (sorted page_top_lt all_blocks).

(** ** The body of the loop over the files *)

(** What is written for a file: the result of the classifier, or a
    dictionary with an error text, an empty title and an empty outline;
    the error text is that of the page limit or [str(e)]. *)
Inductive Output :=
| written (r : DocumentOutline)
| page_limit_error
| exception_error (e : exn).

(** [opened] is what [fitz.open(input_path)] gives. *)
Definition process_file (completed : list nat) (opened : result Document)
  : Output :=
  let attempt :=
    doc ← opened;
    if decide (50 < length doc) then Ok page_limit_error
    else
      all_blocks ← get_document_blocks_parallel completed doc;
      filtered_blocks ← filter_non_content all_blocks (length doc);
      r ← classify_headings (length doc) filtered_blocks;
      Ok (written r) in
  match attempt with
  | Ok o => o
  | Raise e => exception_error e
  end.

End Extraction.


(** * Specification vocabulary

    The notions the specification uses, stated over the data model. *)

(** [not_after lt a b]: [a] may stand before [b] in a result sorted by
    [lt]. *)
Definition not_after {A} (lt : A → A → bool) (a b : A) : Prop := lt b a = false.

(** A text is protected when a first-page block of the greatest first-page
    size carries it. *)
Definition protected (blocks : list TextBlock) (t : string) : Prop :=
  ∃ b, b ∈ blocks ∧ page b = 0%Z ∧ text b = t
       ∧ ∀ b', b' ∈ blocks → page b' = 0%Z → (size b' ≤ size b)%Z.

(** A text is marked when an unprotected block carries it whose [dir] is
    present with [|dir[0]| < 0.99]. *)
Definition marked (blocks : list TextBlock) (t : string) : Prop :=
  ∃ b, b ∈ blocks ∧ text b = t ∧ ¬ protected blocks t
       ∧ ∃ d, dir b = Some d ∧ PrimFloat.ltb (PrimFloat.abs d.1) lit_0_99 = true.

(** The entry a block contributes in a run of Strategy 1, if any. *)
Definition emitted1 (title_parts : list string) (size_to_level : gmap Z string)
    (b : TextBlock) : option OutlineItem :=
  match strategy1_item title_parts size_to_level b with
  | Ok item => item
  | Raise _ => None
  end.

(** [n] is the heading level number of the level [l]. *)
Definition level_number (l : string) (n : nat) : Prop := l = fmt_H n.

(** The identifier of an entry in the de-duplication loop. *)
Definition key (it : OutlineItem) : string * Z := (item_text it, item_page it).

(** The entries the de-duplication loop keeps from [l] when [seen] holds
    the identifiers met before. *)
Fixpoint dedup_from (seen : gset (string * Z)) (l : list OutlineItem)
  : list OutlineItem :=
  match l with
  | [] => []
  | it :: l' =>
      if decide (key it ∈ seen) then dedup_from seen l'
      else it :: dedup_from (seen ∪ {[key it]}) l'
  end.

(** What the merge loop makes of [rest] when [prev] is the last entry
    kept so far. *)
Fixpoint merge_from (prev : OutlineItem) (rest : list OutlineItem)
  : list OutlineItem :=
  match rest with
  | [] => [prev]
  | cur :: rest' =>
      if mergeable prev cur then merge_from (absorb prev cur) rest'
      else prev :: merge_from cur rest'
  end.

Definition merged (l : list OutlineItem) : list OutlineItem :=
  match l with
  | [] => []
  | first :: rest => merge_from first rest
  end.

(** No entry of [rest] continues the entry before it, [prev] being the
    entry before the first. *)
Fixpoint settled_from (prev : OutlineItem) (rest : list OutlineItem) : Prop :=
  match rest with
  | [] => True
  | cur :: rest' => mergeable prev cur = false ∧ settled_from cur rest'
  end.

(** A text with nothing but white space. *)
Definition blank (s : string) : Prop := strip s = "".

(** A title block is a first-page block of the greatest first-page size. *)
Definition is_title_block (blocks : list TextBlock) (b : TextBlock) : Prop :=
  page b = 0%Z
  ∧ Forall (fun b' => page b' = 0%Z → (size b' ≤ size b)%Z) blocks.

#[global] Instance is_title_block_dec blocks b :
  Decision (is_title_block blocks b).
Proof. unfold is_title_block. apply _. Defined.

(** The title blocks of a document, in input order. *)
Definition title_blocks_of (blocks : list TextBlock) : list TextBlock :=
  filter (is_title_block blocks) blocks.

(** A block with more than 15 words. *)
Definition long_block (b : TextBlock) : Prop := 15 < words (text b).

(** The condition of the specification for a graphical document: one
    page, fewer than 40 blocks, and no long block or a fraction of long
    blocks below one tenth. *)
Definition graphical_condition (doc : nat) (blocks : list TextBlock) : Prop :=
  doc = 1 ∧ length blocks < 40
  ∧ (Forall (fun b => ¬ long_block b) blocks
     ∨ (Z.of_nat (length (filter long_block blocks))
          # Pos.of_nat (length blocks) < 1 # 10)%Q).

(** The result of the graphical path: an empty title and one entry, for
    a block of greatest size. *)
Definition graphical_result (blocks : list TextBlock) (r : DocumentOutline)
  : Prop :=
  title r = ""
  ∧ ∃ b, b ∈ blocks
         ∧ (∀ b', b' ∈ blocks → (size b' ≤ size b)%Z)
         ∧ outline r = [ {| level := "H1";
                            item_text := clean_text (text b);
                            item_page := page b |} ].

(** The document of the end-to-end example of the specification; the
    fields the specification leaves open are parameters. *)
Definition annual_report (f1 f2 f3 : string) (bb1 bb2 bb3 : Qc * Qc * Qc * Qc)
    (d2 d3 : option (float * float)) : list TextBlock :=
  [ {| text := "Annual Report"; size := 24; font := f1; bbox := bb1;
       page := 0; dir := Some (1, 0)%float |};
    {| text := "1. Introduction"; size := 12; font := f2; bbox := bb2;
       page := 0; dir := d2 |};
    {| text := "2. Methods"; size := 12; font := f3; bbox := bb3;
       page := 0; dir := d3 |} ].

(** A line at height [y] of page [p], for examples. *)
Definition line_at (t : string) (sz : Z) (p : Z) (y : Z) : TextBlock :=
  {| text := t; size := sz; font := "Serif";
     bbox := (Qc_of_Z 72, Qc_of_Z y, Qc_of_Z 500, Qc_of_Z (y + sz));
     page := p; dir := None |}.

(** A cover page whose two title lines come in the wrong order. *)
Definition sample_cover : list TextBlock :=
  [line_at "Report" 24 0 60; line_at "Annual" 24 0 20;
   line_at "prepared by the board" 12 0 100].

(** A report with six heading sizes above its body text. *)
Definition sample_report : list TextBlock :=
  [line_at "Report" 30 0 10; line_at "Alpha" 24 1 10; line_at "Beta" 20 1 40;
   line_at "Gamma" 16 1 70; line_at "3.2 Delta" 14 1 100;
   line_at "Epsilon" 13 1 130; line_at "plain text" 10 1 160].

(** [skipped f s s']: [s'] is [s] without some leading characters of the
    class [f]. *)
Inductive skipped (f : ascii → bool) : string → string → Prop :=
| skipped_here s : skipped f s s
| skipped_step c s s' : f c = true → skipped f s s' → skipped f (String c s) s'.

(** [extends it' it]: the entry [it'] is [it] with continuation lines
    appended to its text. *)
Definition extends (it' it : OutlineItem) : Prop :=
  level it' = level it ∧ item_page it' = item_page it
  ∧ ∃ rest, item_text it' = item_text it +:+ rest.

(** Where a left-to-right scan of a text stands: before the first word, in
    a word, or in the white space after a word. *)
Inductive scan_state := AtStart | InWord | AfterWord.

(** The words of [s] with one space between them, written by one scan:
    white space is dropped before the first word and after the last, and
    becomes one space between two words. *)
Fixpoint single_spaced (st : scan_state) (s : string) : string :=
  match s with
  | EmptyString => EmptyString
  | String c s' =>
      if isspace c then
        match st with
        | AtStart => single_spaced AtStart s'
        | InWord | AfterWord => single_spaced AfterWord s'
        end
      else
        match st with
        | AtStart | InWord => String c (single_spaced InWord s')
        | AfterWord => String " " (String c (single_spaced InWord s'))
        end
  end.

(** A document of two pages whose blocks all lie on the second page. *)
Definition sample_appendix : list TextBlock :=
  [line_at "Appendix" 18 1 20; line_at "Tables" 14 1 60;
   line_at "further material" 10 1 90].

(** The number of times [z] stands in [l]. *)
Definition occurrences (z : Z) (l : list Z) : nat :=
  length (filter (fun x => x = z) l).

(** The sizes of the blocks with more than 20 words, in input order. *)
Definition paragraph_sizes (blocks : list TextBlock) : list Z :=
  size <$> filter (fun b => 20 < words (text b)) blocks.

(** A poster: a small caption before two lines of the greatest size. *)
Definition sample_poster : list TextBlock :=
  [line_at "presented by" 10 0 10; line_at "Summer" 30 0 40;
   line_at "Festival" 30 0 80].

(** An article: a heading above three paragraphs, two of them in the
    same size. *)
Definition sample_article : list TextBlock :=
  [line_at "Findings" 16 0 10;
   line_at ("the survey was sent to every member of the society in the "
            +:+ "spring and the answers were collected over the following "
            +:+ "ten weeks by post") 11 0 40;
   line_at ("a second round of questions went to those members who had "
            +:+ "answered the first and asked them about the years before "
            +:+ "they joined") 11 0 60;
   line_at ("the figures in this section are rounded to the nearest whole "
            +:+ "number and leave out the answers that came in after the "
            +:+ "closing date") 9 0 80].

(** The count a counter holds for [z]. *)
Fixpoint counter_get (c : list (Z * nat)) (z : Z) : nat :=
  match c with
  | [] => 0
  | (y, n) :: c' => if decide (z = y) then n else counter_get c' z
  end.

(** The lines of the text blocks of a page, in reading order. *)
Definition text_lines (p : Page) : list Line :=
  dict_blocks p ≫= (fun block => match block with
                                 | text_block lines => lines
                                 | image_block => []
                                 end).

(** The block a line of the page [p] stands for: none for a line without
    a visible character, else its normalized text with the size and the
    font of its first span. *)
Definition line_block (p : Page) (line : Line) : option TextBlock :=
  match spans line with
  | [] => None
  | first_span :: _ =>
      let line_text := clean_text (join " " (span_text <$> spans line)) in
      if is_empty line_text then None
      else Some {| text := line_text; size := round (span_size first_span);
                   font := span_font first_span; bbox := line_bbox line;
                   page := number p; dir := Some (line_dir line) |}
  end.

(** A page with more text than the threshold goes to the text parser. *)
Definition text_page (p : Page) : Prop :=
  TEXT_LENGTH_THRESHOLD < String.length (strip (get_text p)).

(** What the parser chosen for the page [i] returns. *)
Definition page_blocks (ocr : Document * nat → result (list TextBlock))
    (doc : Document) (i : nat) : result (list TextBlock) :=
  p ← load_page doc i;
  if decide (text_page p) then parse_text_page (doc, i) else ocr (doc, i).

(** The pages carry their indices, as PyMuPDF numbers them. *)
Definition well_numbered (doc : Document) : Prop :=
  ∀ i p, doc !! i = Some p → number p = Z.of_nat i.

(** An OCR parser that gives every block the number of its page, as
    [parse_image_page_with_ocr] does with [page=page.number]. *)
Definition page_faithful (ocr : Document * nat → result (list TextBlock))
    (doc : Document) : Prop :=
  ∀ i p bs b,
    doc !! i = Some p → ocr (doc, i) = Ok bs → b ∈ bs → page b = number p.

(** An order in which the futures of the pages may complete. *)
Definition completion_order (doc : Document) (completed : list nat) : Prop :=
  completed ≡ₚ seq 0 (length doc).

(** A line of one span, for examples. *)
Definition sample_line (t : string) (sz : Q) (y : Z) : Line :=
  {| spans := [ {| span_text := t; span_size := sz; span_font := "Serif" |} ];
     line_bbox := (Qc_of_Z 72, Qc_of_Z y, Qc_of_Z 500, Qc_of_Z (y + 12));
     line_dir := (1, 0)%float |}.

Definition sample_paragraph : string :=
  "the path leaves the village by the mill and follows the river for "
  +:+ "an hour before it turns north into the hills where the old "
  +:+ "road used to run to the coast in the days of the salt trade".

(** A document of two pages of text, with an image, a line without
    spans and a line of white space. *)
Definition sample_pdf : Document :=
  [ {| number := 0; get_text := sample_paragraph;
       dict_blocks :=
         [ text_block [sample_line "Field  Notes" (47 # 2) 40;
                       sample_line "1. Setting out" 14 90;
                       sample_line sample_paragraph (21 # 2) 120];
           image_block ] |};
    {| number := 1; get_text := sample_paragraph;
       dict_blocks :=
         [ text_block [sample_line "2. The river" 14 40;
                       {| spans := [];
                          line_bbox := (Qc_of_Z 72, Qc_of_Z 60,
                                        Qc_of_Z 500, Qc_of_Z 72);
                          line_dir := (1, 0)%float |};
                       sample_line "   " 10 70;
                       sample_line sample_paragraph (21 # 2) 100] ] |} ].

(** An OCR parser that finds nothing. *)
Definition blind_ocr (page_tuple : Document * nat)
  : result (list TextBlock) := Ok [].

(** The blocks of a parser that returned, none for one that raised. *)
Definition blocks_of (m : result (list TextBlock)) : list TextBlock :=
  match m with
  | Ok bs => bs
  | Raise _ => []
  end.

(** The blocks of the pages in the order [order] of the pages. *)
Definition blocks_in_order (ocr : Document * nat → result (list TextBlock))
    (doc : Document) (order : list nat) : list TextBlock :=
  concat ((fun i => blocks_of (page_blocks ocr doc i)) <$> order).

(** The capital letters and the digits of a numbering, spelled out. *)
Definition capital_letters : string := "ABCDEFGHIJKLMNOPQRSTUVWXYZ".
Definition decimal_digits : string := "0123456789".

(** [c] is one of the characters of [s]. *)
Definition one_of (s : string) (c : ascii) : Prop :=
  c ∈ list_ascii_of_string s.

#[global] Instance one_of_dec s c : Decision (one_of s c).
Proof. unfold one_of. apply _. Defined.

(** A group of digits of a numbering: from one to [width] digits. *)
Definition digit_group (width : nat) (s : string) : Prop :=
  s ≠ "" ∧ String.length s ≤ width
  ∧ Forall (one_of decimal_digits) (list_ascii_of_string s).

#[global] Instance digit_group_dec width s : Decision (digit_group width s).
Proof. unfold digit_group. apply _. Defined.

(** A numbering: one capital letter, or a dotted numeric sequence, that
    is groups of digits joined by periods.  The specification leaves the
    number of digits of a group open; [width] bounds it. *)
Inductive numbering (width : nat) : string → Prop :=
| numbering_letter c :
    one_of capital_letters c → numbering width (String c "")
| numbering_groups g gs :
    Forall (digit_group width) (g :: gs) →
    numbering width (join "." (g :: gs)).

(** The text [t] starts with the numbering prefix of the numbering [g]:
    [g], an optional period and white space; white space may come
    first. *)
Definition numbering_prefix (width : nat) (t g : string) : Prop :=
  numbering width g
  ∧ ∃ ws period c rest,
      Forall (fun x => isspace x = true) (list_ascii_of_string ws)
      ∧ (period = "" ∨ period = ".")
      ∧ isspace c = true
      ∧ t = ws +:+ g +:+ period +:+ String c rest.

(** A report whose headings carry numbers of three digits. *)
Definition sample_ledger : list TextBlock :=
  [line_at "Ledger" 30 0 10; line_at "Alpha" 24 1 10; line_at "Beta" 20 1 40;
   line_at "100 Zeta" 16 1 70; line_at "3.2 Delta" 14 1 100;
   line_at "10.125 Epsilon" 13 1 130; line_at "plain text" 10 1 160].

(** The entries of [l] that share text and page with no entry before
    them, in order:
    [[it for i, it in enumerate(l) if key(it) not in keys(l[:i])]]. *)
Definition first_of_each_pair (l : list OutlineItem) : list OutlineItem :=
  (fun p => p.2)
    <$> filter (fun p => key p.2 ∉ key <$> take p.1 l) (enumerate l).

(** * Properties *)

(** ** Facts about the Python primitives *)

Section PyFacts.

Lemma foldl_max_ub (l : list Z) (x : Z) :
  (x ≤ foldl Z.max x l)%Z ∧ ∀ y, y ∈ l → (y ≤ foldl Z.max x l)%Z.
Proof.
  revert x. induction l as [|a l IH]; intros x; simpl.
  - split; [lia|]. intros y Hy. by apply elem_of_nil in Hy.
  - destruct (IH (Z.max x a)) as [H1 H2]. split; [lia|].
    intros y [->|Hy]%elem_of_cons; [lia|by apply H2].
Qed.

Lemma foldl_max_elem (l : list Z) (x : Z) : foldl Z.max x l ∈ x :: l.
Proof.
  revert x. induction l as [|a l IH]; intros x; simpl; [by left|].
  pose proof (IH (Z.max x a)) as H.
  apply elem_of_cons in H as [Heq|Hin].
  - rewrite Heq. destruct (Z.max_spec x a) as [[_ ->]|[_ ->]];
      [right; left|left].
  - by do 2 right.
Qed.

(** [max] of a non-empty sequence returns its greatest element. *)
Lemma max_of_spec (l : list Z) (m : Z) :
  max_of l = Ok m ↔ m ∈ l ∧ ∀ y, y ∈ l → (y ≤ m)%Z.
Proof.
  destruct l as [|x l]; simpl.
  - split; [done|]. intros [H _]. by apply elem_of_nil in H.
  - split.
    + intros [= <-]. split; [apply foldl_max_elem|].
      destruct (foldl_max_ub l x) as [H1 H2].
      intros y [->|Hy]%elem_of_cons; auto.
    + intros [Hin Hub]. f_equal. apply Z.le_antisymm.
      * apply Hub, foldl_max_elem.
      * pose proof (foldl_max_ub l x) as [H1 H2].
        apply elem_of_cons in Hin as [->|Hin]; auto.
Qed.

Lemma max_of_returns (l : list Z) : l ≠ [] → ∃ m, max_of l = Ok m.
Proof. destruct l; [done|]. intros _. by eexists. Qed.

Lemma index_lookup {A} (l : list A) i a : l !! i = Some a → index l i = Ok a.
Proof. unfold index. by intros ->. Qed.

Lemma index_last_snoc {A} (l : list A) a : index_last (l ++ [a]) = Ok a.
Proof. unfold index_last. by rewrite last_snoc. Qed.

(** *** The stable sort *)

Lemma insort_Permutation {A} (lt : A → A → bool) x l :
  insort lt x l ≡ₚ x :: l.
Proof.
  induction l as [|y l IH]; simpl; [done|].
  destruct (lt y x); [|done]. rewrite IH. apply Permutation_swap.
Qed.

Lemma sorted_Permutation {A} (lt : A → A → bool) l : sorted lt l ≡ₚ l.
Proof.
  induction l as [|x l IH]; simpl; [done|].
  unfold sorted in IH. by rewrite insort_Permutation, IH.
Qed.

Lemma sorted_elem_of {A} (lt : A → A → bool) l x : x ∈ sorted lt l ↔ x ∈ l.
Proof. by rewrite sorted_Permutation. Qed.

Section Order.
Context {A : Type} (lt : A → A → bool).
Hypothesis lt_asym : ∀ a b, lt a b = true → lt b a = false.
Hypothesis lt_negtrans :
  ∀ a b c, lt b a = false → lt c b = false → lt c a = false.

Lemma insort_sorted x l :
  StronglySorted (not_after lt) l → StronglySorted (not_after lt) (insort lt x l).
Proof using lt_asym lt_negtrans.
  induction 1 as [|y l Hl IH Hy]; simpl.
  - repeat constructor.
  - destruct (lt y x) eqn:E.
    + constructor; [done|].
      apply Forall_forall. intros z Hz.
      rewrite insort_Permutation in Hz.
      apply elem_of_cons in Hz as [->|Hz].
      * by apply lt_asym.
      * by eapply Forall_forall in Hy.
    + constructor; [by constructor|].
      constructor; [done|].
      eapply Forall_impl; [exact Hy|]. intros z Hz.
      unfold not_after in *. by eapply lt_negtrans.
Qed.

Lemma sorted_sorted l : StronglySorted (not_after lt) (sorted lt l).
Proof using lt_asym lt_negtrans.
  induction l as [|x l IH]; simpl; [constructor|].
  by apply insort_sorted.
Qed.
End Order.

End PyFacts.

(** ** The primitives on sample inputs

    The values are those of the Python functions on the same inputs. *)

Example split_samples :
  split "  x " = ["x"] ∧ split "a b  c" = ["a"; "b"; "c"] ∧ split "" = []
  ∧ split1 ":" "ab:cd:e" = ["ab"; "cd:e"] ∧ split1 ":" "abc" = ["abc"]
  ∧ strip "  a b  " = "a b" ∧ clean_text "  a   b c  " = "a b c"
  ∧ join " " ["a"; "b"; "c"] = "a b c" ∧ join " " [] = "".
Proof. repeat split; vm_compute; reflexivity. Qed.

Example sorted_is_stable :
  sorted (fun a b => bool_decide (a.1 < b.1)%Z)
         [(3, "a"); (1, "b"); (3, "c"); (2, "d"); (1, "e")]%Z
  = [(1, "b"); (1, "e"); (2, "d"); (3, "a"); (3, "c")]%Z
  ∧ sorted (fun a b => bool_decide (b.1 < a.1)%Z)
           [(3, "a"); (1, "b"); (3, "c"); (2, "d"); (1, "e")]%Z
    = [(3, "a"); (3, "c"); (2, "d"); (1, "b"); (1, "e")]%Z
  ∧ most_common1 (Counter [3; 5; 5; 3; 7]%Z) = [(3%Z, 2)].
Proof. repeat split; vm_compute; reflexivity. Qed.

Example date_pattern_samples :
  date_pattern_match <$>
    ["January 5, 2024"; "jan 05, 2024 x"; "5 January 2024"; "Jan 5, 20245";
     "May 5, 2024"; "5 may  2024."; "Janu 5, 2024"; "x Jan 5, 2024";
     "Sept 5, 2024"; "12 DEC 1999"; "123 Dec 1999"; "12 Dec 1999_";
     "1. Introduction"]
  = [true; true; true; false; true; true; false; false; false; true; false;
     false; false].
Proof. vm_compute. reflexivity. Qed.

Example number_pattern_samples :
  number_pattern_match <$>
    ["2.1 foo"; "2.1.4.9 X"; "1. Introduction"; "A. x"; "A x"; "AB x";
     "  12.3.45. x"; "123 x"; "1.234 x"; "2.1"; "2..1 x"; "a x"; "I am"]
  = [Some "2.1"; Some "2.1.4.9"; Some "1"; Some "A"; Some "A"; None;
     Some "12.3.45"; None; None; None; None; None; Some "I"].
Proof. vm_compute. reflexivity. Qed.

(** ** The noise filter *)

Section NoiseFilter.

Lemma protected_fold (m : Z) (bs : list TextBlock) (acc : gset string) t :
  t ∈ foldl (fun protected b =>
               if decide (size b = m) then protected ∪ {[text b]}
               else protected) acc bs
  ↔ t ∈ acc ∨ ∃ b, b ∈ bs ∧ size b = m ∧ text b = t.
Proof.
  revert acc. induction bs as [|b bs IH]; intros acc; simpl.
  - split; [by left|]. intros [?|(b & Hb & _)]; [done|].
    by apply elem_of_nil in Hb.
  - rewrite IH. split.
    + intros [Hacc|(b' & Hb' & Hs & Ht)].
      * destruct (decide (size b = m)) as [Hm|?]; [|by left].
        apply elem_of_union in Hacc as [?|Hacc]; [by left|].
        apply elem_of_singleton in Hacc. right. exists b.
        split; [by left|done].
      * right. exists b'. split; [by right|done].
    + intros [Hacc|(b' & Hb' & Hs & Ht)].
      * left. destruct (decide (size b = m)); [|done].
        apply elem_of_union. by left.
      * apply elem_of_cons in Hb' as [->|Hb'].
        -- left. rewrite decide_True by done.
           apply elem_of_union. right. by apply elem_of_singleton.
        -- right. by exists b'.
Qed.

Lemma to_remove_fold (prot : gset string) (bs : list TextBlock)
    (acc : gset string) t :
  t ∈ foldl (fun to_remove block =>
               if decide (text block ∈ prot) then to_remove
               else if rotated block then to_remove ∪ {[text block]}
               else to_remove) acc bs
  ↔ t ∈ acc ∨ ∃ b, b ∈ bs ∧ text b = t ∧ (t ∉ prot) ∧ rotated b = true.
Proof.
  revert acc. induction bs as [|b bs IH]; intros acc; simpl.
  - split; [by left|]. intros [?|(b & Hb & _)]; [done|].
    by apply elem_of_nil in Hb.
  - rewrite IH. split.
    + intros [Hacc|(b' & Hb' & Ht & Hp & Hr)].
      * destruct (decide (text b ∈ prot)) as [?|Hnp]; [by left|].
        destruct (rotated b) eqn:Hr; [|by left].
        apply elem_of_union in Hacc as [?|Hacc]; [by left|].
        apply elem_of_singleton in Hacc. subst t. right. exists b.
        split; [by left|done].
      * right. exists b'. split; [by right|done].
    + intros [Hacc|(b' & Hb' & Ht & Hp & Hr)].
      * left. destruct (decide (text b ∈ prot)); [done|].
        destruct (rotated b); [|done]. apply elem_of_union. by left.
      * apply elem_of_cons in Hb' as [->|Hb'].
        -- left. subst t. rewrite decide_False by done. rewrite Hr.
           apply elem_of_union. right. by apply elem_of_singleton.
        -- right. by exists b'.
Qed.

Lemma rotated_spec (b : TextBlock) :
  rotated b = true
  ↔ ∃ d, dir b = Some d ∧ PrimFloat.ltb (PrimFloat.abs d.1) lit_0_99 = true.
Proof.
  unfold rotated. destruct (dir b) as [d|].
  - split; [by exists d|]. by intros (d' & [= <-] & ?).
  - split; [done|]. by intros (d' & ? & ?).
Qed.

(** The set [protected_texts] that [filter_non_content] computes. *)
Lemma protected_texts_spec (blocks : list TextBlock) :
  ∃ prot : gset string,
    match filter (fun b => page b = 0%Z) blocks with
    | [] => Ok (∅ : gset string)
    | _ :: _ =>
        max_size ← max_of (size <$> filter (fun b => page b = 0%Z) blocks);
        Ok (foldl (fun protected b =>
                     if decide (size b = max_size)
                     then protected ∪ {[text b]} else protected)
                  ∅ (filter (fun b => page b = 0%Z) blocks))
    end = Ok prot
    ∧ ∀ t, t ∈ prot ↔ protected blocks t.
Proof.
  destruct (filter (fun b => page b = 0%Z) blocks) as [|b0 fp] eqn:Hfp.
  - exists ∅. split; [done|]. intros t. split; [set_solver|].
    intros (b & Hb & Hp & _).
    assert (b ∈ filter (fun b => page b = 0%Z) blocks) as Hin
      by (by apply list_elem_of_filter).
    rewrite Hfp in Hin. by apply elem_of_nil in Hin.
  - destruct (max_of_returns (size <$> b0 :: fp)) as [m Hm]; [done|].
    eexists. split; [by rewrite Hm|].
    apply max_of_spec in Hm as [Hin Hub].
    intros t. rewrite protected_fold, <-Hfp.
    split.
    + intros [?|(b & Hb & Hs & Ht)]; [set_solver|].
      apply list_elem_of_filter in Hb as [Hp Hb].
      exists b. repeat split; try done.
      intros b' Hb' Hp'. rewrite Hs. apply Hub. rewrite <-Hfp.
      apply list_elem_of_fmap. exists b'. split; [done|].
      by apply list_elem_of_filter.
    + intros (b & Hb & Hp & Ht & Hmax). right. exists b.
      split; [by apply list_elem_of_filter|]. split; [|done].
      rewrite <-Hfp in Hin.
      apply list_elem_of_fmap in Hin as (bm & -> & Hbm).
      apply list_elem_of_filter in Hbm as [Hpm Hbm].
      apply Z.le_antisymm; [|by apply Hmax].
      apply Hub. rewrite <-Hfp. apply list_elem_of_fmap. exists b.
      split; [done|]. by apply list_elem_of_filter.
Qed.

Lemma filter_none_removed (X : gset string) (bs : list TextBlock) :
  (∀ b, b ∈ bs → text b ∉ X) → filter (fun b => text b ∉ X) bs = bs.
Proof.
  induction bs as [|b bs IH]; intros H; [done|].
  rewrite filter_cons_True by (apply H; by left).
  f_equal. apply IH. intros b' Hb'. apply H. by right.
Qed.

Lemma filter_bool_decide {A} (P : A → Prop) `{!∀ x, Decision (P x)} l :
  filter P l = List.filter (fun x => bool_decide (P x)) l.
Proof.
  induction l as [|x l IH]; [done|]. simpl. rewrite <-IH.
  destruct (decide (P x)).
  - by rewrite filter_cons_True, bool_decide_true.
  - by rewrite filter_cons_False, bool_decide_false.
Qed.

(** What [filter_non_content] returns. *)
Lemma filter_non_content_ok (blocks : list TextBlock) (doc : nat) :
  ∃ (out : list TextBlock) (removed : gset string),
    filter_non_content blocks doc = Ok out
    ∧ (∀ t, t ∈ removed ↔ marked blocks t)
    ∧ out = filter (fun b => text b ∉ removed) blocks.
Proof.
  destruct blocks as [|b0 bs] eqn:Hbl.
  { exists [], ∅. split; [done|]. split; [|done].
    intros t. split; [set_solver|].
    intros (b & Hb & _). by apply elem_of_nil in Hb. }
  rewrite <-Hbl.
  destruct (protected_texts_spec blocks) as (prot & Hprot & Hspec).
  set (rem := foldl (fun (to_remove : gset string) block =>
                 if decide (text block ∈ prot) then to_remove
                 else if rotated block then to_remove ∪ {[text block]}
                 else to_remove) ∅ blocks).
  assert (∀ t, t ∈ rem ↔ marked blocks t) as Hrem.
  { intros t. unfold rem. rewrite to_remove_fold. split.
    - intros [?|(b & Hb & Ht & Hp & Hr)]; [set_solver|].
      exists b. repeat split; try done.
      + by rewrite <-Hspec.
      + by apply rotated_spec.
    - intros (b & Hb & Ht & Hp & Hr). right. exists b.
      repeat split; try done.
      + by rewrite Hspec.
      + by apply rotated_spec. }
  exists (filter (fun b => text b ∉ rem) blocks), rem.
  split; [|done].
  unfold filter_non_content. rewrite Hbl at 1. rewrite Hprot. simpl.
  fold rem. destruct (decide (rem = ∅)) as [He|?]; [|done].
  f_equal. symmetry. apply filter_none_removed. intros b _. rewrite He.
  set_solver.
Qed.

End NoiseFilter.

(** ** Size ranks and levels *)

Section Levels.

Lemma dict_of_snoc `{Countable K} {V} (kvs : list (K * V)) kv :
  dict_of (kvs ++ [kv]) = <[kv.1 := kv.2]> (dict_of kvs).
Proof. unfold dict_of. by rewrite foldl_app. Qed.

Lemma dict_of_lookup `{Countable K} {V} (kvs : list (K * V)) k v :
  NoDup kvs.*1 → dict_of kvs !! k = Some v ↔ (k, v) ∈ kvs.
Proof.
  induction kvs as [|[k' v'] kvs IH] using rev_ind; intros Hnd.
  - unfold dict_of. simpl. rewrite lookup_empty. split; [done|].
    intros Hin. by apply elem_of_nil in Hin.
  - rewrite dict_of_snoc. simpl. rewrite fmap_app in Hnd.
    apply NoDup_app in Hnd as (Hnd & Hdisj & _).
    rewrite elem_of_app, list_elem_of_singleton.
    destruct (decide (k' = k)) as [->|Hne].
    + rewrite lookup_insert_eq. split.
      * intros [= ->]. by right.
      * intros [Hin|[= ->]]; [|done]. exfalso.
        apply (Hdisj k); [|by left].
        apply list_elem_of_fmap. by exists (k, v).
    + rewrite lookup_insert_ne by done. rewrite IH by done. split.
      * by left.
      * intros [?|[= ? ?]]; [done|congruence].
Qed.

Lemma level_pairs_fst (sizes : list Z) :
  ((fun '(i, sz) => (sz, fmt_H (i + 1))) <$> enumerate sizes).*1 = sizes.
Proof.
  apply list_eq. intros i. unfold enumerate.
  rewrite !list_lookup_fmap, list_lookup_imap.
  by destruct (sizes !! i).
Qed.

Lemma level_pairs_elem (sizes : list Z) s l :
  (s, l) ∈ ((fun '(i, sz) => (sz, fmt_H (i + 1))) <$> enumerate sizes)
  ↔ ∃ i, sizes !! i = Some s ∧ l = fmt_H (i + 1).
Proof.
  rewrite list_elem_of_fmap. unfold enumerate. split.
  - intros ([i sz] & [= -> ->] & Hin).
    apply elem_of_lookup_imap in Hin as (i' & y & [= -> ->] & Hl).
    by exists i'.
  - intros (i & Hi & ->). exists (i, s). split; [done|].
    by apply elem_of_lookup_imap_2.
Qed.

(** The level of a size is its rank among the first three sizes. *)
Lemma level_map_lookup (sizes : list Z) s l :
  NoDup sizes →
  level_map sizes !! s = Some l
  ↔ ∃ i, i < 3 ∧ sizes !! i = Some s ∧ l = fmt_H (i + 1).
Proof.
  intros Hnd. unfold level_map.
  rewrite dict_of_lookup.
  - rewrite level_pairs_elem. split.
    + intros (i & Hi & ->). apply lookup_take_Some in Hi as [Hi Hlt].
      by exists i.
    + intros (i & Hlt & Hi & ->). exists i. split; [|done].
      by apply lookup_take_Some.
  - rewrite level_pairs_fst.
    eapply sublist_NoDup; [exact Hnd|apply sublist_take].
Qed.

Lemma StronglySorted_lookup {A} (R : relation A) l i j x y :
  StronglySorted R l → i < j → l !! i = Some x → l !! j = Some y → R x y.
Proof.
  intros Hl. revert i j. induction Hl as [|a l Hl IH Ha]; intros i j Hij Hi Hj.
  - by rewrite lookup_nil in Hi.
  - destruct j as [|j]; [lia|]. simpl in Hj. destruct i as [|i]; simpl in Hi.
    + injection Hi as ->. eapply Forall_forall in Ha; [done|].
      by eapply list_elem_of_lookup_2.
    + apply (IH i j); [lia|done..].
Qed.

Lemma StronglySorted_weaken {A} (R R' : relation A) l :
  (∀ a b, R a b → R' a b) → StronglySorted R l → StronglySorted R' l.
Proof.
  intros HR. induction 1 as [|a l Hl IH Ha]; constructor; [done|].
  eapply Forall_impl; [exact Ha|]. intros b. apply HR.
Qed.

Lemma desc_asym (a b : Z) :
  bool_decide (b < a)%Z = true → bool_decide (a < b)%Z = false.
Proof. rewrite bool_decide_eq_true, bool_decide_eq_false. lia. Qed.

Lemma desc_negtrans (a b c : Z) :
  bool_decide (a < b)%Z = false → bool_decide (b < c)%Z = false →
  bool_decide (a < c)%Z = false.
Proof. rewrite !bool_decide_eq_false. lia. Qed.

Lemma distinct_desc_elem (sizes : list Z) s : s ∈ distinct_desc sizes ↔ s ∈ sizes.
Proof.
  unfold distinct_desc. rewrite sorted_elem_of, elem_of_elements.
  apply elem_of_list_to_set.
Qed.

Lemma distinct_desc_NoDup (sizes : list Z) : NoDup (distinct_desc sizes).
Proof.
  unfold distinct_desc. rewrite sorted_Permutation. apply NoDup_elements.
Qed.

Lemma distinct_desc_sorted (sizes : list Z) :
  StronglySorted (fun a b => (b ≤ a)%Z) (distinct_desc sizes).
Proof.
  unfold distinct_desc.
  eapply StronglySorted_weaken;
    [|apply (sorted_sorted (fun a b => bool_decide (b < a)%Z))].
  - intros a b. unfold not_after. rewrite bool_decide_eq_false. lia.
  - intros a b. apply desc_asym.
  - intros a b c. apply desc_negtrans.
Qed.

(** A greater size never has a deeper level. *)
Lemma level_map_monotone (sizes : list Z) s1 s2 l1 l2 :
  level_map (distinct_desc sizes) !! s1 = Some l1 →
  level_map (distinct_desc sizes) !! s2 = Some l2 →
  (s2 < s1)%Z →
  ∃ n1 n2, level_number l1 n1 ∧ level_number l2 n2 ∧ n1 < n2.
Proof.
  intros H1 H2 Hlt.
  apply level_map_lookup in H1 as (i1 & _ & Hi1 & ->);
    [|apply distinct_desc_NoDup].
  apply level_map_lookup in H2 as (i2 & _ & Hi2 & ->);
    [|apply distinct_desc_NoDup].
  exists (i1 + 1), (i2 + 1). repeat split.
  destruct (decide (i1 < i2)) as [?|Hge]; [lia|]. exfalso.
  destruct (decide (i1 = i2)) as [->|Hne].
  - rewrite Hi1 in Hi2. injection Hi2 as ->. lia.
  - pose proof (StronglySorted_lookup _ _ i2 i1 s2 s1
                  (distinct_desc_sorted sizes)) as Hs.
    assert (s1 ≤ s2)%Z by (apply Hs; [lia|done..]). lia.
Qed.

(** A level has one heading level number. *)
Lemma fmt_H_inj n m : fmt_H n = fmt_H m → n = m.
Proof.
  unfold fmt_H. intros H. injection H as H.
  change (pretty n = pretty m) in H. exact (inj pretty _ _ H).
Qed.

End Levels.

(** ** The two strategies *)

Section Strategies.

Lemma split1_nonempty c s : ∃ h t, split1 c s = h :: t.
Proof.
  induction s as [|a s IH]; simpl; [by eauto|].
  case_bool_decide; [by eauto|]. destruct IH as (h & t & ->). by eauto.
Qed.

Lemma heading_text_returns t : ∃ t', heading_text t = Ok t'.
Proof.
  unfold heading_text. destruct (_ && _); [|by eauto].
  destruct (split1_nonempty ":" t) as (h & tl & ->). simpl.
  destruct (decide _); by eauto.
Qed.

Lemma strategy1_item_returns tp stl b : ∃ o, strategy1_item tp stl b = Ok o.
Proof.
  unfold strategy1_item.
  destruct (bool_decide (text b ∈ tp)); simpl; [by eauto|].
  destruct (bool_decide (stl !! size b = None)) eqn:E; simpl; [by eauto|].
  destruct (date_pattern_match _); [by eauto|].
  destruct (heading_text_returns (text b)) as [t' ->]. simpl.
  destruct (decide _); [|by eauto].
  apply bool_decide_eq_false in E. unfold subscript.
  destruct (stl !! size b); [simpl; by eauto|done].
Qed.

Lemma strategy1_item_emitted tp stl b :
  strategy1_item tp stl b = Ok (emitted1 tp stl b).
Proof.
  unfold emitted1. by destruct (strategy1_item_returns tp stl b) as [o ->].
Qed.

(** An entry of Strategy 1 has the level of its block's size. *)
Lemma emitted1_level tp stl b it :
  emitted1 tp stl b = Some it → stl !! size b = Some (level it).
Proof.
  unfold emitted1, strategy1_item.
  destruct (bool_decide (text b ∈ tp)); simpl; [done|].
  destruct (bool_decide (stl !! size b = None)); simpl; [done|].
  destruct (date_pattern_match _); [done|].
  destruct (heading_text (text b)) as [t'|e]; simpl; [|done].
  destruct (decide _); [|done]. unfold subscript.
  destruct (stl !! size b); simpl; [|done]. by intros [= <-].
Qed.

Lemma for_each_items {A} (item : A → result (option OutlineItem))
    (emit : A → option OutlineItem) l s :
  (∀ x, item x = Ok (emit x)) →
  for_each l (fun s x => it ← item x; Ok (append_item s it)) s
  = Ok (s ++ omap emit l).
Proof.
  intros H. revert s. induction l as [|a l IH]; intros s; simpl.
  - by rewrite app_nil_r.
  - rewrite H. simpl. rewrite IH. f_equal. unfold append_item.
    destruct (emit a); simpl; [by rewrite <-app_assoc|done].
Qed.

Lemma strategy1_ok blocks tp us :
  strategy1 blocks tp us = Ok (omap (emitted1 tp (level_map us)) blocks).
Proof.
  unfold strategy1, strategy1_body.
  rewrite (for_each_items _ (emitted1 tp (level_map us))); [done|].
  intros b. apply strategy1_item_emitted.
Qed.

Lemma foldl_strategy2_body stl l s :
  foldl (strategy2_body stl) s l = s ++ omap (strategy2_item stl) l.
Proof.
  revert s. induction l as [|a l IH]; intros s; simpl.
  - by rewrite app_nil_r.
  - rewrite IH. unfold strategy2_body, append_item.
    destruct (strategy2_item stl a); simpl; [by rewrite <-app_assoc|done].
Qed.

Lemma counter_add_nonempty x c : counter_add x c ≠ [].
Proof. destruct c as [|[y n] c]; simpl; [done|]. by destruct (decide _). Qed.

Lemma foldl_counter_add_nonempty l c :
  c ≠ [] → foldl (fun c x => counter_add x c) c l ≠ [].
Proof.
  revert c. induction l as [|y l IH]; intros c Hc; simpl; [done|].
  apply IH, counter_add_nonempty.
Qed.

Lemma Counter_nonempty l : l ≠ [] → Counter l ≠ [].
Proof.
  destruct l as [|x l]; [done|]. intros _.
  apply (foldl_counter_add_nonempty l (counter_add x [])).
  apply counter_add_nonempty.
Qed.

Lemma body_size_of_returns blocks us : ∃ bs, body_size_of blocks us = Ok bs.
Proof.
  unfold body_size_of.
  destruct (size <$> filter _ blocks) as [|s ps] eqn:E.
  - destruct us as [|u us]; [by eauto|]. unfold index_last.
    destruct (last (u :: us)) eqn:El; [by eauto|].
    by apply last_None in El.
  - destruct (Counter (s :: ps)) as [|e c] eqn:Ec.
    + by apply Counter_nonempty in Ec.
    + simpl. by eauto.
Qed.

Lemma strategy2_ok blocks tp us :
  ∃ body_size,
    body_size_of blocks us = Ok body_size
    ∧ strategy2 blocks tp us
      = Ok (omap (strategy2_item
                    (level_map (distinct_desc
                       (size <$> heading_candidates_of blocks tp body_size))))
                 (sorted page_top_lt
                    (heading_candidates_of blocks tp body_size))).
Proof.
  destruct (body_size_of_returns blocks us) as [bs Hbs]. exists bs.
  split; [done|]. unfold strategy2. rewrite Hbs. simpl.
  by rewrite foldl_strategy2_body.
Qed.

(** The numbering prefix decides the level of a Strategy 2 entry. *)
Lemma strategy2_item_numbered stl b g :
  number_pattern_match (text b) = Some g →
  strategy2_item stl b
  = Some {| level := fmt_H (Nat.min (count "." g + 1) 3);
            item_text := text b; item_page := page b |}.
Proof. unfold strategy2_item. by intros ->. Qed.

(** Without a numbering prefix the level is that of the size, and a size
    without a level gives no entry. *)
Lemma strategy2_item_plain stl b :
  number_pattern_match (text b) = None →
  strategy2_item stl b
  = match stl !! size b with
    | Some l =>
        if is_empty l then None
        else Some {| level := l; item_text := text b; item_page := page b |}
    | None => None
    end.
Proof.
  unfold strategy2_item. intros ->. destruct (stl !! size b) as [l|]; [|done].
  simpl. by destruct (is_empty l).
Qed.


End Strategies.

(** ** The numbering pattern on the two prefixes of the specification *)

Section NumberPattern.
Import Re.

Lemma star_n_chr_const {R} n f (r : R) p :
  star_n n (chr f) (fun _ => Some r) p = Some r.
Proof.
  revert p. induction n as [|n IH]; intros p; simpl; [done|].
  unfold alt, seq, chr at 1. destruct p.2 as [|c s]; [done|].
  destruct (f c); [|done]. by rewrite IH.
Qed.

Lemma chr_cons {R} f (k : pos → option R) o c s :
  chr f k (o, String c s) = if f c then k (Some c, s) else None.
Proof. done. Qed.

(** Decide the test of a character class on a known character. *)
Ltac re_class :=
  match goal with
  | |- context [if ?b then _ else _] =>
      let v := eval vm_compute in b in
      lazymatch v with
      | true => change b with true
      | false => change b with false
      end; cbv iota
  end.

(** One step of the matcher on an input whose next character is known. *)
Ltac re_step :=
  first
    [ re_class
    | rewrite chr_cons
    | progress cbn [fst snd String.length star_n]
    | progress unfold alt, seq, eps
    | progress cbv beta iota ].

Ltac re_run :=
  unfold number_pattern_match, star, capture, space1, plus, digit12, opt,
    digit;
  repeat re_step;
  unfold star; rewrite star_n_chr_const.

Lemma number_prefix_2_1 rest :
  number_pattern_match ("2.1 " +:+ rest) = Some "2.1".
Proof.
  change ("2.1 " +:+ rest)
    with (String "2" (String "." (String "1" (String " " rest)))).
  re_run.
  replace (S (S (S (S (String.length rest)))) - S (String.length rest))
    with 3 by lia.
  reflexivity.
Qed.

Lemma number_prefix_2_1_4_9 rest :
  number_pattern_match ("2.1.4.9 " +:+ rest) = Some "2.1.4.9".
Proof.
  change ("2.1.4.9 " +:+ rest)
    with (String "2" (String "." (String "1" (String "." (String "4"
            (String "." (String "9" (String " " rest)))))))).
  re_run.
  replace (S (S (S (S (S (S (S (S (String.length rest))))))))
           - S (String.length rest))
    with 7 by lia.
  reflexivity.
Qed.

End NumberPattern.

(** ** The outline merger *)

Section Merger.

Lemma lstrip_head s :
  lstrip s = "" ∨ ∃ c r, lstrip s = String c r ∧ isspace c = false.
Proof.
  induction s as [|c s IH]; simpl; [by left|].
  destruct (isspace c) eqn:E; [done|]. right. by exists c, s.
Qed.

Lemma lstrip_app a t : lstrip a ≠ "" → lstrip (a +:+ t) = lstrip a +:+ t.
Proof.
  induction a as [|c a IH]; simpl; [done|].
  destruct (isspace c); [done|]. by intros _.
Qed.

Lemma rstrip_cons_nonspace c s :
  isspace c = false → rstrip (String c s) = String c (rstrip s).
Proof. intros H. simpl. by rewrite H. Qed.

Lemma blank_lstrip s : blank s ↔ lstrip s = "".
Proof.
  unfold blank, strip. destruct (lstrip_head s) as [->|(c & r & -> & Hc)].
  - done.
  - by rewrite rstrip_cons_nonspace.
Qed.

(** Appending to a text that is not blank leaves its first visible
    character in place. *)
Lemma strip_app_head a t c :
  ¬ blank a →
  startswith c (strip (a +:+ t)) = startswith c (strip a)
  ∧ ¬ blank (a +:+ t).
Proof.
  intros Ha. rewrite blank_lstrip in Ha. rewrite blank_lstrip.
  unfold strip. rewrite lstrip_app by done.
  destruct (lstrip_head a) as [?|(c' & r & -> & Hc)]; [done|].
  change (String c' r +:+ t) with (String c' (r +:+ t)).
  rewrite !rstrip_cons_nonspace by done. by split.
Qed.

Lemma dedup_fold l seen acc :
  (foldl dedup_body (seen, acc) l).2 = acc ++ dedup_from seen l.
Proof.
  revert seen acc. induction l as [|it l IH]; intros seen acc; simpl.
  - by rewrite app_nil_r.
  - unfold dedup_body at 2. simpl. fold (key it).
    destruct (decide (key it ∈ seen)); [apply IH|].
    rewrite IH. by rewrite <-app_assoc.
Qed.

Lemma dedup_outline_from l : dedup_outline l = dedup_from ∅ l.
Proof. unfold dedup_outline. by rewrite dedup_fold. Qed.

Lemma dedup_from_elem seen l it : it ∈ dedup_from seen l → it ∈ l.
Proof.
  revert seen. induction l as [|a l IH]; intros seen; simpl; [done|].
  destruct (decide _).
  - intros H. right. by eapply IH.
  - intros [->|H]%elem_of_cons; [by left|]. right. by eapply IH.
Qed.

Lemma dedup_from_NoDup seen l :
  NoDup (key <$> l) → (∀ it, it ∈ l → key it ∉ seen) → dedup_from seen l = l.
Proof.
  revert seen. induction l as [|a l IH]; intros seen Hnd Hseen; simpl; [done|].
  rewrite fmap_cons in Hnd. apply NoDup_cons in Hnd as [Ha Hnd].
  rewrite decide_False by (apply Hseen; by left).
  f_equal. apply IH; [done|]. intros it Hit.
  rewrite elem_of_union, elem_of_singleton. intros [Hs|Hk].
  - by apply (Hseen it); [right|].
  - apply Ha. rewrite <-Hk. apply list_elem_of_fmap. by exists it.
Qed.

Lemma merge_body_step final m prev i cur :
  final !! i = Some cur →
  merge_body final (m ++ [prev]) i
  = Ok (if mergeable prev cur then m ++ [absorb prev cur]
        else (m ++ [prev]) ++ [cur]).
Proof.
  intros Hi. unfold merge_body. rewrite index_last_snoc. simpl.
  rewrite (index_lookup _ _ cur) by done. simpl.
  destruct (mergeable prev cur); [|done]. f_equal.
  rewrite length_app. simpl.
  replace (length m + 1 - 1) with (length m + 0) by lia.
  by rewrite insert_app_r.
Qed.

(** The merge loop from the entry [i = length pre] on. *)
Lemma merge_loop rest pre m prev :
  for_each (seq (length pre) (length rest)) (merge_body (pre ++ rest))
           (m ++ [prev])
  = Ok (m ++ merge_from prev rest).
Proof.
  revert pre m prev. induction rest as [|cur rest IH]; intros pre m prev.
  - done.
  - simpl. rewrite (merge_body_step _ _ _ _ cur)
      by (by rewrite lookup_app_r, Nat.sub_diag by lia).
    simpl. specialize (IH (pre ++ [cur])).
    rewrite length_app, Nat.add_1_r, <-app_assoc in IH. simpl in IH.
    destruct (mergeable prev cur).
    + apply IH.
    + rewrite IH. by rewrite <-app_assoc.
Qed.

Lemma merge_continuations_ok l : merge_continuations l = Ok (merged l).
Proof.
  destruct l as [|first rest]; [done|].
  unfold merge_continuations. simpl index. simpl.
  rewrite Nat.sub_0_r.
  apply (merge_loop rest [first] [] first).
Qed.

Lemma merge_ok l : merge l = Ok (merged (dedup_from ∅ l)).
Proof. unfold merge. by rewrite merge_continuations_ok, dedup_outline_from. Qed.

Lemma merge_from_settled_id prev rest :
  settled_from prev rest → merge_from prev rest = prev :: rest.
Proof.
  revert prev. induction rest as [|cur rest IH]; intros prev; simpl; [done|].
  intros [-> Hs]. f_equal. by apply IH.
Qed.

Lemma mergeable_ext a a' b b' :
  item_page a = item_page a' → level a = level a' →
  item_page b = item_page b' → level b = level b' →
  startswith "&" (strip (item_text b)) = startswith "&" (strip (item_text b')) →
  mergeable a b = mergeable a' b'.
Proof. unfold mergeable. by intros -> -> -> -> ->. Qed.

(** The result of the merge loop is settled when no text is blank. *)
Lemma merge_from_settled prev rest :
  (∀ it, it ∈ prev :: rest → ¬ blank (item_text it)) →
  ∃ prev' rest',
    merge_from prev rest = prev' :: rest'
    ∧ settled_from prev' rest'
    ∧ item_page prev' = item_page prev ∧ level prev' = level prev
    ∧ startswith "&" (strip (item_text prev'))
      = startswith "&" (strip (item_text prev)).
Proof.
  revert prev. induction rest as [|cur rest IH]; intros prev Hnb; simpl.
  - by exists prev, [].
  - assert (¬ blank (item_text prev)) as Hp by (apply Hnb; by left).
    destruct (strip_app_head (item_text prev) (" " +:+ item_text cur) "&" Hp)
      as [Hamp Hnb'].
    destruct (mergeable prev cur) eqn:E.
    + destruct (IH (absorb prev cur)) as (p' & r' & -> & Hs & Hpg & Hlv & Ha).
      { intros it [->|Hit]%elem_of_cons; [done|].
        apply Hnb. by do 2 right. }
      exists p', r'. repeat split; try done.
      by rewrite Ha.
    + destruct (IH cur) as (c' & r' & -> & Hs & Hpg & Hlv & Ha).
      { intros it Hit. apply Hnb. by right. }
      exists prev, (c' :: r'). repeat split; try done.
      rewrite <-E. by apply mergeable_ext.
Qed.

End Merger.

(** ** The title *)

Section Title.

Lemma filter_ext_in {A} (P1 P2 : A → Prop)
    `{!∀ x, Decision (P1 x), !∀ x, Decision (P2 x)} (l : list A) :
  (∀ x, x ∈ l → P1 x ↔ P2 x) → filter P1 l = filter P2 l.
Proof.
  induction l as [|a l IH]; intros Hext; [done|].
  assert (filter P1 l = filter P2 l) as Hl
    by (apply IH; intros x Hx; apply Hext; by right).
  assert (P1 a ↔ P2 a) as Ha12 by (apply Hext; by left).
  destruct (decide (P1 a)) as [Ha|Ha].
  - rewrite !filter_cons_True by tauto. by rewrite Hl.
  - by rewrite !filter_cons_False by tauto.
Qed.

(** The blocks the title is built from are the title blocks. *)
Lemma title_filter blocks m :
  max_of (size <$> filter (fun b => page b = 0%Z) blocks) = Ok m →
  filter (fun b => size b = m) (filter (fun b => page b = 0%Z) blocks)
  = title_blocks_of blocks.
Proof.
  intros [Hin Hub]%max_of_spec.
  rewrite list_filter_filter. unfold title_blocks_of.
  apply filter_ext_in. intros b Hb. unfold is_title_block.
  rewrite Forall_forall. split.
  - intros [-> Hp]. split; [done|]. intros b' Hb' Hp'.
    apply Hub, list_elem_of_fmap. exists b'. split; [done|].
    by apply list_elem_of_filter.
  - intros [Hp Hmax]. split; [|done].
    apply list_elem_of_fmap in Hin as (bm & -> & Hbm).
    apply list_elem_of_filter in Hbm as [Hpm Hbm].
    apply Z.le_antisymm; [|by apply Hmax].
    apply Hub, list_elem_of_fmap. exists b. split; [done|].
    by apply list_elem_of_filter.
Qed.

Lemma extract_title_first_page blocks :
  (∃ b, b ∈ blocks ∧ page b = 0%Z) →
  extract_title blocks
  = Ok (join " " (text <$> sorted top_lt (title_blocks_of blocks)),
        text <$> sorted top_lt (title_blocks_of blocks)).
Proof.
  intros (b & Hb & Hp). unfold extract_title.
  destruct (filter (fun b => page b = 0%Z) blocks) as [|b0 fp] eqn:Hfp.
  { assert (b ∈ filter (fun b => page b = 0%Z) blocks) as Hin
      by (by apply list_elem_of_filter).
    rewrite Hfp in Hin. by apply elem_of_nil in Hin. }
  destruct (max_of_returns (size <$> b0 :: fp)) as [m Hm]; [done|].
  rewrite Hm. simpl. rewrite <-Hfp in Hm |- *.
  by rewrite (title_filter _ _ Hm).
Qed.

Lemma extract_title_no_first_page blocks :
  (∀ b, b ∈ blocks → page b ≠ 0%Z) →
  extract_title blocks = Ok ("Title Not Found", []).
Proof.
  intros H. unfold extract_title.
  destruct (filter (fun b => page b = 0%Z) blocks) as [|b0 fp] eqn:Hfp; [done|].
  assert (b0 ∈ filter (fun b => page b = 0%Z) blocks) as Hin
    by (rewrite Hfp; by left).
  apply list_elem_of_filter in Hin as [Hp Hin]. by apply H in Hin.
Qed.

Lemma extract_title_returns blocks : ∃ r, extract_title blocks = Ok r.
Proof.
  destruct (decide (Exists (fun b => page b = 0%Z) blocks)) as [He|Hn].
  - apply Exists_exists in He. rewrite extract_title_first_page by done.
    by eauto.
  - rewrite extract_title_no_first_page; [by eauto|].
    intros b Hb Hp. apply Hn, Exists_exists. by exists b.
Qed.

Lemma title_blocks_Permutation blocks blocks' :
  blocks ≡ₚ blocks' → title_blocks_of blocks ≡ₚ title_blocks_of blocks'.
Proof.
  intros Hperm. unfold title_blocks_of.
  rewrite (list_filter_iff (is_title_block blocks) (is_title_block blocks')).
  - by rewrite Hperm.
  - intros b. unfold is_title_block. by rewrite Hperm.
Qed.

Lemma top_lt_asym a b : top_lt a b = true → top_lt b a = false.
Proof.
  unfold top_lt. rewrite bool_decide_eq_true, bool_decide_eq_false.
  intros H1 H2. by apply (Qclt_not_le _ _ H1), Qclt_le_weak.
Qed.

Lemma top_lt_negtrans a b c :
  top_lt b a = false → top_lt c b = false → top_lt c a = false.
Proof.
  unfold top_lt. rewrite !bool_decide_eq_false.
  intros H1 H2 H3. apply Qcnot_lt_le in H1, H2.
  apply (Qclt_not_le _ _ H3). by apply Qcle_trans with (bbox1 b).
Qed.

(** The sorted title blocks ascend in [bbox.y0]. *)
Lemma sorted_top_ascending l :
  StronglySorted (fun a b => (bbox1 a ≤ bbox1 b)%Qc) (sorted top_lt l).
Proof.
  eapply StronglySorted_weaken; [|apply (sorted_sorted top_lt)].
  - intros a b. unfold not_after, top_lt. rewrite bool_decide_eq_false.
    apply Qcnot_lt_le.
  - apply top_lt_asym.
  - apply top_lt_negtrans.
Qed.

(** The sort is stable: blocks with the same top keep their input order. *)
Lemma insort_top_stable y x l :
  filter (fun b => bbox1 b = y) (insort top_lt x l)
  = filter (fun b => bbox1 b = y) (x :: l).
Proof.
  induction l as [|z l IH]; simpl; [done|].
  destruct (top_lt z x) eqn:E; [|done].
  rewrite filter_cons, IH, !filter_cons.
  destruct (decide (bbox1 x = y)) as [Hx|Hx]; [|done].
  destruct (decide (bbox1 z = y)) as [Hz|Hz]; [exfalso|done].
  unfold top_lt in E. apply bool_decide_eq_true in E.
  rewrite Hx, Hz in E. by apply Qclt_not_eq in E.
Qed.

Lemma sorted_top_stable y l :
  filter (fun b => bbox1 b = y) (sorted top_lt l)
  = filter (fun b => bbox1 b = y) l.
Proof.
  unfold sorted. induction l as [|x l IH]; [done|]. simpl.
  rewrite insort_top_stable, !filter_cons. by rewrite IH.
Qed.

Lemma NoDup_fmap_inj_on {A B} (f : A → B) l x y :
  NoDup (f <$> l) → x ∈ l → y ∈ l → f x = f y → x = y.
Proof.
  induction l as [|a l IH]; intros Hnd Hx Hy Hf.
  - by apply elem_of_nil in Hx.
  - rewrite fmap_cons in Hnd. apply NoDup_cons in Hnd as [Ha Hnd].
    apply elem_of_cons in Hx as [->|Hx]; apply elem_of_cons in Hy as [->|Hy].
    + done.
    + exfalso. apply Ha. rewrite Hf. apply list_elem_of_fmap. by exists y.
    + exfalso. apply Ha. rewrite <-Hf. apply list_elem_of_fmap. by exists x.
    + by apply IH.
Qed.

(** With pairwise distinct tops the sorted result does not depend on the
    input order. *)
Lemma sorted_top_unique l l' :
  l ≡ₚ l' → NoDup (bbox1 <$> l) → sorted top_lt l = sorted top_lt l'.
Proof.
  intros Hperm Hnd.
  apply (StronglySorted_unique_strong (not_after top_lt)).
  - intros x1 x2 H1 H2 Hr1 Hr2. apply sorted_elem_of in H1, H2.
    rewrite <-Hperm in H2.
    apply (NoDup_fmap_inj_on bbox1 l); [done..|].
    unfold not_after, top_lt in Hr1, Hr2.
    apply bool_decide_eq_false in Hr1, Hr2.
    apply Qcnot_lt_le in Hr1, Hr2. by apply Qcle_antisym.
  - apply sorted_sorted; [apply top_lt_asym|apply top_lt_negtrans].
  - apply sorted_sorted; [apply top_lt_asym|apply top_lt_negtrans].
  - by rewrite !sorted_Permutation.
Qed.

End Title.

(** ** Document type detection *)

Section Graphical.

(** The double division [p / n] compares with the literal [0.1] as the
    exact fraction does with one tenth, for every [p <= n < 40]. *)
Lemma small_fraction_exact p n :
  0 < n → n < 40 → p ≤ n →
  PrimFloat.ltb (PrimFloat.div (float_of_len p) (float_of_len n)) lit_0_1
  = bool_decide (10 * p < n).
Proof.
  intros Hn0 Hn Hp.
  assert (forallb (fun n =>
            forallb (fun p =>
              Bool.eqb
                (PrimFloat.ltb
                   (PrimFloat.div (float_of_len p) (float_of_len n)) lit_0_1)
                (10 * p <? n))
              (seq 0 (S n)))
            (seq 1 39) = true) as Hall by (vm_compute; reflexivity).
  rewrite forallb_forall in Hall.
  specialize (Hall n). rewrite forallb_forall in Hall.
  assert (In n (seq 1 39)) as Hin by (apply in_seq; lia).
  specialize (Hall Hin p).
  assert (In p (seq 0 (S n))) as Hin' by (apply in_seq; lia).
  apply Hall in Hin'. apply Bool.eqb_prop in Hin'. rewrite Hin'.
  destruct (Nat.ltb_spec (10 * p) n).
  - by rewrite bool_decide_true.
  - by rewrite bool_decide_false by lia.
Qed.

Lemma filter_nil_Forall {A} (P : A → Prop) `{!∀ x, Decision (P x)} l :
  filter P l = [] ↔ Forall (fun x => ¬ P x) l.
Proof.
  induction l as [|a l IH]; [by split|].
  rewrite filter_cons, Forall_cons. destruct (decide (P a)); [|tauto].
  split; [done|]. by intros [? _].
Qed.

Lemma fraction_below_tenth (p n : nat) :
  0 < n →
  (Z.of_nat p # Pos.of_nat n < 1 # 10)%Q ↔ 10 * p < n.
Proof.
  intros Hn. unfold Qlt. simpl.
  destruct n as [|n]; [lia|].
  rewrite <-Pos.of_nat_succ, Zpos_P_of_succ_nat. lia.
Qed.

(** The value of [is_graphical_doc]. *)
Lemma is_graphical_doc_spec doc blocks :
  blocks ≠ [] →
  ∃ g, is_graphical_doc doc blocks = Ok g
       ∧ (g = true ↔ graphical_condition doc blocks).
Proof.
  intros Hne. unfold is_graphical_doc, graphical_condition.
  assert (0 < length blocks) as Hlen by (destruct blocks; [done|simpl; lia]).
  destruct (decide (doc = 1)) as [Hd|Hd];
    [|exists false; split; [done|]; by intuition].
  destruct (decide (length blocks < 40)) as [Hl|Hl];
    [|exists false; split; [done|]; by intuition].
  fold long_block.
  destruct (filter long_block blocks) as [|b0 ps] eqn:Hf.
  - exists true. split; [done|]. split; [|done]. intros _.
    split; [done|]. split; [done|]. left.
    by apply (proj1 (filter_nil_Forall long_block blocks)).
  - assert (length (b0 :: ps) ≤ length blocks) as Hle
      by (rewrite <-Hf; apply length_filter).
    unfold truediv. destruct (length blocks) as [|n] eqn:En; [lia|].
    eexists. split; [reflexivity|].
    rewrite small_fraction_exact by lia. rewrite bool_decide_eq_true.
    rewrite fraction_below_tenth by lia.
    split.
    + intros H. split; [done|]. split; [done|]. by right.
    + intros (_ & _ & [Hall|H]); [|done].
      apply (proj2 (filter_nil_Forall long_block blocks)) in Hall.
      by rewrite Hf in Hall.
Qed.

Lemma size_gt_asym a b : size_gt a b = true → size_gt b a = false.
Proof.
  unfold size_gt. rewrite bool_decide_eq_true, bool_decide_eq_false. lia.
Qed.

Lemma size_gt_negtrans a b c :
  size_gt b a = false → size_gt c b = false → size_gt c a = false.
Proof. unfold size_gt. rewrite !bool_decide_eq_false. lia. Qed.

(** The graphical path returns the entry of a block of greatest size. *)
Lemma graphical_outline_spec blocks :
  blocks ≠ [] →
  ∃ r, graphical_outline blocks = Ok r ∧ graphical_result blocks r.
Proof.
  intros Hne. unfold graphical_outline.
  pose proof (sorted_sorted size_gt size_gt_asym size_gt_negtrans blocks)
    as Hs.
  pose proof (sorted_Permutation size_gt blocks) as Hperm.
  destruct (sorted size_gt blocks) as [|b rest] eqn:E.
  { by apply Permutation_nil_l in Hperm. }
  simpl. eexists. split; [done|]. split; [done|]. exists b. simpl.
  split; [rewrite <-Hperm; by left|]. split; [|done].
  intros b' Hb'. rewrite <-Hperm in Hb'.
  apply StronglySorted_inv in Hs as [_ Hall].
  apply elem_of_cons in Hb' as [->|Hb']; [lia|].
  eapply Forall_forall in Hall; [|done].
  unfold not_after, size_gt in Hall. apply bool_decide_eq_false in Hall. lia.
Qed.

End Graphical.

(** ** The classifier as a whole *)

Section Classifier.

Lemma strategy_returns blocks tp us :
  ∃ outline,
    (if decide (1 < length us ∧ length us ≤ 6)
     then strategy1 blocks tp us else strategy2 blocks tp us) = Ok outline.
Proof.
  destruct (decide _).
  - rewrite strategy1_ok. by eauto.
  - destruct (strategy2_ok blocks tp us) as (bs & _ & ->). by eauto.
Qed.

Lemma classify_headings_returns doc blocks :
  returns (classify_headings doc blocks).
Proof.
  destruct blocks as [|b0 bs] eqn:E; [by eexists|]. rewrite <-E.
  assert (blocks ≠ []) as Hne by (by rewrite E).
  unfold classify_headings. rewrite E at 1.
  destruct (is_graphical_doc_spec doc blocks Hne) as (g & -> & _).
  destruct g.
  - destruct (graphical_outline_spec blocks Hne) as (r & Hr & _).
    by exists r.
  - destruct (extract_title_returns blocks) as [[t tp] Ht].
    destruct (strategy_returns blocks tp (distinct_desc (size <$> blocks)))
      as [o Ho].
    eexists. cbn. rewrite Ht. cbn. rewrite Ho. cbn. rewrite merge_ok. cbn.
    reflexivity.
Qed.

End Classifier.

(** ** A numbered candidate in the returned outline *)

Section NumberedEntry.
Import Re.

Lemma star_n_chr_inv {R} n f (k : pos → option R) o s r :
  star_n n (chr f) k (o, s) = Some r →
  ∃ o' s', k (o', s') = Some r ∧ skipped f s s'.
Proof.
  revert o s. induction n as [|n IH]; intros o s; simpl.
  - intros H. exists o, s. split; [done|constructor].
  - unfold alt, seq, eps. rewrite (surjective_pairing (o, s)). simpl.
    destruct s as [|c s].
    + unfold chr. simpl. intros H. exists o, "". split; [done|constructor].
    + rewrite chr_cons. destruct (f c) eqn:Ef.
      * destruct (star_n n (chr f) k (Some c, s)) as [r'|] eqn:E.
        -- intros [= <-]. apply IH in E as (o' & s' & Hk & Hs).
           exists o', s'. split; [done|]. by constructor.
        -- intros H. exists o, (String c s). split; [done|constructor].
      * intros H. exists o, (String c s). split; [done|constructor].
Qed.

Lemma skipped_lstrip s c s0 :
  skipped isspace s (String c s0) → isspace c = false →
  lstrip s = String c s0.
Proof.
  intros Hs Hc. remember (String c s0) as s' eqn:Es'.
  induction Hs as [s|c' s s' Hc' Hs IH]; subst.
  - simpl. by rewrite Hc.
  - simpl. rewrite Hc'. by apply IH.
Qed.

Lemma numbering_char c :
  isupper_AZ c || isdigit c = true → isspace c = false ∧ c ≠ "&"%char.
Proof.
  destruct c as [[] [] [] [] [] [] [] []]; vm_compute; intros H;
    solve [discriminate H | split; [reflexivity|discriminate]].
Qed.

(** A text with a numbering prefix starts, after white space, with a
    capital letter or a digit. *)
Lemma number_pattern_first s g :
  number_pattern_match s = Some g →
  ∃ c s0, lstrip s = String c s0 ∧ isupper_AZ c || isdigit c = true.
Proof.
  unfold number_pattern_match, star. simpl.
  intros (o' & s' & Hk & Hs)%star_n_chr_inv.
  assert (∃ c s0, s' = String c s0 ∧ isupper_AZ c || isdigit c = true)
    as (c & s0 & -> & Hc).
  { revert Hk. unfold capture, alt, seq, digit12, digit. simpl.
    destruct s' as [|c s0]; [done|]. rewrite !chr_cons.
    destruct (isupper_AZ c) eqn:Eu; [intros _; exists c, s0; by rewrite Eu|].
    unfold seq. rewrite chr_cons.
    destruct (isdigit c) eqn:Ed; [intros _; exists c, s0; by rewrite Eu, Ed|].
    done. }
  exists c, s0. split; [|done].
  apply skipped_lstrip; [done|]. by apply numbering_char.
Qed.

Lemma numbered_not_continuation s g :
  number_pattern_match s = Some g → startswith "&" (strip s) = false.
Proof.
  intros (c & s0 & Hl & Hc)%number_pattern_first.
  apply numbering_char in Hc as [Hsp Hne].
  unfold strip. rewrite Hl, rstrip_cons_nonspace by done. simpl.
  by apply bool_decide_eq_false.
Qed.

Lemma append_nil_r s : s +:+ "" = s.
Proof.
  induction s as [|c s IH]; [done|].
  change (String c s +:+ "") with (String c (s +:+ "")). by rewrite IH.
Qed.

Lemma append_assoc s1 s2 s3 : (s1 +:+ s2) +:+ s3 = s1 +:+ (s2 +:+ s3).
Proof.
  induction s1 as [|c s1 IH]; [done|].
  change (String c ((s1 +:+ s2) +:+ s3) = String c (s1 +:+ (s2 +:+ s3))).
  by rewrite IH.
Qed.

Lemma extends_refl it : extends it it.
Proof. repeat split. exists "". by rewrite append_nil_r. Qed.

Lemma extends_absorb it' prev cur :
  extends it' (absorb prev cur) → extends it' prev.
Proof.
  intros (Hl & Hp & r & Ht). repeat split; [done..|].
  exists (" " +:+ item_text cur +:+ r). rewrite Ht. simpl.
  by rewrite !append_assoc.
Qed.

(** The entry the merge loop starts from is kept, possibly extended. *)
Lemma merge_from_keeps_first rest prev :
  ∃ it', it' ∈ merge_from prev rest ∧ extends it' prev.
Proof.
  revert prev. induction rest as [|cur rest IH]; intros prev; simpl.
  - exists prev. split; [by left|apply extends_refl].
  - destruct (mergeable prev cur).
    + destruct (IH (absorb prev cur)) as (it' & Hin & Hext).
      exists it'. split; [done|]. by eapply extends_absorb.
    + exists prev. split; [by left|apply extends_refl].
Qed.

(** An entry that does not start with "&" is kept, possibly extended. *)
Lemma merge_from_keeps rest prev it :
  it ∈ rest → startswith "&" (strip (item_text it)) = false →
  ∃ it', it' ∈ merge_from prev rest ∧ extends it' it.
Proof.
  revert prev. induction rest as [|cur rest IH]; intros prev Hin Hamp.
  - by apply elem_of_nil in Hin.
  - simpl. apply elem_of_cons in Hin as [->|Hin].
    + assert (mergeable prev cur = false) as ->.
      { unfold mergeable. rewrite Hamp. by rewrite andb_false_r. }
      destruct (merge_from_keeps_first rest cur) as (it' & Hin' & Hext).
      exists it'. split; [by right|done].
    + destruct (mergeable prev cur).
      * by apply IH.
      * destruct (IH cur Hin Hamp) as (it' & Hin' & Hext).
        exists it'. split; [by right|done].
Qed.

Lemma merged_keeps l it :
  it ∈ l → startswith "&" (strip (item_text it)) = false →
  ∃ it', it' ∈ merged l ∧ extends it' it.
Proof.
  destruct l as [|first rest]; intros Hin Hamp.
  - by apply elem_of_nil in Hin.
  - simpl. apply elem_of_cons in Hin as [->|Hin].
    + apply merge_from_keeps_first.
    + by apply merge_from_keeps.
Qed.

(** De-duplication keeps an entry for every identifier not seen before. *)
Lemma dedup_from_keeps seen l it :
  it ∈ l → key it ∉ seen →
  ∃ it', it' ∈ dedup_from seen l ∧ it' ∈ l ∧ key it' = key it.
Proof.
  revert seen. induction l as [|a l IH]; intros seen Hin Hseen.
  - by apply elem_of_nil in Hin.
  - simpl. destruct (decide (key a = key it)) as [Heq|Hne].
    + exists a. rewrite decide_False by (by rewrite Heq).
      split; [by left|]. split; [by left|done].
    + apply elem_of_cons in Hin as [->|Hin]; [done|].
      destruct (decide (key a ∈ seen)).
      * destruct (IH seen Hin Hseen) as (it' & H1 & H2 & H3).
        exists it'. split; [done|]. split; [by right|done].
      * destruct (IH (seen ∪ {[key a]}) Hin) as (it' & H1 & H2 & H3).
        { rewrite elem_of_union, elem_of_singleton. intros [?|?]; [done|].
          by apply Hne. }
        exists it'. split; [by right|]. split; [by right|done].
Qed.

Lemma strategy2_item_key stl b it :
  strategy2_item stl b = Some it → key it = (text b, page b).
Proof.
  unfold strategy2_item.
  destruct (match number_pattern_match (text b) with
            | Some g => _ | None => _ end) as [l|]; [|done].
  destruct (truthy _); [|done]. by intros [= <-].
Qed.

(** The classifier on a document that is not graphical. *)
Lemma classify_headings_textual doc blocks t tp :
  blocks ≠ [] →
  is_graphical_doc doc blocks = Ok false →
  extract_title blocks = Ok (t, tp) →
  ∃ o,
    (if decide (1 < length (distinct_desc (size <$> blocks))
                ∧ length (distinct_desc (size <$> blocks)) ≤ 6)
     then strategy1 blocks tp (distinct_desc (size <$> blocks))
     else strategy2 blocks tp (distinct_desc (size <$> blocks))) = Ok o
    ∧ classify_headings doc blocks
      = Ok {| title := clean_text t; outline := merged (dedup_from ∅ o) |}.
Proof.
  intros Hne Hg Ht.
  destruct (strategy_returns blocks tp (distinct_desc (size <$> blocks)))
    as [o Ho].
  exists o. split; [done|].
  destruct blocks as [|b0 bs] eqn:E; [done|]. rewrite <-E in *.
  unfold classify_headings. rewrite E at 1.
  rewrite Hg. cbn. rewrite Ht. cbn. rewrite Ho. cbn. rewrite merge_ok.
  reflexivity.
Qed.

(** In a document that Strategy 2 handles, a candidate with a numbering
    prefix has an entry of its numbering level in the returned outline. *)
Lemma numbered_candidate_in_outline doc blocks t tp bs b g :
  blocks ≠ [] →
  is_graphical_doc doc blocks = Ok false →
  ¬ (1 < length (distinct_desc (size <$> blocks))
     ∧ length (distinct_desc (size <$> blocks)) ≤ 6) →
  extract_title blocks = Ok (t, tp) →
  body_size_of blocks (distinct_desc (size <$> blocks)) = Ok bs →
  b ∈ heading_candidates_of blocks tp bs →
  number_pattern_match (text b) = Some g →
  ∃ r it,
    classify_headings doc blocks = Ok r ∧ it ∈ outline r
    ∧ extends it {| level := fmt_H (Nat.min (count "." g + 1) 3);
                    item_text := text b; item_page := page b |}.
Proof.
  intros Hne Hg Hs2 Ht Hbs Hb Hmatch.
  destruct (classify_headings_textual doc blocks t tp Hne Hg Ht)
    as (o & Ho & Hr).
  rewrite decide_False in Ho by done.
  destruct (strategy2_ok blocks tp (distinct_desc (size <$> blocks)))
    as (bs' & Hbs' & Ho').
  rewrite Hbs in Hbs'. injection Hbs' as <-.
  rewrite Ho in Ho'. injection Ho' as ->.
  set (stl := level_map _) in *.
  set (item := {| level := fmt_H (Nat.min (count "." g + 1) 3);
                  item_text := text b; item_page := page b |}).
  set (o := omap (strategy2_item stl) _) in *.
  assert (item ∈ o) as Hin.
  { apply list_elem_of_omap. exists b. split; [by apply sorted_elem_of|].
    by apply strategy2_item_numbered. }
  destruct (dedup_from_keeps ∅ o item Hin) as (it1 & Hd & Ho1 & Hk);
    [set_solver|].
  assert (it1 = item) as ->.
  { apply list_elem_of_omap in Ho1 as (b' & _ & Hb').
    pose proof (strategy2_item_key _ _ _ Hb') as Hk'.
    rewrite Hk in Hk'. injection Hk' as Htx Hpg.
    rewrite (strategy2_item_numbered stl b' g) in Hb'
      by (by rewrite <-Htx).
    injection Hb' as <-. unfold item. by rewrite Htx, Hpg. }
  destruct (merged_keeps (dedup_from ∅ o) item Hd) as (it' & Hm & Hext).
  { simpl. by eapply numbered_not_continuation. }
  eexists _, it'. split; [exact Hr|]. by split.
Qed.

End NumberedEntry.

(** ** The numbering prefix *)

Section NumberingPrefix.
Import Re.

Lemma capital_spec c : one_of capital_letters c → isupper_AZ c = true.
Proof.
  intros H. apply (bool_decide_eq_true_2 _) in H. revert H.
  destruct c as [[] [] [] [] [] [] [] []]; vm_compute; congruence.
Qed.

Lemma decimal_spec c : one_of decimal_digits c → isdigit c = true.
Proof.
  intros H. apply (bool_decide_eq_true_2 _) in H. revert H.
  destruct c as [[] [] [] [] [] [] [] []]; vm_compute; congruence.
Qed.

(** A digit is no capital letter, and white space is neither a digit nor
    a period. *)
Lemma digit_class c : isdigit c = true → isupper_AZ c = false.
Proof.
  destruct c as [[] [] [] [] [] [] [] []]; vm_compute; congruence.
Qed.

Lemma space_class c :
  isspace c = true → isdigit c = false ∧ is_char "." c = false.
Proof.
  destruct c as [[] [] [] [] [] [] [] []]; vm_compute; intros H;
    solve [discriminate H | by split].
Qed.

Lemma length_append s1 s2 :
  String.length (s1 +:+ s2) = String.length s1 + String.length s2.
Proof.
  induction s1 as [|c s1 IH]; [done|].
  change (S (String.length (s1 +:+ s2)) = S (String.length s1 + String.length s2)).
  by rewrite IH.
Qed.

Lemma substring_prefix g s :
  String.substring 0 (String.length (g +:+ s) - String.length s) (g +:+ s) = g.
Proof.
  rewrite length_append.
  replace (String.length g + String.length s - String.length s)
    with (String.length g) by lia.
  induction g as [|c g IH]; simpl.
  - by destruct s.
  - change (String c g +:+ s) with (String c (g +:+ s)). by rewrite IH.
Qed.

Context {R : Type}.
Implicit Types (k : pos → option R) (o : option ascii).

(** A greedy run over a class takes the characters of the class and
    stops at the first other one. *)
Lemma star_n_class n f k o ws s r :
  Forall (fun x => f x = true) (list_ascii_of_string ws) →
  (∀ k' o', chr f k' (o', s) = None) →
  String.length ws ≤ n →
  (∀ o', k (o', s) = Some r) →
  star_n n (chr f) k (o, ws +:+ s) = Some r.
Proof.
  intros Hws Hstop. revert n o. induction ws as [|x ws IH]; intros n o Hn Hk.
  - change ("" +:+ s) with s. destruct n as [|n]; simpl; [apply Hk|].
    unfold alt, seq. rewrite Hstop. apply Hk.
  - destruct n as [|n]; [simpl in Hn; lia|].
    change (String x ws +:+ s) with (String x (ws +:+ s)).
    apply Forall_cons in Hws as [Hx Hws].
    simpl. unfold alt, seq. rewrite chr_cons, Hx.
    rewrite IH; [done|done| |done]. simpl in Hn. lia.
Qed.

(** [\d{1,2}] takes a group of one or two digits that no digit follows. *)
Lemma digit12_group k o d s r :
  digit_group 2 d →
  (∀ k' o', chr isdigit k' (o', s) = None) →
  (∀ o', k (o', s) = Some r) →
  digit12 k (o, d +:+ s) = Some r.
Proof.
  intros (Hne & Hlen & Hd) Hstop Hk.
  destruct d as [|d1 [|d2 [|d3 d]]]; [done| | |simpl in Hlen; lia].
  - apply Forall_cons in Hd as [H1%decimal_spec _].
    change (String d1 "" +:+ s) with (String d1 s).
    unfold digit12, seq, digit, opt, alt, eps.
    rewrite chr_cons, H1, Hstop. apply Hk.
  - apply Forall_cons in Hd as [H1%decimal_spec Hd].
    apply Forall_cons in Hd as [H2%decimal_spec _].
    change (String d1 (String d2 "") +:+ s) with (String d1 (String d2 s)).
    unfold digit12, seq, digit, opt, alt, eps.
    rewrite !chr_cons, H1, H2. by rewrite Hk.
Qed.

(** The groups after the first, each behind its period, before [s]. *)
Lemma join_groups g gs s :
  join "." (g :: gs) +:+ s
  = g +:+ foldr (fun g' acc => String "." (g' +:+ acc)) s gs.
Proof.
  revert g. induction gs as [|g' gs IH]; intros g; [done|].
  change (join "." (g :: g' :: gs)) with (g +:+ "." +:+ join "." (g' :: gs)).
  rewrite !append_assoc. rewrite IH. done.
Qed.

Lemma groups_length gs s :
  length gs ≤ String.length (foldr (fun g' acc => String "." (g' +:+ acc)) s gs).
Proof.
  induction gs as [|g gs IH]; simpl; [lia|].
  rewrite length_append. lia.
Qed.

(** [(\.\d{1,2})*] takes the groups of one or two digits and stops where
    no period with a digit follows. *)
Lemma star_n_groups n k o gs s r :
  Forall (digit_group 2) gs →
  (∀ k' o', seq (chr (is_char ".")) digit12 k' (o', s) = None) →
  (∀ k' o', chr isdigit k' (o', s) = None) →
  length gs ≤ n →
  (∀ o', k (o', s) = Some r) →
  star_n n (seq (chr (is_char ".")) digit12) k
         (o, foldr (fun g' acc => String "." (g' +:+ acc)) s gs)
  = Some r.
Proof.
  intros Hgs Hstop Hnd. revert n o.
  induction gs as [|g gs IH]; intros n o Hn Hk.
  - simpl foldr. destruct n as [|n]; simpl; [apply Hk|].
    unfold alt at 1. unfold seq at 1. rewrite Hstop. apply Hk.
  - destruct n as [|n]; [simpl in Hn; lia|].
    apply Forall_cons in Hgs as [Hg Hgs].
    simpl foldr. simpl star_n. unfold alt at 1. unfold seq at 1 2.
    rewrite chr_cons. change (is_char "." ".") with true. cbv iota.
    rewrite (digit12_group _ _ g _ r); [done|done| |].
    + intros k' o'. destruct gs as [|g' gs]; [apply Hnd|done].
    + intros o'. apply IH; [done| |done]. simpl in Hn. lia.
Qed.

End NumberingPrefix.

Section NumberingMatch.
Import Re.

(** After the numbering: an optional period and white space. *)
Lemma numbering_tail (g : string) o period c rest :
  period = "" ∨ period = "." → isspace c = true →
  seq (opt (chr (is_char "."))) space1 (fun _ => Some g)
      (o, period +:+ String c rest)
  = Some g.
Proof.
  intros Hp Hc. destruct (space_class c Hc) as [_ Hdot].
  assert (∀ o', space1 (fun _ => Some g) (o', String c rest) = Some g)
    as Hspace.
  { intros o'. unfold space1, plus, seq. rewrite chr_cons, Hc.
    unfold star. apply star_n_chr_const. }
  destruct Hp as [->| ->].
  - change ("" +:+ String c rest) with (String c rest).
    unfold seq, opt, alt, eps. rewrite chr_cons, Hdot. apply Hspace.
  - change ("." +:+ String c rest) with (String "." (String c rest)).
    unfold seq, opt, alt, eps. rewrite chr_cons.
    change (is_char "." ".") with true. cbv iota. by rewrite Hspace.
Qed.

(** Where the numbering ends, no group of digits goes on. *)
Lemma numbering_stops {R} (k : pos → option R) o period c rest :
  period = "" ∨ period = "." → isspace c = true →
  seq (chr (is_char ".")) digit12 k (o, period +:+ String c rest) = None
  ∧ chr isdigit k (o, period +:+ String c rest) = None.
Proof.
  intros Hp Hc. destruct (space_class c Hc) as [Hd Hdot].
  destruct Hp as [->| ->].
  - change ("" +:+ String c rest) with (String c rest).
    unfold seq. by rewrite !chr_cons, Hdot, Hd.
  - change ("." +:+ String c rest) with (String "." (String c rest)).
    unfold seq, digit12, seq, digit. rewrite !chr_cons.
    change (is_char "." ".") with true. change (isdigit ".") with false.
    cbv iota. by rewrite Hd.
Qed.

(** The code's pattern recognises every numbering prefix whose groups
    have one or two digits, and its group 1 is the numbering. *)
Lemma numbering_prefix_matches t g :
  numbering_prefix 2 t g → number_pattern_match t = Some g.
Proof.
  intros (Hg & ws & period & c & rest & Hws & Hp & Hc & ->).
  set (s := period +:+ String c rest).
  unfold number_pattern_match, star.
  apply star_n_class; [done| | |].
  - (* the numbering starts with no white space *)
    intros k' o'. destruct Hg as [x Hx|g1 gs Hgs].
    + change (String x "" +:+ s) with (String x s). rewrite chr_cons.
      apply capital_spec in Hx.
      destruct (numbering_char x) as [-> _]; [by rewrite Hx|done].
    + rewrite join_groups. apply Forall_cons in Hgs as [(Hne & _ & Hd) _].
      destruct g1 as [|d1 g1]; [done|].
      apply Forall_cons in Hd as [H1%decimal_spec _].
      change (String d1 g1 +:+ ?x) with (String d1 (g1 +:+ x)).
      rewrite chr_cons.
      destruct (numbering_char d1) as [-> _]; [|done].
      rewrite H1. apply orb_true_r.
  - simpl. rewrite length_append. lia.
  - intros o'. unfold capture. simpl fst. simpl snd.
    set (K := fun p' : pos => _).
    assert (∀ o'', K (o'', s) = Some g) as HK.
    { intros o''. unfold K. simpl snd. rewrite substring_prefix.
      by apply numbering_tail. }
    clearbody K. destruct Hg as [x Hx|g1 gs Hgs].
    + change (String x "" +:+ s) with (String x s).
      unfold alt. rewrite chr_cons, (capital_spec x Hx). by rewrite HK.
    + rewrite join_groups. apply Forall_cons in Hgs as [Hg1 Hgs].
      assert (∃ d1 g1', g1 = String d1 g1' ∧ isdigit d1 = true)
        as (d1 & g1' & Hg1' & Hd1).
      { destruct Hg1 as (Hne & _ & Hd). destruct g1 as [|d1 g1']; [done|].
        apply Forall_cons in Hd as [H1%decimal_spec _]. by eauto. }
      unfold alt at 1.
      assert (chr isupper_AZ K
                (o', g1 +:+ foldr (fun g' acc => String "." (g' +:+ acc))
                                  s gs) = None) as ->.
      { rewrite Hg1'.
        change (String d1 g1' +:+ ?x) with (String d1 (g1' +:+ x)).
        by rewrite chr_cons, (digit_class d1 Hd1). }
      unfold seq at 1.
      apply digit12_group; [done| |].
      * intros k' o''. destruct gs as [|g' gs]; [|done].
        apply (numbering_stops k' o'' period c rest Hp Hc).
      * intros o''. unfold star. simpl snd.
        apply star_n_groups; [done| | | |done].
        -- intros k' o3. apply (numbering_stops k' o3 period c rest Hp Hc).
        -- intros k' o3. apply (numbering_stops k' o3 period c rest Hp Hc).
        -- apply groups_length.
Qed.

End NumberingMatch.

(** * The claims of the specification *)

(** C1, amended.  The one-page document of the end-to-end example is
    classified graphical (one page, three blocks, none over 15 words): the
    classifier returns an empty title and the single entry
    [H1 "Annual Report"].  The same blocks in a document of two pages run
    Strategy 1: the title is "Annual Report", the sizes 24 and 12 have the
    levels H1 and H2, and the outline is [H2 "1. Introduction"],
    [H2 "2. Methods"], without numbering override. *)
Theorem annual_report_outline (f1 f2 f3 : string)
    (bb1 bb2 bb3 : Qc * Qc * Qc * Qc) (d2 d3 : option (float * float)) :
  classify_headings 1 (annual_report f1 f2 f3 bb1 bb2 bb3 d2 d3)
  = Ok {| title := "";
          outline := [ {| level := "H1"; item_text := "Annual Report";
                          item_page := 0 |} ] |}
  ∧ classify_headings 2 (annual_report f1 f2 f3 bb1 bb2 bb3 d2 d3)
    = Ok {| title := "Annual Report";
            outline := [ {| level := "H2"; item_text := "1. Introduction";
                            item_page := 0 |};
                         {| level := "H2"; item_text := "2. Methods";
                            item_page := 0 |} ] |}.
Proof. split; vm_compute; reflexivity. Qed.

(** C1, as stated, fails: on the one-page document the classifier does not
    return the title "Annual Report" with two H1 entries. *)
Lemma annual_report_not_strategy_1 :
  classify_headings 1
    (annual_report "Serif" "Serif" "Serif"
       (Qc_of_Z 0, Qc_of_Z 0, Qc_of_Z 200, Qc_of_Z 24)
       (Qc_of_Z 0, Qc_of_Z 40, Qc_of_Z 200, Qc_of_Z 52)
       (Qc_of_Z 0, Qc_of_Z 60, Qc_of_Z 200, Qc_of_Z 72)
       (Some (1, 0)%float) (Some (1, 0)%float))
  ≠ Ok {| title := "Annual Report";
          outline := [ {| level := "H1"; item_text := "1. Introduction";
                          item_page := 0 |};
                       {| level := "H1"; item_text := "2. Methods";
                          item_page := 0 |} ] |}.
Proof. vm_compute. discriminate. Qed.

(** C2, amended.  The outline merger returns on every list of candidates;
    when no candidate text is blank and the merged outline has no two
    entries with the same text and page, merging the merged outline again
    returns it unchanged. *)
Theorem merge_idempotent_when_distinct (x : list OutlineItem) :
  (∀ it, it ∈ x → ¬ blank (item_text it)) →
  (∀ y, merge x = Ok y → NoDup (key <$> y)) →
  ∃ y, merge x = Ok y ∧ merge y = Ok y.
Proof.
  intros Hnb Hnd. specialize (Hnd _ (merge_ok x)).
  exists (merged (dedup_from ∅ x)). split; [apply merge_ok|].
  rewrite merge_ok.
  rewrite (dedup_from_NoDup ∅) by (done || set_solver). f_equal.
  destruct (dedup_from ∅ x) as [|first rest] eqn:E; [done|]. simpl.
  destruct (merge_from_settled first rest) as (p' & r' & -> & Hs & _).
  { intros it Hit. apply Hnb. apply (dedup_from_elem ∅). by rewrite E. }
  simpl. by apply merge_from_settled_id.
Qed.

Lemma merge_idempotent_when_distinct_witness :
  ∃ y, merge [ {| level := "H1"; item_text := "Research"; item_page := 2 |};
               {| level := "H1"; item_text := "& Development"; item_page := 2 |};
               {| level := "H2"; item_text := "Research"; item_page := 2 |};
               {| level := "H2"; item_text := "Budget"; item_page := 3 |} ]
       = Ok y
       ∧ merge y = Ok y.
Proof.
  apply merge_idempotent_when_distinct.
  - intros it Hit. rewrite !elem_of_cons in Hit.
    destruct Hit as [->|[->|[->|[->|Hit]]]]; [by vm_compute..|].
    by apply elem_of_nil in Hit.
  - intros y Hy. vm_compute in Hy. injection Hy as <-.
    apply (bool_decide_eq_true_1 _). vm_compute. reflexivity.
Defined.

(** C2, as stated, fails: merging "A" with its continuation "& B" produces
    a second entry "A & B" on the same page, which a second run of the
    merger removes as a duplicate. *)
Lemma merge_not_idempotent :
  let x := [ {| level := "H1"; item_text := "A"; item_page := 0 |};
             {| level := "H1"; item_text := "& B"; item_page := 0 |};
             {| level := "H1"; item_text := "A & B"; item_page := 0 |} ] in
  merge x = Ok [ {| level := "H1"; item_text := "A & B"; item_page := 0 |};
                 {| level := "H1"; item_text := "A & B"; item_page := 0 |} ]
  ∧ (merge x ≫= merge)
    = Ok [ {| level := "H1"; item_text := "A & B"; item_page := 0 |} ]
  ∧ (merge x ≫= merge) ≠ merge x.
Proof. vm_compute. repeat split. discriminate. Qed.

(** C3, amended.  For a block list that is not empty, the document is
    classified graphical if and only if it has one page, fewer than 40
    blocks, and no block of more than 15 words or a fraction of such blocks
    below one tenth; when it is, the classifier returns an empty title and
    one entry, of level H1, with the normalized text and the page of a
    block of greatest size. *)
Theorem graphical_iff_sparse_single_page (doc : nat)
    (blocks : list TextBlock) :
  blocks ≠ [] →
  ∃ g, is_graphical_doc doc blocks = Ok g
       ∧ (g = true ↔ graphical_condition doc blocks)
       ∧ (g = true →
          ∃ r, classify_headings doc blocks = Ok r
               ∧ graphical_result blocks r).
Proof.
  intros Hne. destruct (is_graphical_doc_spec doc blocks Hne) as (g & Hg & Hiff).
  exists g. split; [done|]. split; [done|]. intros ->.
  destruct (graphical_outline_spec blocks Hne) as (r & Hr & Hres).
  exists r. split; [|done].
  destruct blocks as [|b0 bs]; [done|].
  unfold classify_headings. by rewrite Hg.
Qed.

Lemma graphical_iff_sparse_single_page_witness :
  ∃ g, is_graphical_doc 1 sample_cover = Ok g
       ∧ (g = true ↔ graphical_condition 1 sample_cover)
       ∧ (g = true →
          ∃ r, classify_headings 1 sample_cover = Ok r
               ∧ graphical_result sample_cover r).
Proof. apply graphical_iff_sparse_single_page. discriminate. Defined.

(** C3, as stated for every input, fails on the empty block list: with
    one page it meets the condition for a graphical document, yet the
    classifier returns the title "Title Not Found" and no entry. *)
Lemma empty_document_not_graphical :
  graphical_condition 1 []
  ∧ classify_headings 1 []
    = Ok {| title := "Title Not Found"; outline := [] |}
  ∧ ¬ graphical_result [] {| title := "Title Not Found"; outline := [] |}.
Proof.
  split; [|split; [done|]].
  - split; [done|]. split; [simpl; lia|]. left. constructor.
  - by intros [Ht _].
Qed.

(** C4.  The noise filter returns the blocks whose text is not marked, in
    input order; a text is marked when an unprotected block with a present
    [dir] and [|dir[0]| < 0.99] carries it, and protected when a first-page
    block of the greatest first-page size carries it.  When nothing is
    marked the input is returned unchanged.  In the watermark scenario (a
    protected page-0 block of size 30 and a rotated size-10 block
    "CONFIDENTIAL" with [dir = (0.5, _)] on pages 0 and 3) both watermark
    blocks are dropped and the protected block is kept. *)
Theorem noise_filter_drops_marked_texts :
  (∀ (blocks : list TextBlock) (doc : nat),
     ∃ out, filter_non_content blocks doc = Ok out
       ∧ (∃ keep : TextBlock → bool,
            (∀ b, keep b = true ↔ ¬ marked blocks (text b))
            ∧ out = List.filter keep blocks)
       ∧ ((∀ t, ¬ marked blocks t) → out = blocks))
  ∧ (∀ (doc : nat) (t f1 f2 f3 : string) bb1 bb2 bb3 (s : float),
       t ≠ "CONFIDENTIAL" →
       let title_block :=
         {| text := t; size := 30; font := f1; bbox := bb1; page := 0;
            dir := Some (1, 0)%float |} in
       let mark0 :=
         {| text := "CONFIDENTIAL"; size := 10; font := f2; bbox := bb2;
            page := 0; dir := Some (0.5, s)%float |} in
       let mark3 :=
         {| text := "CONFIDENTIAL"; size := 10; font := f3; bbox := bb3;
            page := 3; dir := Some (0.5, s)%float |} in
       filter_non_content [title_block; mark0; mark3] doc = Ok [title_block]).
Proof.
  split.
  - intros blocks doc.
    destruct (filter_non_content_ok blocks doc) as (out & rem & Hout & Hrem & ->).
    exists (filter (fun b => text b ∉ rem) blocks). split; [done|]. split.
    + exists (fun b => bool_decide (text b ∉ rem)). split.
      * intros b. by rewrite bool_decide_eq_true, Hrem.
      * apply filter_bool_decide.
    + intros Hnone. apply filter_none_removed. intros b _.
      rewrite Hrem. apply Hnone.
  - intros doc t f1 f2 f3 bb1 bb2 bb3 s Ht title_block mark0 mark3.
    set (blocks := [title_block; mark0; mark3]).
    destruct (filter_non_content_ok blocks doc) as (out & rem & Hout & Hrem & ->).
    rewrite Hout. f_equal.
    assert (protected blocks t) as Hprot.
    { exists title_block. split; [by left|]. repeat split.
      intros b' Hb' Hp'. unfold blocks in Hb'.
      rewrite !elem_of_cons in Hb'.
      destruct Hb' as [->|[->|[->|Hb']]];
        [cbn; lia..|by apply elem_of_nil in Hb']. }
    assert (¬ protected blocks "CONFIDENTIAL") as Hnp.
    { intros (b & Hb & Hp & Htx & Hmax). unfold blocks in Hb.
      rewrite !elem_of_cons in Hb.
      destruct Hb as [->|[->|[->|Hb]]].
      - exact (Ht Htx).
      - assert (30 ≤ 10)%Z; [|lia].
        apply (Hmax title_block); [by left|reflexivity].
      - discriminate Hp.
      - by apply elem_of_nil in Hb. }
    assert (t ∉ rem) as Hkeep.
    { rewrite Hrem. by intros (b & _ & _ & Hn & _). }
    assert ("CONFIDENTIAL" ∈ rem) as Hdrop.
    { rewrite Hrem. exists mark0. split; [right; left|].
      repeat split; [done|]. by exists (0.5, s)%float. }
    unfold blocks.
    rewrite filter_cons_True by done.
    rewrite filter_cons_False by (simpl; by intros []).
    by rewrite filter_cons_False by (simpl; by intros []).
Qed.

Lemma noise_filter_drops_marked_texts_witness :
  filter_non_content
    [ {| text := "Quarterly Review"; size := 30; font := "Serif";
         bbox := (Qc_of_Z 72, Qc_of_Z 90, Qc_of_Z 500, Qc_of_Z 130);
         page := 0; dir := Some (1, 0)%float |};
      {| text := "CONFIDENTIAL"; size := 10; font := "Sans";
         bbox := (Qc_of_Z 100, Qc_of_Z 300, Qc_of_Z 400, Qc_of_Z 600);
         page := 0; dir := Some (0.5, 0.875)%float |};
      {| text := "CONFIDENTIAL"; size := 10; font := "Sans";
         bbox := (Qc_of_Z 100, Qc_of_Z 300, Qc_of_Z 400, Qc_of_Z 600);
         page := 3; dir := Some (0.5, 0.875)%float |} ] 4
  = Ok [ {| text := "Quarterly Review"; size := 30; font := "Serif";
            bbox := (Qc_of_Z 72, Qc_of_Z 90, Qc_of_Z 500, Qc_of_Z 130);
            page := 0; dir := Some (1, 0)%float |} ].
Proof.
  apply (proj2 noise_filter_drops_marked_texts 4 "Quarterly Review").
  discriminate.
Defined.

(** C5, amended.  In a run of Strategy 2 every candidate whose text
    starts, after optional white space, with a numbering prefix, that is
    one capital letter from A to Z, or groups of one or two digits joined
    by periods, then an optional period and white space, is emitted with
    level [H<min(dots + 1, 3)>], where [dots] counts the periods inside
    the numbering, whatever its size: a text starting with "2.1 " gets
    "H2" and one starting with "2.1.4.9 " gets "H3".  The outline the
    classifier returns for such a document has an entry of that level and
    page whose text starts with the text of the candidate. *)
Theorem numbering_overrides_size_level :
  (∀ (blocks : list TextBlock) (title_parts : list string)
     (unique_sizes : list Z),
     ∃ body_size outline,
       body_size_of blocks unique_sizes = Ok body_size
       ∧ strategy2 blocks title_parts unique_sizes = Ok outline
       ∧ let candidates :=
           heading_candidates_of blocks title_parts body_size in
         let size_to_level :=
           level_map (distinct_desc (size <$> candidates)) in
         outline = omap (strategy2_item size_to_level)
                        (sorted page_top_lt candidates)
         ∧ (∀ b g, numbering_prefix 2 (text b) g →
              strategy2_item size_to_level b
              = Some {| level := fmt_H (Nat.min (count "." g + 1) 3);
                        item_text := text b; item_page := page b |})
         ∧ (∀ b g, b ∈ candidates →
              numbering_prefix 2 (text b) g →
              {| level := fmt_H (Nat.min (count "." g + 1) 3);
                 item_text := text b; item_page := page b |} ∈ outline)
         ∧ (∀ b rest, text b = "2.1 " +:+ rest →
              strategy2_item size_to_level b
              = Some {| level := "H2"; item_text := text b;
                        item_page := page b |})
         ∧ (∀ b rest, text b = "2.1.4.9 " +:+ rest →
              strategy2_item size_to_level b
              = Some {| level := "H3"; item_text := text b;
                        item_page := page b |}))
  ∧ (∀ (doc : nat) (blocks : list TextBlock) (t : string)
       (title_parts : list string) (body_size : Z) (b : TextBlock)
       (g : string),
       blocks ≠ [] →
       is_graphical_doc doc blocks = Ok false →
       ¬ (1 < length (distinct_desc (size <$> blocks))
          ∧ length (distinct_desc (size <$> blocks)) ≤ 6) →
       extract_title blocks = Ok (t, title_parts) →
       body_size_of blocks (distinct_desc (size <$> blocks)) = Ok body_size →
       b ∈ heading_candidates_of blocks title_parts body_size →
       numbering_prefix 2 (text b) g →
       ∃ r it,
         classify_headings doc blocks = Ok r ∧ it ∈ outline r
         ∧ extends it {| level := fmt_H (Nat.min (count "." g + 1) 3);
                         item_text := text b; item_page := page b |}).
Proof.
  split.
  - intros blocks title_parts unique_sizes.
    destruct (strategy2_ok blocks title_parts unique_sizes)
      as (bs & Hbs & Hs).
    exists bs. eexists. split; [done|]. split; [exact Hs|].
    intros candidates size_to_level.
    split; [done|]. split; [|split; [|split]].
    + intros b g Hg. by apply strategy2_item_numbered, numbering_prefix_matches.
    + intros b g Hb Hg. apply list_elem_of_omap. exists b. split.
      * by apply sorted_elem_of.
      * by apply strategy2_item_numbered, numbering_prefix_matches.
    + intros b rest Hb.
      rewrite (strategy2_item_numbered _ b "2.1"); [done|].
      rewrite Hb. apply number_prefix_2_1.
    + intros b rest Hb.
      rewrite (strategy2_item_numbered _ b "2.1.4.9"); [done|].
      rewrite Hb. apply number_prefix_2_1_4_9.
  - intros doc blocks t tp bs b g Hne Hgr Hs Ht Hbs Hb Hg.
    apply (numbered_candidate_in_outline doc blocks t tp bs b g); try done.
    by apply numbering_prefix_matches.
Qed.

Lemma numbering_overrides_size_level_witness :
  ∃ r it,
    classify_headings 2 sample_report = Ok r ∧ it ∈ outline r
    ∧ extends it {| level := "H2"; item_text := "3.2 Delta";
                    item_page := 1 |}.
Proof.
  apply (proj2 numbering_overrides_size_level 2 sample_report
           "Report" ["Report"] 10%Z (line_at "3.2 Delta" 14 1 100) "3.2").
  - discriminate.
  - vm_compute. reflexivity.
  - apply (bool_decide_eq_true_1 _). vm_compute. reflexivity.
  - vm_compute. reflexivity.
  - vm_compute. reflexivity.
  - vm_compute. do 3 right. left.
  - split.
    + apply (numbering_groups 2 "3" ["2"]).
      apply (bool_decide_eq_true_1 _). vm_compute. reflexivity.
    + exists "", "", " "%char, "Delta". split; [constructor|].
      split; [by left|]. split; reflexivity.
Defined.

(** C5, as stated, fails for a dotted numeric sequence with a group of
    three digits or more, which the code's pattern does not take as a
    numbering: in a run of Strategy 2 the candidate "100 Zeta" keeps the
    level "H3" of its size, where the numbering would give "H1", and the
    candidate "10.125 Epsilon", whose size has no level, gets no entry,
    where the numbering would give "H2". *)
Lemma wide_number_is_no_numbering :
  let b1 := line_at "100 Zeta" 16 1 70 in
  let b2 := line_at "10.125 Epsilon" 13 1 130 in
  let outline :=
    [ {| level := "H1"; item_text := "Alpha"; item_page := 1 |};
      {| level := "H2"; item_text := "Beta"; item_page := 1 |};
      {| level := "H3"; item_text := "100 Zeta"; item_page := 1 |};
      {| level := "H2"; item_text := "3.2 Delta"; item_page := 1 |} ] in
  numbering_prefix 3 (text b1) "100"
  ∧ numbering_prefix 3 (text b2) "10.125"
  ∧ extract_title sample_ledger = Ok ("Ledger", ["Ledger"])
  ∧ body_size_of sample_ledger (distinct_desc (size <$> sample_ledger))
    = Ok 10%Z
  ∧ b1 ∈ heading_candidates_of sample_ledger ["Ledger"] 10
  ∧ b2 ∈ heading_candidates_of sample_ledger ["Ledger"] 10
  ∧ strategy2 sample_ledger ["Ledger"]
              (distinct_desc (size <$> sample_ledger)) = Ok outline
  ∧ classify_headings 2 sample_ledger
    = Ok {| title := "Ledger"; outline := outline |}
  ∧ count "." "100" = 0 ∧ count "." "10.125" = 1.
Proof.
  intros b1 b2 outline. split_and!.
  - split.
    + apply (numbering_groups 3 "100" []).
      apply (bool_decide_eq_true_1 _). vm_compute. reflexivity.
    + exists "", "", " "%char, "Zeta". split; [constructor|].
      split; [by left|]. split; reflexivity.
  - split.
    + apply (numbering_groups 3 "10" ["125"]).
      apply (bool_decide_eq_true_1 _). vm_compute. reflexivity.
    + exists "", "", " "%char, "Epsilon". split; [constructor|].
      split; [by left|]. split; reflexivity.
  - vm_compute. reflexivity.
  - vm_compute. reflexivity.
  - vm_compute. do 2 right. left.
  - vm_compute. do 4 right. left.
  - vm_compute. reflexivity.
  - vm_compute. reflexivity.
  - reflexivity.
  - reflexivity.
Qed.

(** C6.  In a run of Strategy 1, and among the entries of a run of
    Strategy 2 whose level was not set by the numbering pattern, an entry
    from a block of strictly greater size has a heading level number less
    than or equal to that of an entry from a block of smaller size. *)
Theorem size_rank_controls_level :
  (∀ (blocks : list TextBlock) (title_parts : list string),
     let unique_sizes := distinct_desc (size <$> blocks) in
     let size_to_level := level_map unique_sizes in
     strategy1 blocks title_parts unique_sizes
     = Ok (omap (emitted1 title_parts size_to_level) blocks)
     ∧ ∀ b1 b2 i1 i2,
         emitted1 title_parts size_to_level b1 = Some i1 →
         emitted1 title_parts size_to_level b2 = Some i2 →
         (size b2 < size b1)%Z →
         ∃ n1 n2, level_number (level i1) n1 ∧ level_number (level i2) n2
                  ∧ n1 ≤ n2)
  ∧ (∀ (blocks : list TextBlock) (title_parts : list string)
       (unique_sizes : list Z),
       ∃ body_size,
         body_size_of blocks unique_sizes = Ok body_size
         ∧ let candidates :=
             heading_candidates_of blocks title_parts body_size in
           let size_to_level :=
             level_map (distinct_desc (size <$> candidates)) in
           strategy2 blocks title_parts unique_sizes
           = Ok (omap (strategy2_item size_to_level)
                      (sorted page_top_lt candidates))
           ∧ ∀ b1 b2 i1 i2,
               number_pattern_match (text b1) = None →
               number_pattern_match (text b2) = None →
               strategy2_item size_to_level b1 = Some i1 →
               strategy2_item size_to_level b2 = Some i2 →
               (size b2 < size b1)%Z →
               ∃ n1 n2, level_number (level i1) n1
                        ∧ level_number (level i2) n2 ∧ n1 ≤ n2).
Proof.
  split.
  - intros blocks tp us stl. split; [apply strategy1_ok|].
    intros b1 b2 i1 i2 H1 H2 Hlt.
    apply emitted1_level in H1. apply emitted1_level in H2.
    destruct (level_map_monotone _ _ _ _ _ H1 H2 Hlt)
      as (n1 & n2 & Hn1 & Hn2 & Hn).
    exists n1, n2. repeat split; [done..|lia].
  - intros blocks tp us.
    destruct (strategy2_ok blocks tp us) as (bs & Hbs & Hs).
    exists bs. split; [done|]. intros candidates stl. split; [exact Hs|].
    intros b1 b2 i1 i2 Hp1 Hp2 H1 H2 Hlt.
    rewrite strategy2_item_plain in H1 by done.
    rewrite strategy2_item_plain in H2 by done.
    destruct (stl !! size b1) as [l1|] eqn:E1; [|done].
    destruct (stl !! size b2) as [l2|] eqn:E2; [|done].
    destruct (is_empty l1); [done|]. destruct (is_empty l2); [done|].
    injection H1 as <-. injection H2 as <-. simpl.
    destruct (level_map_monotone _ _ _ _ _ E1 E2 Hlt)
      as (n1 & n2 & Hn1 & Hn2 & Hn).
    exists n1, n2. repeat split; [done..|lia].
Qed.

Lemma size_rank_controls_level_witness :
  ∃ n1 n2, level_number "H2" n1 ∧ level_number "H3" n2 ∧ n1 ≤ n2.
Proof.
  apply (proj2 (proj1 size_rank_controls_level sample_report ["Report"])
           (line_at "Alpha" 24 1 10) (line_at "Beta" 20 1 40)
           {| level := "H2"; item_text := "Alpha"; item_page := 1 |}
           {| level := "H3"; item_text := "Beta"; item_page := 1 |});
    vm_compute; reflexivity.
Defined.

(** C7, amended.  For a block list with a first-page block, the title step
    returns the texts of the first-page blocks of greatest first-page size,
    ordered by ascending [bbox.y0] with blocks of equal [bbox.y0] in input
    order, joined by single spaces; any permutation of the input gives the
    same title when these blocks have pairwise distinct [bbox.y0].  The
    classifier returns this title, normalized, for every document it does
    not classify as graphical. *)
Theorem title_in_ascending_top_order (blocks : list TextBlock) :
  (∃ b, b ∈ blocks ∧ page b = 0%Z) →
  ∃ title_blocks,
    extract_title blocks
    = Ok (join " " (text <$> title_blocks), text <$> title_blocks)
    ∧ title_blocks ≡ₚ title_blocks_of blocks
    ∧ StronglySorted (fun a b => (bbox1 a ≤ bbox1 b)%Qc) title_blocks
    ∧ (∀ y, filter (fun b => bbox1 b = y) title_blocks
            = filter (fun b => bbox1 b = y) (title_blocks_of blocks))
    ∧ (∀ blocks', blocks ≡ₚ blocks' →
         NoDup (bbox1 <$> title_blocks_of blocks) →
         extract_title blocks' = extract_title blocks)
    ∧ (∀ doc, is_graphical_doc doc blocks = Ok false →
         ∃ o, classify_headings doc blocks
              = Ok {| title := clean_text (join " " (text <$> title_blocks));
                      outline := o |}).
Proof.
  intros Hfirst. exists (sorted top_lt (title_blocks_of blocks)).
  split; [by apply extract_title_first_page|].
  split; [apply sorted_Permutation|].
  split; [apply sorted_top_ascending|].
  split; [intros y; apply sorted_top_stable|].
  split.
  - intros blocks' Hperm Hnd.
    rewrite !extract_title_first_page; [|done|].
    + by rewrite (sorted_top_unique (title_blocks_of blocks)
                    (title_blocks_of blocks'))
        by (done || by apply title_blocks_Permutation).
    + destruct Hfirst as (b & Hb & Hp). exists b. by rewrite <-Hperm.
  - intros doc Hg.
    assert (blocks ≠ []) as Hne.
    { destruct Hfirst as (b & Hb & _). intros ->.
      by apply elem_of_nil in Hb. }
    destruct (classify_headings_textual doc blocks _ _ Hne Hg
                (extract_title_first_page blocks Hfirst)) as (o & _ & Hr).
    eexists. exact Hr.
Qed.

Lemma title_in_ascending_top_order_witness :
  extract_title (reverse sample_cover) = extract_title sample_cover
  ∧ ∃ o, classify_headings 2 sample_cover
         = Ok {| title := "Annual Report"; outline := o |}.
Proof.
  destruct (title_in_ascending_top_order sample_cover)
    as (tb & Htb & _ & _ & _ & Hperm & Hcls).
  { exists (line_at "Report" 24 0 60). split; [left|reflexivity]. }
  split.
  - apply Hperm.
    + symmetry. apply reverse_Permutation.
    + apply (bool_decide_eq_true_1 _). vm_compute. reflexivity.
  - destruct (Hcls 2) as [o Ho]; [vm_compute; reflexivity|].
    assert (extract_title sample_cover
            = Ok ("Annual Report", ["Annual"; "Report"])) as Hex
      by (vm_compute; reflexivity).
    rewrite Hex in Htb. injection Htb as Htitle _.
    exists o. rewrite Ho, <-Htitle. vm_compute. reflexivity.
Defined.

(** C7, as stated, fails: two title lines with the same [bbox.y0] are
    joined in input order, so a permutation of the input changes the
    title. *)
Lemma title_depends_on_input_order :
  let a := {| text := "Hello"; size := 20; font := "Serif";
              bbox := (Qc_of_Z 0, Qc_of_Z 100, Qc_of_Z 50, Qc_of_Z 120);
              page := 0; dir := None |} in
  let b := {| text := "World"; size := 20; font := "Serif";
              bbox := (Qc_of_Z 60, Qc_of_Z 100, Qc_of_Z 110, Qc_of_Z 120);
              page := 0; dir := None |} in
  [a; b] ≡ₚ [b; a]
  ∧ extract_title [a; b] = Ok ("Hello World", ["Hello"; "World"])
  ∧ extract_title [b; a] = Ok ("World Hello", ["World"; "Hello"])
  ∧ classify_headings 2 [a; b]
    = Ok {| title := "Hello World"; outline := [] |}
  ∧ classify_headings 2 [b; a]
    = Ok {| title := "World Hello"; outline := [] |}.
Proof.
  intros a b. split; [apply Permutation_swap|].
  repeat split; vm_compute; reflexivity.
Qed.

(** C8.  The classifier returns the title "Title Not Found" and an empty
    outline for the empty block list, whatever the page count. *)
Theorem empty_document_title_not_found (doc : nat) :
  classify_headings doc []
  = Ok {| title := "Title Not Found"; outline := [] |}.
Proof. reflexivity. Qed.

(** C9.  The noise filter and the classifier return a value on every
    input, and so does the classifier run on the filter's result: none of
    the operations that can raise ([max] of an empty sequence, indexing, a
    missing dictionary key, division by zero) is reached with an argument
    on which it raises. *)
Theorem classification_core_total (doc : nat) (blocks : list TextBlock) :
  returns (filter_non_content blocks doc)
  ∧ returns (classify_headings doc blocks)
  ∧ returns (filter_non_content blocks doc ≫= classify_headings doc).
Proof.
  destruct (filter_non_content_ok blocks doc) as (out & rem & Hout & _).
  split; [by exists out|]. split; [apply classify_headings_returns|].
  rewrite Hout. apply classify_headings_returns.
Qed.



(** * Further properties of the code *)

(** ** [clean_text] *)

Section CleanText.

Lemma append_cons c s t : String c s +:+ t = String c (s +:+ t).
Proof. reflexivity. Qed.

Lemma lstrip_sub_spaces b s :
  lstrip (sub_spaces_go b s) = sub_spaces_go false (lstrip s).
Proof.
  revert b. induction s as [|c s IH]; intros b; simpl; [done|].
  destruct (isspace c) eqn:E.
  - destruct b; simpl; by rewrite ?IH.
  - simpl. by rewrite E.
Qed.

Lemma rstrip_sub_spaces s :
  rstrip (sub_spaces_go false s) = single_spaced InWord s
  ∧ single_spaced AfterWord s
    = (if is_empty (rstrip (sub_spaces_go true s)) then ""
       else String " " (rstrip (sub_spaces_go true s))).
Proof.
  induction s as [|c s [IH1 IH2]]; [done|]. simpl.
  destruct (isspace c) eqn:E; simpl.
  - split; [|done]. rewrite IH2.
    by destruct (is_empty (rstrip (sub_spaces_go true s))).
  - rewrite E. simpl. by rewrite IH1.
Qed.

Lemma single_spaced_lstrip s :
  single_spaced AtStart s = single_spaced InWord (lstrip s).
Proof.
  induction s as [|c s IH]; simpl; [done|].
  destruct (isspace c) eqn:E; [done|]. simpl. by rewrite E.
Qed.

(** [clean_text] is the one-scan normal form. *)
Lemma clean_text_single_spaced t : clean_text t = single_spaced AtStart t.
Proof.
  unfold clean_text, strip, sub_spaces.
  rewrite lstrip_sub_spaces, single_spaced_lstrip.
  apply rstrip_sub_spaces.
Qed.

Lemma rev_app_append s1 s2 :
  String.rev_app s1 s2 = String.rev_app s1 "" +:+ s2.
Proof.
  revert s2. induction s1 as [|a s1 IH]; intros s2; simpl; [done|].
  rewrite IH, (IH (String a "")). by rewrite append_assoc.
Qed.

Lemma rev_cons c w : String.rev (String c w) = String.rev w +:+ String c "".
Proof. unfold String.rev. simpl. apply rev_app_append. Qed.

Lemma split_go_word_nonempty w s : split_go (Some w) s ≠ [].
Proof.
  revert w. induction s as [|c s IH]; intros w; simpl; [done|].
  destruct (isspace c); [done|apply IH].
Qed.

Lemma join_cons sep p ps :
  join sep (p :: ps)
  = match ps with [] => p | _ :: _ => p +:+ sep +:+ join sep ps end.
Proof. by destruct ps. Qed.

Lemma join_split_single_spaced s :
  (∀ w, join " " (split_go (Some w) s)
        = String.rev w +:+ single_spaced InWord s)
  ∧ join " " (split_go None s) = single_spaced AtStart s
  ∧ single_spaced AfterWord s
    = match split_go None s with
      | [] => ""
      | _ :: _ => " " +:+ join " " (split_go None s)
      end.
Proof.
  induction s as [|c s (IH1 & IH2 & IH3)].
  - split; [|done]. intros w. simpl. by rewrite append_nil_r.
  - cbn [split_go single_spaced]. destruct (isspace c) eqn:E.
    + split; [|done]. intros w. rewrite join_cons, IH3.
      destruct (split_go None s); [by rewrite append_nil_r|done].
    + split; [|split].
      * intros w. rewrite IH1, rev_cons, append_assoc. done.
      * rewrite IH1. done.
      * destruct (split_go (Some (String c "")) s) eqn:Es.
        -- by apply split_go_word_nonempty in Es.
        -- rewrite <-Es, IH1. done.
Qed.

Lemma split_single_spaced s :
  (∀ w, split_go (Some w) (single_spaced InWord s) = split_go (Some w) s)
  ∧ split_go None (single_spaced AtStart s) = split_go None s
  ∧ (∀ w, split_go (Some w) (single_spaced AfterWord s)
          = String.rev w :: split_go None s).
Proof.
  induction s as [|c s (IH1 & IH2 & IH3)]; [done|].
  cbn [single_spaced split_go]. destruct (isspace c) eqn:E.
  - done.
  - cbn [split_go]. rewrite E. split; [|split].
    + intros w. apply IH1.
    + apply IH1.
    + intros w. change (isspace " ") with true. cbn iota.
      cbn [split_go]. rewrite ?E. by rewrite IH1.
Qed.

Lemma single_spaced_twice s :
  single_spaced InWord (single_spaced InWord s) = single_spaced InWord s
  ∧ single_spaced InWord (single_spaced AfterWord s)
    = single_spaced AfterWord s
  ∧ single_spaced AtStart (single_spaced AtStart s)
    = single_spaced AtStart s.
Proof.
  induction s as [|c s (IH1 & IH2 & IH3)]; [done|].
  cbn [single_spaced]. destruct (isspace c) eqn:E.
  - done.
  - cbn [single_spaced]. rewrite E.
    change (isspace " ") with true. cbn iota.
    cbn [single_spaced]. rewrite ?E. by rewrite IH1.
Qed.

End CleanText.

(** X1.  [clean_text(t)] is the words of [t] joined by single spaces,
    [' '.join(t.split())]. *)
Theorem clean_text_joins_words (t : string) :
  clean_text t = join " " (split t).
Proof.
  rewrite clean_text_single_spaced. symmetry.
  apply join_split_single_spaced.
Qed.

(** X2.  [clean_text] is idempotent: a normalized text is left as it
    is. *)
Theorem clean_text_idempotent (t : string) :
  clean_text (clean_text t) = clean_text t.
Proof.
  rewrite !clean_text_single_spaced. apply single_spaced_twice.
Qed.

(** X3.  Normalizing a text does not change its words: [t.split()] is the
    same before and after [clean_text], and so is the word count every
    threshold of the classifier reads. *)
Theorem clean_text_keeps_words (t : string) :
  split (clean_text t) = split t ∧ words (clean_text t) = words t.
Proof.
  assert (split (clean_text t) = split t) as H.
  { rewrite clean_text_single_spaced. apply split_single_spaced. }
  split; [done|]. unfold words. by rewrite H.
Qed.

(** ** More on the noise filter *)

Section NoiseFilterMore.

Lemma protected_decidable blocks t : protected blocks t ∨ ¬ protected blocks t.
Proof.
  destruct (protected_texts_spec blocks) as (prot & _ & Hspec).
  destruct (decide (t ∈ prot)) as [H|H]; [left|right]; by rewrite <-Hspec.
Qed.

(** A block with a protected text is kept, and so is every block that is
    not rotated unless a rotated block shares its text. *)
Lemma protected_not_marked blocks t : protected blocks t → ¬ marked blocks t.
Proof. by intros Hp (b & _ & _ & Hn & _). Qed.

Lemma kept_protected blocks (rem : gset string) t :
  (∀ t, t ∈ rem ↔ marked blocks t) →
  protected blocks t →
  protected (filter (fun b => text b ∉ rem) blocks) t.
Proof.
  intros Hrem (b & Hb & Hp & Ht & Hmax). exists b.
  split; [|split; [done|split; [done|]]].
  - apply list_elem_of_filter. split; [|done].
    rewrite Hrem, Ht. apply protected_not_marked. by exists b.
  - intros b' [_ Hb']%list_elem_of_filter. by apply Hmax.
Qed.

Lemma nothing_marked_after_filter blocks (rem : gset string) t :
  (∀ t, t ∈ rem ↔ marked blocks t) →
  ¬ marked (filter (fun b => text b ∉ rem) blocks) t.
Proof.
  intros Hrem (b & Hb & Ht & Hnp & Hrot).
  apply list_elem_of_filter in Hb as [Hkeep Hb].
  rewrite Hrem, Ht in Hkeep.
  destruct (protected_decidable blocks t) as [Hp|Hp].
  - apply Hnp. by apply kept_protected.
  - apply Hkeep. by exists b.
Qed.

Lemma title_block_protected blocks b :
  b ∈ blocks → is_title_block blocks b → protected blocks (text b).
Proof.
  intros Hb [Hp Hmax]. exists b. repeat split; try done.
  intros b' Hb' Hp'. eapply Forall_forall in Hmax; [|done]. by apply Hmax.
Qed.

Lemma title_blocks_after_filter blocks (rem : gset string) :
  (∀ t, t ∈ rem ↔ marked blocks t) →
  title_blocks_of (filter (fun b => text b ∉ rem) blocks)
  = title_blocks_of blocks.
Proof.
  intros Hrem.
  set (out := filter (fun b => text b ∉ rem) blocks).
  unfold title_blocks_of at 1.
  change (filter (is_title_block out) out)
    with (filter (is_title_block out) (filter (fun b => text b ∉ rem) blocks)).
  rewrite list_filter_filter.
  apply filter_ext_in. intros b Hb.
  assert (∀ b', is_title_block blocks b' → b' ∈ blocks → b' ∈ out) as Hkept.
  { intros b' Ht' Hb'. apply list_elem_of_filter. split; [|done].
    rewrite Hrem. apply protected_not_marked.
    by apply title_block_protected. }
  split.
  - intros [[Hp Hmax] Hkeep]. split; [done|].
    apply Forall_forall. intros b' Hb' Hp'.
    destruct (decide (Exists (is_title_block blocks) blocks)) as [He|Hn].
    + apply Exists_exists in He as (bt & Hbt & Htitle).
      pose proof (Hkept bt Htitle Hbt) as Hout.
      eapply Forall_forall in Hmax; [|exact Hout].
      destruct Htitle as [Hpt Hmt].
      eapply Forall_forall in Hmt; [|exact Hb'].
      specialize (Hmax Hpt). specialize (Hmt Hp'). lia.
    + exfalso. destruct (max_of_returns (size <$> filter (fun b => page b = 0%Z) blocks))
        as [m Hm].
      { intros Hnil. apply fmap_nil_inv in Hnil.
        assert (b' ∈ filter (fun b => page b = 0%Z) blocks) as Hin
          by (by apply list_elem_of_filter).
        rewrite Hnil in Hin. by apply elem_of_nil in Hin. }
      pose proof (title_filter blocks m Hm) as Hf.
      apply max_of_spec in Hm as [Hin _].
      apply list_elem_of_fmap in Hin as (bm & Hsz & Hbm).
      assert (bm ∈ title_blocks_of blocks) as Ht.
      { rewrite <-Hf. apply list_elem_of_filter. by split. }
      apply list_elem_of_filter in Ht as [Ht Hbm'].
      apply Hn, Exists_exists. by exists bm.
  - intros Htitle. split.
    + destruct Htitle as [Hp Hmax]. split; [done|].
      apply Forall_forall. intros b' [_ Hb']%list_elem_of_filter.
      by eapply Forall_forall in Hmax.
    + rewrite Hrem. apply protected_not_marked.
      by apply title_block_protected.
Qed.

End NoiseFilterMore.

(** X4.  The noise filter is idempotent: run on its own result it marks
    nothing and returns that result unchanged. *)
Theorem filter_non_content_idempotent (blocks : list TextBlock)
    (doc doc' : nat) :
  ∃ out, filter_non_content blocks doc = Ok out
         ∧ filter_non_content out doc' = Ok out.
Proof.
  destruct (filter_non_content_ok blocks doc) as (out & rem & Hout & Hrem & ->).
  eexists. split; [exact Hout|].
  destruct (filter_non_content_ok (filter (fun b => text b ∉ rem) blocks) doc')
    as (out2 & rem2 & Hout2 & Hrem2 & ->).
  rewrite Hout2. f_equal. apply filter_none_removed. intros b _.
  rewrite Hrem2. by apply nothing_marked_after_filter.
Qed.

(** X5.  The noise filter never changes the title: the title step gives
    the same title and the same title texts on the filtered blocks as on
    the blocks it was given, because every first-page block of greatest
    first-page size is kept. *)
Theorem filter_non_content_keeps_title (blocks : list TextBlock) (doc : nat) :
  ∃ out, filter_non_content blocks doc = Ok out
         ∧ extract_title out = extract_title blocks
         ∧ ∀ b, b ∈ blocks → is_title_block blocks b → b ∈ out.
Proof.
  destruct (filter_non_content_ok blocks doc) as (out & rem & Hout & Hrem & ->).
  eexists. split; [exact Hout|].
  assert (∀ b, b ∈ blocks → is_title_block blocks b →
               b ∈ filter (fun b => text b ∉ rem) blocks) as Hkept.
  { intros b Hb Ht. apply list_elem_of_filter. split; [|done].
    rewrite Hrem. apply protected_not_marked.
    by apply title_block_protected. }
  split; [|done].
  destruct (decide (Exists (fun b => page b = 0%Z) blocks)) as [He|Hn].
  - apply Exists_exists in He as (b0 & Hb0 & Hp0).
    rewrite (extract_title_first_page blocks) by (by exists b0).
    rewrite extract_title_first_page.
    + by rewrite (title_blocks_after_filter blocks rem Hrem).
    + destruct (max_of_returns
                  (size <$> filter (fun b => page b = 0%Z) blocks))
        as [m Hm].
      { intros Hnil. apply fmap_nil_inv in Hnil.
        assert (b0 ∈ filter (fun b => page b = 0%Z) blocks) as Hin
          by (by apply list_elem_of_filter).
        rewrite Hnil in Hin. by apply elem_of_nil in Hin. }
      pose proof (title_filter blocks m Hm) as Hf.
      apply max_of_spec in Hm as [Hin _].
      apply list_elem_of_fmap in Hin as (bm & Hsz & Hbm).
      assert (bm ∈ title_blocks_of blocks) as Ht.
      { rewrite <-Hf. apply list_elem_of_filter. by split. }
      apply list_elem_of_filter in Ht as [Ht Hbm'].
      exists bm. split; [by apply Hkept|]. by destruct Ht.
  - assert (∀ b, b ∈ blocks → page b ≠ 0%Z) as Hnone.
    { intros b Hb Hp. apply Hn, Exists_exists. by exists b. }
    rewrite !extract_title_no_first_page; [done|done|].
    intros b [_ Hb]%list_elem_of_filter. by apply Hnone.
Qed.

(** ** The returned outline *)

Section Entries.

(** Every entry of the merged list carries the level and page of an entry
    of the list it was merged from. *)
Lemma merge_from_origin prev rest it' :
  it' ∈ merge_from prev rest →
  ∃ it, it ∈ prev :: rest ∧ level it' = level it
        ∧ item_page it' = item_page it.
Proof.
  revert prev. induction rest as [|cur rest IH]; intros prev; simpl.
  - intros ->%list_elem_of_singleton. exists prev. split; [by left|done].
  - destruct (mergeable prev cur).
    + intros (it & Hin & Hl & Hp)%IH.
      apply elem_of_cons in Hin as [->|Hin].
      * exists prev. split; [by left|done].
      * exists it. split; [by do 2 right|done].
    + intros [->|Hin]%elem_of_cons.
      * exists prev. split; [by left|done].
      * apply IH in Hin as (it & Hin & Hl & Hp).
        exists it. split; [by right|done].
Qed.

Lemma merged_origin l it' :
  it' ∈ merged l →
  ∃ it, it ∈ l ∧ level it' = level it ∧ item_page it' = item_page it.
Proof.
  destruct l as [|first rest]; simpl.
  - intros H. by apply elem_of_nil in H.
  - apply merge_from_origin.
Qed.

Lemma level_map_levels sizes s l :
  level_map (distinct_desc sizes) !! s = Some l → l ∈ ["H1"; "H2"; "H3"].
Proof.
  intros (i & Hi & _ & ->)%level_map_lookup; [|apply distinct_desc_NoDup].
  destruct i as [|[|[|i]]]; [| | |lia].
  - left.
  - right. left.
  - do 2 right. left.
Qed.

Lemma numbering_levels n : fmt_H (Nat.min (n + 1) 3) ∈ ["H1"; "H2"; "H3"].
Proof.
  destruct n as [|[|n]].
  - left.
  - right. left.
  - replace (Nat.min (S (S n) + 1) 3) with 3 by lia. do 2 right. left.
Qed.

Lemma emitted1_page tp stl b it :
  emitted1 tp stl b = Some it → item_page it = page b.
Proof.
  unfold emitted1, strategy1_item.
  destruct (_ || _); [done|].
  destruct (heading_text (text b)) as [t'|e]; simpl; [|done].
  destruct (decide _); [|done]. unfold subscript.
  destruct (stl !! size b); simpl; [|done]. by intros [= <-].
Qed.

Lemma strategy2_item_level sizes b it :
  strategy2_item (level_map (distinct_desc sizes)) b = Some it →
  level it ∈ ["H1"; "H2"; "H3"].
Proof.
  destruct (number_pattern_match (text b)) as [g|] eqn:E.
  - rewrite (strategy2_item_numbered _ b g) by done. intros [= <-]. simpl.
    apply numbering_levels.
  - rewrite strategy2_item_plain by done.
    destruct (level_map _ !! size b) as [l|] eqn:El; [|done].
    destruct (is_empty l); [done|]. intros [= <-]. simpl.
    by eapply level_map_levels.
Qed.

(** The entries of whichever strategy runs. *)
Lemma strategy_entries blocks tp o it :
  (if decide (1 < length (distinct_desc (size <$> blocks))
              ∧ length (distinct_desc (size <$> blocks)) ≤ 6)
   then strategy1 blocks tp (distinct_desc (size <$> blocks))
   else strategy2 blocks tp (distinct_desc (size <$> blocks))) = Ok o →
  it ∈ o →
  level it ∈ ["H1"; "H2"; "H3"] ∧ ∃ b, b ∈ blocks ∧ item_page it = page b.
Proof.
  destruct (decide _) as [Hs|Hs].
  - rewrite strategy1_ok. intros [= <-].
    intros (b & Hb & He)%list_elem_of_omap. split.
    + apply emitted1_level in He. by eapply level_map_levels.
    + exists b. split; [done|]. by eapply emitted1_page.
  - destruct (strategy2_ok blocks tp (distinct_desc (size <$> blocks)))
      as (bs & _ & ->).
    intros [= <-]. intros (b & Hb & He)%list_elem_of_omap. split.
    + by eapply strategy2_item_level.
    + exists b. split.
      * apply sorted_elem_of in Hb.
        by apply list_elem_of_filter in Hb as [_ Hb].
      * apply strategy2_item_key in He. by injection He.
Qed.

(** Every entry the classifier returns has one of the three levels and
    the page of a block of the input. *)
Lemma classify_headings_entries doc blocks :
  ∃ r, classify_headings doc blocks = Ok r
       ∧ ∀ it, it ∈ outline r →
           level it ∈ ["H1"; "H2"; "H3"]
           ∧ ∃ b, b ∈ blocks ∧ item_page it = page b.
Proof.
  destruct (decide (blocks = [])) as [->|Hne].
  { eexists. split; [done|]. intros it Hit. by apply elem_of_nil in Hit. }
  destruct (is_graphical_doc_spec doc blocks Hne) as ([] & Hg & _).
  - destruct (graphical_outline_spec blocks Hne)
      as (r & Hr & _ & b & Hb & _ & Ho).
    exists r. split.
    + destruct blocks; [done|]. unfold classify_headings. by rewrite Hg.
    + rewrite Ho. intros it ->%list_elem_of_singleton. simpl.
      split; [left|]. by exists b.
  - destruct (extract_title_returns blocks) as [[t tp] Ht].
    destruct (classify_headings_textual doc blocks t tp Hne Hg Ht)
      as (o & Ho & Hr).
    eexists. split; [exact Hr|]. simpl.
    intros it' (it & Hin & -> & ->)%merged_origin.
    apply dedup_from_elem in Hin. by eapply strategy_entries.
Qed.

End Entries.

(** X6.  Every entry of an outline the classifier returns has the level
    "H1", "H2" or "H3". *)
Theorem outline_levels_are_H1_to_H3 (doc : nat) (blocks : list TextBlock) :
  ∃ r, classify_headings doc blocks = Ok r
       ∧ ∀ it, it ∈ outline r → level it ∈ ["H1"; "H2"; "H3"].
Proof.
  destruct (classify_headings_entries doc blocks) as (r & Hr & H).
  exists r. split; [done|]. intros it Hit. by apply H.
Qed.

(** X7.  Every entry of an outline the classifier returns has the page of
    one of the blocks it was given. *)
Theorem outline_pages_come_from_blocks (doc : nat) (blocks : list TextBlock) :
  ∃ r, classify_headings doc blocks = Ok r
       ∧ ∀ it, it ∈ outline r → ∃ b, b ∈ blocks ∧ item_page it = page b.
Proof.
  destruct (classify_headings_entries doc blocks) as (r & Hr & H).
  exists r. split; [done|]. intros it Hit. by apply H.
Qed.

(** X8.  The title the classifier returns is normalized: [clean_text]
    leaves it as it is, on every path (the empty title of a graphical
    document, "Title Not Found", and the joined first-page texts). *)
Theorem returned_title_is_normalized (doc : nat) (blocks : list TextBlock) :
  ∃ r, classify_headings doc blocks = Ok r ∧ clean_text (title r) = title r.
Proof.
  destruct (decide (blocks = [])) as [->|Hne].
  { eexists. split; [done|]. vm_compute. reflexivity. }
  destruct (is_graphical_doc_spec doc blocks Hne) as ([] & Hg & _).
  - destruct (graphical_outline_spec blocks Hne) as (r & Hr & Ht & _).
    exists r. split.
    + destruct blocks; [done|]. unfold classify_headings. by rewrite Hg.
    + by rewrite Ht.
  - destruct (extract_title_returns blocks) as [[t tp] Ht].
    destruct (classify_headings_textual doc blocks t tp Hne Hg Ht)
      as (o & _ & Hr).
    eexists. split; [exact Hr|]. simpl.
    rewrite !clean_text_single_spaced. apply single_spaced_twice.
Qed.

(** X9.  When no block lies on the first page and the document is not
    graphical, the title is "Title Not Found" and no text is excluded from
    the outline as a title text. *)
Theorem no_first_page_block_no_title (doc : nat) (blocks : list TextBlock) :
  blocks ≠ [] →
  (∀ b, b ∈ blocks → page b ≠ 0%Z) →
  is_graphical_doc doc blocks = Ok false →
  extract_title blocks = Ok ("Title Not Found", [])
  ∧ ∃ o, classify_headings doc blocks
         = Ok {| title := "Title Not Found"; outline := o |}.
Proof.
  intros Hne Hnone Hg.
  pose proof (extract_title_no_first_page blocks Hnone) as Ht.
  split; [done|].
  destruct (classify_headings_textual doc blocks _ _ Hne Hg Ht)
    as (o & _ & Hr).
  eexists. exact Hr.
Qed.

Lemma no_first_page_block_no_title_witness :
  extract_title sample_appendix = Ok ("Title Not Found", [])
  ∧ ∃ o, classify_headings 2 sample_appendix
         = Ok {| title := "Title Not Found"; outline := o |}.
Proof.
  apply no_first_page_block_no_title.
  - discriminate.
  - intros b Hb. unfold sample_appendix in Hb. rewrite !elem_of_cons in Hb.
    destruct Hb as [->|[->|[->|Hb]]]; [discriminate..|].
    by apply elem_of_nil in Hb.
  - vm_compute. reflexivity.
Defined.

(** ** De-duplication and continuation merging *)

Section MergerMore.

Lemma dedup_from_sublist seen l : dedup_from seen l `sublist_of` l.
Proof.
  revert seen. induction l as [|a l IH]; intros seen; simpl; [done|].
  destruct (decide _); [by apply sublist_cons|by apply sublist_skip].
Qed.

Lemma dedup_from_fresh seen l it :
  it ∈ dedup_from seen l → key it ∉ seen.
Proof.
  revert seen. induction l as [|a l IH]; intros seen; simpl.
  - intros H. by apply elem_of_nil in H.
  - destruct (decide _) as [?|Ha]; [apply IH|].
    intros [->|Hin]%elem_of_cons; [done|].
    apply IH in Hin. set_solver.
Qed.

Lemma dedup_from_NoDup_keys seen l : NoDup (key <$> dedup_from seen l).
Proof.
  revert seen. induction l as [|a l IH]; intros seen; simpl; [constructor|].
  destruct (decide _) as [?|Ha]; [apply IH|].
  rewrite fmap_cons. constructor; [|apply IH].
  intros (it & Hk & Hin)%list_elem_of_fmap.
  apply dedup_from_fresh in Hin. rewrite Hk in Hin. set_solver.
Qed.

Lemma merge_from_length prev rest :
  0 < length (merge_from prev rest)
  ∧ length (merge_from prev rest) ≤ S (length rest).
Proof.
  revert prev. induction rest as [|cur rest IH]; intros prev; simpl; [lia|].
  destruct (mergeable prev cur).
  - destruct (IH (absorb prev cur)). lia.
  - destruct (IH cur). simpl. lia.
Qed.

Lemma no_continuation_settled prev rest :
  (∀ it, it ∈ rest → startswith "&" (strip (item_text it)) = false) →
  settled_from prev rest.
Proof.
  revert prev. induction rest as [|cur rest IH]; intros prev H; simpl; [done|].
  split.
  - unfold mergeable. rewrite (H cur) by (by left). by rewrite andb_false_r.
  - apply IH. intros it Hit. apply H. by right.
Qed.

(** The identifiers the de-duplication loop has seen are those of the
    entries it has passed. *)
Lemma dedup_seen l :
  (foldl dedup_body (∅, []) l).1 = list_to_set (key <$> l).
Proof.
  induction l as [|it l IH] using rev_ind; [done|].
  rewrite foldl_snoc, fmap_app, list_to_set_app_L.
  unfold dedup_body at 1. fold (key it).
  change (list_to_set (key <$> [it])) with ({[key it]} ∪ ∅ : gset (string * Z)).
  rewrite union_empty_r_L.
  destruct (decide _) as [Hin|Hin]; simpl; rewrite IH; [|done].
  rewrite IH in Hin. apply set_eq. intros x.
  rewrite elem_of_union, elem_of_singleton. split; [by left|].
  by intros [?| ->].
Qed.

(** The loop appends an entry exactly when no entry before it has its
    text and page. *)
Lemma dedup_outline_snoc l it :
  dedup_outline (l ++ [it])
  = dedup_outline l
    ++ (if decide (key it ∈ key <$> l) then [] else [it]).
Proof.
  unfold dedup_outline. rewrite foldl_snoc.
  unfold dedup_body at 1. fold (key it). rewrite dedup_seen.
  destruct (decide (key it ∈ list_to_set (key <$> l))) as [Hin|Hin],
           (decide (key it ∈ key <$> l)) as [Hin'|Hin']; simpl.
  - by rewrite app_nil_r.
  - by apply elem_of_list_to_set in Hin.
  - destruct Hin. by apply elem_of_list_to_set.
  - done.
Qed.

Lemma dedup_outline_first l : dedup_outline l = first_of_each_pair l.
Proof.
  induction l as [|it l IH] using rev_ind; [done|].
  rewrite dedup_outline_snoc, IH. unfold first_of_each_pair, enumerate.
  rewrite imap_app, filter_app, fmap_app. f_equal.
  - f_equal. apply filter_ext_in.
    intros [i a] (i' & a' & [= -> ->] & Hl)%elem_of_lookup_imap_1. simpl.
    apply lookup_lt_Some in Hl. by rewrite take_app_le by lia.
  - change (imap (fun n => pair (length l + n)) [it])
      with [(length l + 0, it)].
    rewrite Nat.add_0_r, filter_cons, filter_nil. cbn [fst snd].
    rewrite take_app_length.
    destruct (decide (key it ∉ key <$> l)) as [Hn|Hn],
             (decide (key it ∈ key <$> l)) as [Hi|Hi]; done.
Qed.

End MergerMore.

(** X10.  The de-duplication loop keeps, in order, the first entry of
    every (text, page) pair: its result is the list of the entries of its
    input that share text and page with no entry before them.  So it is a
    sublist of its input, no two of its entries have the same text and
    page, and every entry of the input has an entry with its text and
    page in the result. *)
Theorem dedup_keeps_first_of_each_pair (l : list OutlineItem) :
  dedup_outline l = first_of_each_pair l
  ∧ dedup_outline l `sublist_of` l
  ∧ NoDup (key <$> dedup_outline l)
  ∧ ∀ it, it ∈ l → ∃ it', it' ∈ dedup_outline l ∧ key it' = key it.
Proof.
  split; [apply dedup_outline_first|].
  rewrite dedup_outline_from. split; [apply dedup_from_sublist|].
  split; [apply dedup_from_NoDup_keys|].
  intros it Hit.
  destruct (dedup_from_keeps ∅ l it Hit) as (it' & H1 & _ & H2);
    [set_solver|].
  by exists it'.
Qed.

(** X11.  When no candidate text starts with "&" (after white space), the
    merger only de-duplicates: the continuation loop changes nothing. *)
Theorem merge_without_continuation (l : list OutlineItem) :
  (∀ it, it ∈ l → startswith "&" (strip (item_text it)) = false) →
  merge l = Ok (dedup_outline l).
Proof.
  intros Hno. rewrite merge_ok, dedup_outline_from. f_equal.
  destruct (dedup_from ∅ l) as [|first rest] eqn:E; [done|]. simpl.
  apply merge_from_settled_id, no_continuation_settled.
  intros it Hit. apply Hno, (dedup_from_elem ∅). rewrite E. by right.
Qed.

Lemma merge_without_continuation_witness :
  merge [ {| level := "H1"; item_text := "Scope"; item_page := 1 |};
          {| level := "H2"; item_text := "Terms"; item_page := 1 |};
          {| level := "H1"; item_text := "Scope"; item_page := 1 |} ]
  = Ok (dedup_outline
          [ {| level := "H1"; item_text := "Scope"; item_page := 1 |};
            {| level := "H2"; item_text := "Terms"; item_page := 1 |};
            {| level := "H1"; item_text := "Scope"; item_page := 1 |} ]).
Proof.
  apply merge_without_continuation.
  intros it Hit. rewrite !elem_of_cons in Hit.
  destruct Hit as [->|[->|[->|Hit]]]; [by vm_compute..|].
  by apply elem_of_nil in Hit.
Defined.

(** X12.  The merger never lengthens an outline and never empties one:
    its result has at most as many entries as its input, and at least one
    when the input has one. *)
Theorem merge_length_bounds (l : list OutlineItem) :
  ∃ m, merge l = Ok m ∧ length m ≤ length l ∧ (l ≠ [] → m ≠ []).
Proof.
  rewrite merge_ok. eexists. split; [done|].
  pose proof (sublist_length _ _ (dedup_from_sublist ∅ l)) as Hlen.
  destruct l as [|a l]; [done|].
  simpl dedup_from in *. rewrite decide_False in * by set_solver.
  simpl merged. destruct (merge_from_length a (dedup_from (∅ ∪ {[key a]}) l))
    as [Hpos Hle].
  split.
  - simpl in Hlen |- *. lia.
  - intros _ Hnil. rewrite Hnil in Hpos. simpl in Hpos. lia.
Qed.

(** ** The order of the outline *)

Section PageOrder.

Lemma StronglySorted_sublist {A} (R : relation A) l k :
  l `sublist_of` k → StronglySorted R k → StronglySorted R l.
Proof.
  induction 1 as [|x l k Hs IH|x l k Hs IH]; intros Hk.
  - constructor.
  - apply StronglySorted_inv in Hk as [Hk Hx]. constructor; [auto|].
    apply Forall_forall. intros y Hy.
    eapply Forall_forall in Hx; [done|]. by eapply elem_of_sublist.
  - apply StronglySorted_inv in Hk as [Hk _]. auto.
Qed.

Lemma omap_pages_sublist (f : TextBlock → option OutlineItem) l :
  (∀ b it, f b = Some it → item_page it = page b) →
  item_page <$> omap f l `sublist_of` page <$> l.
Proof.
  intros Hf. induction l as [|b l IH]; simpl; [done|].
  destruct (f b) as [it|] eqn:E; simpl.
  - rewrite (Hf b it E). by apply sublist_skip.
  - by apply sublist_cons.
Qed.

Lemma merge_from_pages prev rest :
  item_page <$> merge_from prev rest
  `sublist_of` item_page <$> (prev :: rest).
Proof.
  revert prev. induction rest as [|cur rest IH]; intros prev; [done|].
  simpl merge_from. destruct (mergeable prev cur).
  - etrans; [apply IH|]. rewrite !fmap_cons. simpl.
    by apply sublist_skip, sublist_cons.
  - rewrite (fmap_cons _ prev). apply sublist_skip, IH.
Qed.

Lemma merged_pages l : item_page <$> merged l `sublist_of` item_page <$> l.
Proof. destruct l as [|a l]; [done|]. apply merge_from_pages. Qed.

Lemma cleanup_pages o :
  item_page <$> merged (dedup_from ∅ o) `sublist_of` item_page <$> o.
Proof.
  etrans; [apply merged_pages|]. apply fmap_sublist, dedup_from_sublist.
Qed.

Lemma page_top_lt_asym a b : page_top_lt a b = true → page_top_lt b a = false.
Proof.
  unfold page_top_lt.
  rewrite orb_true_iff, andb_true_iff, orb_false_iff, andb_false_iff,
    !bool_decide_eq_true, !bool_decide_eq_false.
  intros [H|[H1 H2]]; (split; [lia|]).
  - left. lia.
  - right. intros H3. by apply (Qclt_not_le _ _ H2), Qclt_le_weak.
Qed.

Lemma page_top_lt_negtrans a b c :
  page_top_lt b a = false → page_top_lt c b = false →
  page_top_lt c a = false.
Proof.
  unfold page_top_lt.
  rewrite !orb_false_iff, !andb_false_iff, !bool_decide_eq_false.
  intros [H1 H1'] [H2 H2']. split; [lia|].
  destruct (decide (page c = page a)) as [Hca|]; [right|by left].
  destruct H1' as [?|H1']; [lia|]. destruct H2' as [?|H2']; [lia|].
  intros H3. apply Qcnot_lt_le in H1', H2'.
  apply (Qclt_not_le _ _ H3). by apply Qcle_trans with (bbox1 b).
Qed.

(** Sorting by [(page, bbox[1])] puts the pages in ascending order. *)
Lemma sorted_page_top_pages l :
  StronglySorted Z.le (page <$> sorted page_top_lt l).
Proof.
  eapply (StronglySorted_fmap _ (not_after page_top_lt));
    [|apply sorted_sorted;
       [apply page_top_lt_asym|apply page_top_lt_negtrans]].
  intros a b. unfold not_after, page_top_lt.
  rewrite orb_false_iff, bool_decide_eq_false. lia.
Qed.

(** The pages of the entries of whichever strategy runs ascend when
    those of the blocks do; those of Strategy 2 ascend always. *)
Lemma strategy1_pages blocks tp us o :
  strategy1 blocks tp us = Ok o →
  StronglySorted Z.le (page <$> blocks) →
  StronglySorted Z.le (item_page <$> o).
Proof.
  rewrite strategy1_ok. intros [= <-]. apply StronglySorted_sublist.
  apply omap_pages_sublist. intros b it. apply emitted1_page.
Qed.

Lemma strategy2_pages blocks tp us o :
  strategy2 blocks tp us = Ok o → StronglySorted Z.le (item_page <$> o).
Proof.
  destruct (strategy2_ok blocks tp us) as (bs & _ & ->). intros [= <-].
  eapply StronglySorted_sublist; [|apply sorted_page_top_pages].
  apply omap_pages_sublist. intros b it Hit.
  apply strategy2_item_key in Hit. by injection Hit.
Qed.

(** The pages of the returned outline ascend when those of the blocks do. *)
Lemma classify_headings_page_order doc blocks :
  StronglySorted Z.le (page <$> blocks) →
  ∃ r, classify_headings doc blocks = Ok r
       ∧ StronglySorted Z.le (item_page <$> outline r).
Proof.
  intros Hsorted.
  destruct (decide (blocks = [])) as [->|Hne].
  { eexists. split; [done|]. constructor. }
  destruct (is_graphical_doc_spec doc blocks Hne) as ([] & Hg & _).
  - destruct (graphical_outline_spec blocks Hne)
      as (r & Hr & _ & b & Hb & _ & Ho).
    exists r. split.
    + destruct blocks; [done|]. unfold classify_headings. by rewrite Hg.
    + rewrite Ho. repeat constructor.
  - destruct (extract_title_returns blocks) as [[t tp] Ht].
    destruct (classify_headings_textual doc blocks t tp Hne Hg Ht)
      as (o & Ho & Hr).
    eexists. split; [exact Hr|]. simpl.
    eapply StronglySorted_sublist; [apply cleanup_pages|].
    destruct (decide _).
    + by eapply strategy1_pages.
    + by eapply strategy2_pages.
Qed.

End PageOrder.

(** X13.  The outline follows the pages of the document: when the blocks
    come in ascending page order, as the block extractor delivers them,
    the pages of the entries of the returned outline never decrease. *)
Theorem outline_in_page_order (doc : nat) (blocks : list TextBlock) :
  StronglySorted Z.le (page <$> blocks) →
  ∃ r, classify_headings doc blocks = Ok r
       ∧ StronglySorted Z.le (item_page <$> outline r).
Proof. apply classify_headings_page_order. Qed.

Lemma outline_in_page_order_witness :
  StronglySorted Z.le (page <$> sample_report)
  ∧ ∃ r, classify_headings 2 sample_report = Ok r
         ∧ StronglySorted Z.le (item_page <$> outline r).
Proof.
  assert (H : StronglySorted Z.le (page <$> sample_report)).
  { cbn. repeat (apply SSorted_cons; [|repeat (constructor; [lia|]); constructor]).
    apply SSorted_nil. }
  split; [exact H|]. exact (outline_in_page_order 2 sample_report H).
Defined.

(** X14.  Strategy 2 orders its entries itself: when the document is not
    graphical and the number of distinct sizes is 1 or above 6, the pages
    of the entries never decrease, whatever the order of the blocks. *)
Theorem strategy_2_outline_in_page_order (doc : nat)
    (blocks : list TextBlock) :
  is_graphical_doc doc blocks = Ok false →
  ¬ (1 < length (distinct_desc (size <$> blocks))
     ∧ length (distinct_desc (size <$> blocks)) ≤ 6) →
  ∃ r, classify_headings doc blocks = Ok r
       ∧ StronglySorted Z.le (item_page <$> outline r).
Proof.
  intros Hg Hs.
  destruct (decide (blocks = [])) as [->|Hne].
  { eexists. split; [done|]. constructor. }
  destruct (extract_title_returns blocks) as [[t tp] Ht].
  destruct (classify_headings_textual doc blocks t tp Hne Hg Ht)
    as (o & Ho & Hr).
  eexists. split; [exact Hr|]. simpl.
  eapply StronglySorted_sublist; [apply cleanup_pages|].
  rewrite decide_False in Ho by done. by eapply strategy2_pages.
Qed.

Lemma strategy_2_outline_in_page_order_witness :
  ∃ r, classify_headings 2 (reverse sample_report) = Ok r
       ∧ StronglySorted Z.le (item_page <$> outline r).
Proof.
  apply strategy_2_outline_in_page_order.
  - by vm_compute.
  - vm_compute. lia.
Defined.

(** ** The choice of the path and the body size *)

Section PathChoice.

Lemma insort_head {A} (lt : A → A → bool) x l :
  (∀ y, y ∈ l → lt y x = false) → insort lt x l = x :: l.
Proof.
  destruct l as [|y l]; [done|]. intros H. simpl.
  by rewrite (H y) by (by left).
Qed.

(** The stable descending sort puts first the first block of greatest
    size. *)
Lemma sorted_size_gt_head pre b post :
  (∀ b', b' ∈ pre → (size b' < size b)%Z) →
  (∀ b', b' ∈ post → (size b' ≤ size b)%Z) →
  ∃ tl, sorted size_gt (pre ++ b :: post) = b :: tl.
Proof.
  intros Hpre Hpost. induction pre as [|a pre IH].
  - exists (sorted size_gt post). apply (insort_head size_gt b).
    intros y Hy%sorted_elem_of. unfold size_gt.
    apply bool_decide_eq_false. specialize (Hpost y Hy). lia.
  - destruct IH as [tl Htl]; [intros b' Hb'; apply Hpre; by right|].
    change (sorted size_gt ((a :: pre) ++ b :: post))
      with (insort size_gt a (sorted size_gt (pre ++ b :: post))).
    rewrite Htl. simpl. unfold size_gt at 1. rewrite bool_decide_eq_true_2; [by eauto|].
    apply Hpre. by left.
Qed.

Lemma filter_length_Permutation {A} (P : A → Prop) `{!∀ x, Decision (P x)}
    (l k : list A) :
  l ≡ₚ k → length (filter P l) = length (filter P k).
Proof. intros Hp. by rewrite Hp. Qed.

(** The last item of a list in descending order is its smallest. *)
Lemma index_last_smallest (l : list Z) :
  StronglySorted (fun a b => (b ≤ a)%Z) l → l ≠ [] →
  ∃ m, index_last l = Ok m ∧ m ∈ l ∧ ∀ x, x ∈ l → (m ≤ x)%Z.
Proof.
  intros Hs Hne. destruct l as [|u us _] using rev_ind; [done|].
  exists u. split; [apply index_last_snoc|]. split.
  - apply elem_of_app. right. by left.
  - intros x [Hx|Hx]%elem_of_app.
    + eapply (StronglySorted_app_1_elem_of _ _ _ _ _ Hs); [done|by left].
    + apply list_elem_of_singleton in Hx. lia.
Qed.

(** *** The counter *)

Lemma counter_get_add x c z :
  counter_get (counter_add x c) z
  = counter_get c z + (if decide (x = z) then 1 else 0).
Proof.
  induction c as [|[y n] c IH]; simpl.
  - destruct (decide (z = x)), (decide (x = z)); congruence.
  - destruct (decide (x = y)) as [->|Hxy]; simpl.
    + destruct (decide (z = y)) as [->|Hzy].
      * rewrite decide_True by done. lia.
      * rewrite decide_False by done. lia.
    + destruct (decide (z = y)) as [->|Hzy]; [|done].
      rewrite decide_False by done. lia.
Qed.

Lemma counter_get_foldl l c z :
  counter_get (foldl (fun c x => counter_add x c) c l) z
  = counter_get c z + occurrences z l.
Proof.
  revert c. induction l as [|x l IH]; intros c; simpl.
  - unfold occurrences. simpl. lia.
  - rewrite IH, counter_get_add. unfold occurrences.
    rewrite filter_cons. destruct (decide (x = z)); simpl; lia.
Qed.

Lemma counter_get_Counter l z : counter_get (Counter l) z = occurrences z l.
Proof. unfold Counter. by rewrite counter_get_foldl. Qed.

Lemma counter_add_keys x c :
  (counter_add x c).*1 = if decide (x ∈ c.*1) then c.*1 else c.*1 ++ [x].
Proof.
  induction c as [|[y n] c IH].
  - destruct (decide _) as [H|H]; [inversion H|done].
  - change (((y, n) :: c).*1) with (y :: c.*1).
    simpl counter_add. destruct (decide (x = y)) as [->|Hxy].
    + change (((y, S n) :: c).*1) with (y :: c.*1).
      destruct (decide (y ∈ y :: c.*1)) as [H|H]; [done|].
      exfalso. apply H. by left.
    + change (((y, n) :: counter_add x c).*1)
        with (y :: (counter_add x c).*1).
      rewrite IH.
      destruct (decide (x ∈ c.*1)) as [Hin|Hin],
               (decide (x ∈ y :: c.*1)) as [H|H]; try done.
      * exfalso. apply H. by right.
      * apply elem_of_cons in H as [?|?]; done.
Qed.

Lemma counter_add_NoDup x c : NoDup c.*1 → NoDup (counter_add x c).*1.
Proof.
  intros H. rewrite counter_add_keys. destruct (decide _); [done|].
  apply NoDup_app. split_and!; [done| |apply NoDup_singleton].
  intros y Hy ->%list_elem_of_singleton. done.
Qed.

Lemma Counter_foldl_NoDup l c :
  NoDup c.*1 → NoDup (foldl (fun c x => counter_add x c) c l).*1.
Proof.
  revert c. induction l as [|x l IH]; intros c Hc; simpl; [done|].
  by apply IH, counter_add_NoDup.
Qed.

Lemma Counter_NoDup l : NoDup (Counter l).*1.
Proof. apply Counter_foldl_NoDup. constructor. Qed.

Lemma Counter_foldl_keys l c z :
  z ∈ (foldl (fun c x => counter_add x c) c l).*1 → z ∈ c.*1 ∨ z ∈ l.
Proof.
  revert c. induction l as [|x l IH]; intros c; simpl; [by left|].
  intros [H|H]%IH; [|right; by right].
  rewrite counter_add_keys in H. destruct (decide _); [by left|].
  apply elem_of_app in H as [H|H]; [by left|].
  apply list_elem_of_singleton in H as ->. right. by left.
Qed.

Lemma Counter_keys l z : z ∈ (Counter l).*1 → z ∈ l.
Proof.
  intros [H|H]%Counter_foldl_keys; [|done]. by apply elem_of_nil in H.
Qed.

Lemma counter_get_elem c y n :
  NoDup c.*1 → (y, n) ∈ c → counter_get c y = n.
Proof.
  induction c as [|[y' n'] c IH]; simpl; intros Hnd Hin.
  - by apply elem_of_nil in Hin.
  - apply NoDup_cons in Hnd as [Hy' Hnd].
    apply elem_of_cons in Hin as [ [= <- <-] | Hin].
    + by rewrite decide_True.
    + rewrite decide_False; [by apply IH|]. intros ->.
      apply Hy'. apply list_elem_of_fmap. by exists (y', n).
Qed.

Lemma counter_get_cases c z :
  counter_get c z = 0 ∨ (z, counter_get c z) ∈ c.
Proof.
  induction c as [|[y n] c IH]; simpl; [by left|].
  destruct (decide (z = y)) as [->|?]; [right; by left|].
  destruct IH; [by left|right; by right].
Qed.

(** [most_common(1)] returns an item of greatest count. *)
Lemma best_fold (best : Z * nat) c :
  let r := foldl (fun best e' => if (best.2 <? e'.2)%nat then e' else best)
                 best c in
  r ∈ best :: c ∧ ∀ e, e ∈ best :: c → e.2 ≤ r.2.
Proof.
  revert best. induction c as [|e c IH]; intros best; simpl.
  - split; [by left|]. by intros e ->%list_elem_of_singleton.
  - destruct (Nat.ltb_spec best.2 e.2) as [Hlt|Hge].
    + destruct (IH e) as [Hin Hmax]. split; [by right|].
      intros e' [->|He']%elem_of_cons; [|by apply Hmax].
      specialize (Hmax e (ltac:(by left))). lia.
    + destruct (IH best) as [Hin Hmax]. split.
      * apply elem_of_cons in Hin as [->|Hin]; [by left|right; by right].
      * intros e' [->|[->|He']%elem_of_cons]%elem_of_cons.
        -- apply Hmax. by left.
        -- specialize (Hmax best (ltac:(by left))). lia.
        -- apply Hmax. by right.
Qed.

Lemma most_common1_spec c :
  c ≠ [] →
  ∃ e, most_common1 c = [e] ∧ e ∈ c ∧ ∀ e', e' ∈ c → e'.2 ≤ e.2.
Proof.
  destruct c as [|e0 c]; [done|]. intros _. simpl.
  eexists. split; [done|]. apply best_fold.
Qed.

End PathChoice.

(** X15.  The entry of the graphical path is that of the first block, in
    input order, of the greatest size. *)
Theorem graphical_entry_is_first_largest_block
    (pre post : list TextBlock) (b : TextBlock) :
  (∀ b', b' ∈ pre → (size b' < size b)%Z) →
  (∀ b', b' ∈ post → (size b' ≤ size b)%Z) →
  graphical_outline (pre ++ b :: post)
  = Ok {| title := "";
          outline := [ {| level := "H1"; item_text := clean_text (text b);
                          item_page := page b |} ] |}.
Proof.
  intros Hpre Hpost. unfold graphical_outline.
  destruct (sorted_size_gt_head pre b post Hpre Hpost) as [tl ->]. done.
Qed.

Lemma graphical_entry_is_first_largest_block_witness :
  graphical_outline sample_poster
  = Ok {| title := "";
          outline := [ {| level := "H1"; item_text := "Summer";
                          item_page := 0 |} ] |}.
Proof.
  apply (graphical_entry_is_first_largest_block
           [line_at "presented by" 10 0 10] [line_at "Festival" 30 0 80]
           (line_at "Summer" 30 0 40)).
  - intros b' ->%list_elem_of_singleton. by vm_compute.
  - intros b' ->%list_elem_of_singleton. by vm_compute.
Defined.

(** X16.  The choice of the path does not depend on the order of the
    blocks: a permutation of the blocks leaves the graphical test and the
    list of distinct sizes, which selects the strategy, unchanged. *)
Theorem path_choice_ignores_block_order (doc : nat)
    (blocks blocks' : list TextBlock) :
  blocks ≡ₚ blocks' →
  is_graphical_doc doc blocks = is_graphical_doc doc blocks'
  ∧ distinct_desc (size <$> blocks) = distinct_desc (size <$> blocks').
Proof.
  intros Hp. split.
  - unfold is_graphical_doc.
    pose proof (filter_length_Permutation
                  (fun b => 15 < words (text b)) _ _ Hp) as Hf.
    pose proof (Permutation_length Hp) as Hl.
    destruct (decide (doc = 1)); [|done]. rewrite <-Hl.
    destruct (decide (length blocks < 40)); [|done].
    destruct (filter _ blocks) as [|p ps], (filter _ blocks') as [|p' ps'];
      try done.
    by rewrite Hf.
  - unfold distinct_desc. f_equal. f_equal.
    apply set_eq. intros z. rewrite !elem_of_list_to_set. by rewrite Hp.
Qed.

Lemma path_choice_ignores_block_order_witness :
  is_graphical_doc 1 (reverse sample_report)
  = is_graphical_doc 1 sample_report
  ∧ distinct_desc (size <$> reverse sample_report)
    = distinct_desc (size <$> sample_report).
Proof.
  apply path_choice_ignores_block_order, reverse_Permutation.
Defined.

(** X17.  Without a block of more than 20 words, the body size of
    Strategy 2 is the smallest size of the document, so no block of the
    smallest size is a heading candidate. *)
Theorem body_size_without_paragraphs (blocks : list TextBlock) :
  blocks ≠ [] →
  (∀ b, b ∈ blocks → words (text b) ≤ 20) →
  ∃ m, body_size_of blocks (distinct_desc (size <$> blocks)) = Ok m
       ∧ m ∈ size <$> blocks
       ∧ ∀ b, b ∈ blocks → (m ≤ size b)%Z.
Proof.
  intros Hne Hshort. unfold body_size_of.
  assert (filter (fun b => 20 < words (text b)) blocks = []) as ->.
  { apply (proj2 (filter_nil_Forall _ blocks)).
    apply Forall_forall. intros b Hb. specialize (Hshort b Hb). lia. }
  simpl.
  destruct (index_last_smallest (distinct_desc (size <$> blocks)))
    as (m & Hm & Hin & Hmin); [apply distinct_desc_sorted| |].
  { destruct blocks as [|b blocks]; [done|]. intros E.
    pose proof (proj2 (distinct_desc_elem (size <$> b :: blocks) (size b)))
      as He.
    rewrite E in He. destruct (not_elem_of_nil (size b)). apply He.
    rewrite fmap_cons. by left. }
  exists m. split; [|split].
  - by destruct (distinct_desc (size <$> blocks)).
  - by apply distinct_desc_elem.
  - intros b Hb. apply Hmin, distinct_desc_elem, list_elem_of_fmap.
    by exists b.
Qed.

Lemma body_size_without_paragraphs_witness :
  ∃ m, body_size_of sample_report (distinct_desc (size <$> sample_report))
       = Ok m
       ∧ m ∈ size <$> sample_report
       ∧ ∀ b, b ∈ sample_report → (m ≤ size b)%Z.
Proof.
  apply body_size_without_paragraphs; [done|].
  intros b Hb. unfold sample_report in Hb. rewrite !elem_of_cons in Hb.
  repeat (destruct Hb as [->|Hb]; [vm_compute; lia|]).
  by apply elem_of_nil in Hb.
Defined.

(** X18.  With a block of more than 20 words, the body size of Strategy 2
    is a most frequent size among those blocks: it is the size of one of
    them, and no size has more of them. *)
Theorem body_size_is_most_common_paragraph_size
    (blocks : list TextBlock) (unique_sizes : list Z) :
  paragraph_sizes blocks ≠ [] →
  ∃ m, body_size_of blocks unique_sizes = Ok m
       ∧ m ∈ paragraph_sizes blocks
       ∧ ∀ z, occurrences z (paragraph_sizes blocks)
              ≤ occurrences m (paragraph_sizes blocks).
Proof.
  intros Hne. unfold body_size_of.
  change (size <$> filter _ blocks) with (paragraph_sizes blocks).
  destruct (most_common1_spec (Counter (paragraph_sizes blocks)))
    as ([m n] & Hmc & Hin & Hmax); [by apply Counter_nonempty|].
  destruct (paragraph_sizes blocks) as [|s ps] eqn:E; [done|].
  rewrite Hmc. simpl. exists m. split; [done|].
  pose proof (Counter_NoDup (s :: ps)) as Hnd.
  pose proof (counter_get_elem _ _ _ Hnd Hin) as Hm.
  rewrite counter_get_Counter in Hm. split.
  - apply Counter_keys. apply list_elem_of_fmap. by exists (m, n).
  - intros z. rewrite Hm, <-(counter_get_Counter (s :: ps) z).
    destruct (counter_get_cases (Counter (s :: ps)) z) as [->|Hz]; [lia|].
    apply (Hmax _ Hz).
Qed.

Lemma body_size_is_most_common_paragraph_size_witness :
  ∃ m, body_size_of sample_article [16; 11; 9]%Z = Ok m
       ∧ m ∈ paragraph_sizes sample_article
       ∧ ∀ z, occurrences z (paragraph_sizes sample_article)
              ≤ occurrences m (paragraph_sizes sample_article).
Proof.
  apply body_size_is_most_common_paragraph_size. by vm_compute.
Defined.

(** ** The text parser *)

Section TextParser.

Lemma clean_text_nil : clean_text "" = "".
Proof. reflexivity. Qed.

Lemma clean_text_twice t : clean_text (clean_text t) = clean_text t.
Proof.
  rewrite !clean_text_single_spaced. apply single_spaced_twice.
Qed.

Lemma clean_text_words t : clean_text t ≠ "" → 0 < words (clean_text t).
Proof.
  intros Hne. unfold words, split.
  rewrite clean_text_single_spaced in *.
  rewrite (proj1 (proj2 (split_single_spaced t))).
  destruct (split_go None t) eqn:E; [|simpl; lia].
  destruct Hne.
  by rewrite <-(proj1 (proj2 (join_split_single_spaced t))), E.
Qed.

Lemma is_empty_spec s : is_empty s = true ↔ s = "".
Proof. by destruct s. Qed.

Lemma option_list_app {A} (o : option A) l :
  match o with Some x => l ++ [x] | None => l end = l ++ option_list o.
Proof. destruct o; simpl; by rewrite ?app_nil_r. Qed.

(** The access to [line['spans'][0]] is safe: a line without spans has
    an empty text and is passed over before it. *)
Lemma parse_line_ok p acc line :
  parse_line p acc line = Ok (acc ++ option_list (line_block p line)).
Proof.
  unfold parse_line, line_block.
  destruct (spans line) as [|sp sps] eqn:E.
  - simpl. by rewrite app_nil_r.
  - destruct (is_empty _); simpl; by rewrite ?app_nil_r.
Qed.

Lemma for_each_parse_line p lines acc :
  for_each lines (parse_line p) acc = Ok (acc ++ omap (line_block p) lines).
Proof.
  revert acc. induction lines as [|l lines IH]; intros acc; simpl.
  - by rewrite app_nil_r.
  - rewrite parse_line_ok. simpl. rewrite IH. f_equal.
    rewrite <-app_assoc. f_equal. by destruct (line_block p l).
Qed.

Lemma for_each_parse_block p blocks acc :
  for_each blocks (parse_block p) acc
  = Ok (acc ++ omap (line_block p)
                    (blocks ≫= (fun block => match block with
                                             | text_block lines => lines
                                             | image_block => []
                                             end))).
Proof.
  revert acc. induction blocks as [|b blocks IH]; intros acc; simpl.
  - by rewrite app_nil_r.
  - destruct b as [lines|]; simpl.
    + rewrite for_each_parse_line. simpl. rewrite IH. f_equal.
      rewrite omap_app. by rewrite <-app_assoc.
    + by rewrite IH.
Qed.

(** The text parser returns the blocks of the lines of the page. *)
Lemma parse_text_page_ok doc i p :
  doc !! i = Some p →
  parse_text_page (doc, i) = Ok (omap (line_block p) (text_lines p)).
Proof.
  intros Hp. unfold parse_text_page, load_page. rewrite Hp. simpl.
  by rewrite for_each_parse_block.
Qed.

Lemma line_block_inv p line b :
  line_block p line = Some b →
  ∃ first_span,
    head (spans line) = Some first_span
    ∧ text b = clean_text (join " " (span_text <$> spans line))
    ∧ text b ≠ ""
    ∧ size b = round (span_size first_span)
    ∧ font b = span_font first_span
    ∧ bbox b = line_bbox line
    ∧ page b = number p
    ∧ dir b = Some (line_dir line).
Proof.
  unfold line_block. destruct (spans line) as [|sp sps] eqn:E; [done|].
  set (t := clean_text _).
  destruct (is_empty t) eqn:Ee; [done|]. intros [= <-]. simpl.
  exists sp. split_and!; try done.
  intros Ht. rewrite Ht in Ee. done.
Qed.

(** The rounding goes to a nearest integer. *)
Lemma round_nearest x :
  (inject_Z (round x) - (1 # 2) <= x)%Q ∧ (x <= inject_Z (round x) + (1 # 2))%Q.
Proof.
  unfold round.
  pose proof (Qfloor_le x) as Hlo. pose proof (Qlt_floor x) as Hhi.
  rewrite inject_Z_plus in Hhi. change (inject_Z 1) with 1%Q in Hhi.
  destruct (Qcompare_spec (x - inject_Z (Qfloor x)) (1 # 2)) as [H|H|H].
  - destruct (Z.even _); rewrite ?inject_Z_plus;
      change (inject_Z 1) with 1%Q; lra.
  - lra.
  - rewrite inject_Z_plus. change (inject_Z 1) with 1%Q. lra.
Qed.

End TextParser.

(** X19.  The text parser raises for no page of the document: the first
    span of a line is read only when the line has text, and a line
    without spans has none.  It raises only for an index beyond the last
    page. *)
Theorem parse_text_page_raises_for_no_page (doc : Document) (i : nat) :
  returns (parse_text_page (doc, i)) ↔ i < length doc.
Proof.
  split.
  - intros [bs H]. unfold parse_text_page, load_page in H.
    destruct (doc !! i) as [p|] eqn:E; [|done].
    by apply lookup_lt_Some in E.
  - intros Hi. destruct (lookup_lt_is_Some_2 doc i Hi) as [p Hp].
    eexists. by apply parse_text_page_ok.
Qed.

(** X20.  Every block of the text parser is a line with text: its text
    is not empty, has at least one word and is normalized, its page is
    that of the parsed page and its direction is present. *)
Theorem parsed_blocks_are_lines_with_text (doc : Document) (i : nat)
    (bs : list TextBlock) :
  parse_text_page (doc, i) = Ok bs →
  ∃ p, doc !! i = Some p
       ∧ ∀ b, b ∈ bs →
           text b ≠ "" ∧ 0 < words (text b) ∧ clean_text (text b) = text b
           ∧ page b = number p ∧ is_Some (dir b).
Proof.
  intros H. destruct (doc !! i) as [p|] eqn:E.
  - rewrite (parse_text_page_ok doc i p E) in H. injection H as <-.
    exists p. split; [done|].
    intros b (line & Hline & Hb)%list_elem_of_omap.
    destruct (line_block_inv p line b Hb)
      as (sp & _ & Ht & Hne & _ & _ & _ & Hp & Hd).
    split; [done|]. rewrite Ht in *. split; [by apply clean_text_words|].
    split; [apply clean_text_twice|]. split; [done|]. by rewrite Hd.
  - unfold parse_text_page, load_page in H. by rewrite E in H.
Qed.

Lemma parsed_blocks_are_lines_with_text_witness :
  ∃ bs, parse_text_page (sample_pdf, 1) = Ok bs
        ∧ ∃ p, sample_pdf !! 1 = Some p
               ∧ ∀ b, b ∈ bs →
                   text b ≠ "" ∧ 0 < words (text b)
                   ∧ clean_text (text b) = text b
                   ∧ page b = number p ∧ is_Some (dir b).
Proof.
  eexists. split; [vm_compute; reflexivity|].
  apply (parsed_blocks_are_lines_with_text sample_pdf 1).
  vm_compute. reflexivity.
Defined.

(** X21.  The text parser reads a block's size and font off the first
    span of its line, and the size is an integer nearest to the size of
    that span. *)
Theorem parsed_size_is_nearest_integer (doc : Document) (i : nat)
    (bs : list TextBlock) :
  parse_text_page (doc, i) = Ok bs →
  ∀ b, b ∈ bs →
    ∃ p line first_span,
      doc !! i = Some p ∧ line ∈ text_lines p
      ∧ head (spans line) = Some first_span
      ∧ font b = span_font first_span ∧ bbox b = line_bbox line
      ∧ (inject_Z (size b) - (1 # 2) <= span_size first_span)%Q
      ∧ (span_size first_span <= inject_Z (size b) + (1 # 2))%Q.
Proof.
  intros H b Hb. destruct (doc !! i) as [p|] eqn:E.
  - rewrite (parse_text_page_ok doc i p E) in H. injection H as <-.
    apply list_elem_of_omap in Hb as (line & Hline & Hb).
    destruct (line_block_inv p line b Hb)
      as (sp & Hsp & _ & _ & Hs & Hf & Hbb & _ & _).
    exists p, line, sp. rewrite Hs. split_and!; try done;
      apply round_nearest.
  - unfold parse_text_page, load_page in H. by rewrite E in H.
Qed.

Lemma parsed_size_is_nearest_integer_witness :
  ∃ bs, parse_text_page (sample_pdf, 0) = Ok bs
        ∧ ∀ b, b ∈ bs →
            ∃ p line first_span,
              sample_pdf !! 0 = Some p ∧ line ∈ text_lines p
              ∧ head (spans line) = Some first_span
              ∧ font b = span_font first_span ∧ bbox b = line_bbox line
              ∧ (inject_Z (size b) - (1 # 2) <= span_size first_span)%Q
              ∧ (span_size first_span <= inject_Z (size b) + (1 # 2))%Q.
Proof.
  eexists. split; [vm_compute; reflexivity|].
  apply (parsed_size_is_nearest_integer sample_pdf 0).
  vm_compute. reflexivity.
Defined.

(** ** The block extractor *)

Section Extractor.
Context (ocr : Document * nat → result (list TextBlock)).

Lemma for_each_cons_ok {A S} (body : S → A → result S) x l s s' :
  body s x = Ok s' → for_each (x :: l) body s = for_each l body s'.
Proof. intros H. simpl. by rewrite H. Qed.

(** The first loop gives every page its parser. *)
Lemma make_task_ok doc acc k p :
  doc !! k = Some p →
  ∃ f, make_task ocr doc acc k = Ok (acc ++ [((doc, k), f)])
       ∧ f (doc, k) = page_blocks ocr doc k.
Proof.
  intros Hp. unfold make_task, page_blocks, load_page, text_page.
  rewrite Hp. simpl. destruct (decide _); by eexists.
Qed.

Lemma make_tasks_ok doc k m acc :
  k + m ≤ length doc →
  ∃ tasks,
    for_each (seq k m) (make_task ocr doc) acc = Ok (acc ++ tasks)
    ∧ (fun '(arg, func) => func arg) <$> tasks
      = page_blocks ocr doc <$> seq k m.
Proof.
  revert k acc. induction m as [|m IH]; intros k acc Hk.
  - exists []. simpl. by rewrite app_nil_r.
  - destruct (lookup_lt_is_Some_2 doc k ltac:(lia)) as [p Hp].
    destruct (make_task_ok doc acc k p Hp) as (f & Hf & Hrun).
    destruct (IH (S k) (acc ++ [((doc, k), f)]) ltac:(lia))
      as (tasks & Ht & Hruns).
    exists (((doc, k), f) :: tasks). split.
    + change (seq k (S m)) with (k :: seq (S k) m).
      etrans; [apply (for_each_cons_ok _ _ _ _ _ Hf)|].
      etrans; [exact Ht|]. by rewrite <-app_assoc.
    + change (seq k (S m)) with (k :: seq (S k) m).
      rewrite !fmap_cons, Hruns. f_equal. exact Hrun.
Qed.

Lemma extractor_unfold completed doc :
  get_document_blocks_parallel ocr completed doc
  = (all_blocks ← for_each completed
                     (collect (page_blocks ocr doc <$> seq 0 (length doc)))
                     [];
     Ok (sorted page_top_lt all_blocks)).
Proof.
  unfold get_document_blocks_parallel.
  destruct (make_tasks_ok doc 0 (length doc) [] ltac:(lia))
    as (tasks & -> & Ht).
  simpl. by rewrite Ht.
Qed.

Lemma futures_lookup doc k :
  k < length doc →
  (page_blocks ocr doc <$> seq 0 (length doc)) !! k
  = Some (page_blocks ocr doc k).
Proof.
  intros Hk. rewrite list_lookup_fmap, lookup_seq_lt by done. done.
Qed.

Lemma collect_all futures completed acc :
  (∀ k, k ∈ completed → ∃ bs, futures !! k = Some (Ok bs)) →
  for_each completed (collect futures) acc
  = Ok (acc ++ concat ((fun k => blocks_of (default (Ok []) (futures !! k)))
                         <$> completed)).
Proof.
  revert acc. induction completed as [|k completed IH]; intros acc H.
  - simpl. by rewrite app_nil_r.
  - destruct (H k ltac:(by left)) as [bs Hbs].
    assert (collect futures acc k = Ok (acc ++ bs)) as Hstep.
    { unfold collect, index. by rewrite Hbs. }
    rewrite (for_each_cons_ok _ _ _ _ _ Hstep).
    rewrite IH by (intros k' Hk'; apply H; by right).
    rewrite fmap_cons, Hbs. simpl. by rewrite <-app_assoc.
Qed.

Lemma collect_inv futures completed acc r :
  for_each completed (collect futures) acc = Ok r →
  ∀ k, k ∈ completed → ∃ bs, futures !! k = Some (Ok bs).
Proof.
  revert acc. induction completed as [|k completed IH]; intros acc H k' Hk'.
  - by apply elem_of_nil in Hk'.
  - destruct (collect futures acc k) as [acc'|e] eqn:Hstep.
    2:{ change (for_each (k :: completed) (collect futures) acc)
          with (collect futures acc k
                ≫= fun s' => for_each completed (collect futures) s') in H.
        by rewrite Hstep in H. }
    rewrite (for_each_cons_ok _ _ _ _ _ Hstep) in H.
    apply elem_of_cons in Hk' as [->|Hk']; [|by eapply IH].
    unfold collect, index in Hstep.
    destruct (futures !! k) as [[bs|e]|]; try done. by eauto.
Qed.

(** The extractor returns when every parser does, and then the sorted
    blocks of the pages in their order of completion. *)
Lemma extractor_ok doc completed :
  completion_order doc completed →
  (∀ i, i < length doc → returns (page_blocks ocr doc i)) →
  get_document_blocks_parallel ocr completed doc
  = Ok (sorted page_top_lt (blocks_in_order ocr doc completed)).
Proof.
  intros Hc Hall. rewrite extractor_unfold.
  assert (∀ k, k ∈ completed → k < length doc) as Hlt.
  { intros k Hk. rewrite Hc in Hk. apply elem_of_seq in Hk. lia. }
  rewrite collect_all.
  - simpl. f_equal. f_equal. unfold blocks_in_order. f_equal.
    apply list_fmap_ext. intros _ k Hk%list_elem_of_lookup_2.
    by rewrite futures_lookup by auto.
  - intros k Hk. rewrite futures_lookup by auto.
    destruct (Hall k (Hlt k Hk)) as [bs ->]. by eauto.
Qed.

Lemma extractor_inv doc completed r :
  completion_order doc completed →
  get_document_blocks_parallel ocr completed doc = Ok r →
  ∀ i, i < length doc → returns (page_blocks ocr doc i).
Proof.
  intros Hc H i Hi. rewrite extractor_unfold in H.
  destruct (for_each _ _ _) as [all|e] eqn:E; [|done].
  destruct (collect_inv _ _ _ _ E i) as [bs Hbs].
  - rewrite Hc. apply elem_of_seq. lia.
  - rewrite futures_lookup in Hbs by done. exists bs. congruence.
Qed.

(** A text page is parsed without an exception. *)
Lemma page_blocks_text doc i p :
  doc !! i = Some p → text_page p →
  page_blocks ocr doc i = Ok (omap (line_block p) (text_lines p)).
Proof.
  intros Hp Ht. unfold page_blocks, load_page. rewrite Hp. simpl.
  rewrite decide_True by done. by apply parse_text_page_ok.
Qed.

Lemma page_blocks_ocr doc i p :
  doc !! i = Some p → ¬ text_page p → page_blocks ocr doc i = ocr (doc, i).
Proof.
  intros Hp Ht. unfold page_blocks, load_page. rewrite Hp. simpl.
  by rewrite decide_False.
Qed.

(** The blocks of a page carry its index. *)
Lemma page_blocks_page doc i b :
  well_numbered doc → page_faithful ocr doc →
  b ∈ blocks_of (page_blocks ocr doc i) → page b = Z.of_nat i.
Proof.
  intros Hw Hf Hb. destruct (doc !! i) as [p|] eqn:Hp.
  - rewrite <-(Hw i p Hp). destruct (decide (text_page p)) as [Ht|Ht].
    + rewrite (page_blocks_text doc i p Hp Ht) in Hb. simpl in Hb.
      apply list_elem_of_omap in Hb as (line & _ & Hb).
      by destruct (line_block_inv p line b Hb)
        as (sp & _ & _ & _ & _ & _ & _ & Hpg & _).
    + rewrite (page_blocks_ocr doc i p Hp Ht) in Hb.
      destruct (ocr (doc, i)) as [bs|e] eqn:E; simpl in Hb.
      * by eapply Hf.
      * by apply elem_of_nil in Hb.
  - unfold page_blocks, load_page in Hb. rewrite Hp in Hb. simpl in Hb.
    by apply elem_of_nil in Hb.
Qed.

End Extractor.

(** *** The stable sort of pages in any order *)

Section SortChunks.
Context {A : Type} (lt : A → A → bool).
Hypothesis lt_asym : ∀ a b, lt a b = true → lt b a = false.
Hypothesis lt_trans : ∀ a b c, lt a b = true → lt b c = true → lt a c = true.

Lemma insort_insort a b l :
  lt a b = true → insort lt a (insort lt b l) = insort lt b (insort lt a l).
Proof using lt_asym lt_trans.
  intros Hab. induction l as [|y l IH]; simpl.
  - by rewrite Hab, (lt_asym a b).
  - destruct (lt y b) eqn:Hyb, (lt y a) eqn:Hya; simpl;
      rewrite ?Hab, ?Hyb, ?Hya, ?(lt_asym a b) by done; simpl;
      rewrite ?Hyb, ?Hya; try done.
    + by rewrite IH.
    + by rewrite (lt_trans y a b) in Hyb.
Qed.

Lemma insort_comm a b l :
  lt a b = true ∨ lt b a = true →
  insort lt a (insort lt b l) = insort lt b (insort lt a l).
Proof using lt_asym lt_trans.
  intros [H|H]; [|symmetry]; by apply insort_insort.
Qed.

Lemma insort_foldr a lb l :
  (∀ b, b ∈ lb → lt a b = true ∨ lt b a = true) →
  insort lt a (foldr (insort lt) l lb) = foldr (insort lt) (insort lt a l) lb.
Proof using lt_asym lt_trans.
  induction lb as [|b lb IH]; intros H; simpl; [done|].
  rewrite insort_comm by (apply H; by left).
  rewrite IH; [done|]. intros b' Hb'. apply H. by right.
Qed.

Lemma foldr_insort_comm la lb l :
  (∀ a b, a ∈ la → b ∈ lb → lt a b = true ∨ lt b a = true) →
  foldr (insort lt) (foldr (insort lt) l lb) la
  = foldr (insort lt) (foldr (insort lt) l la) lb.
Proof using lt_asym lt_trans.
  induction la as [|a la IH]; intros H; simpl; [done|].
  rewrite IH by (intros a' b Ha' Hb; apply H; [by right|done]).
  apply insort_foldr. intros b Hb. apply H; [by left|done].
Qed.

Lemma sorted_app l1 l2 :
  sorted lt (l1 ++ l2) = foldr (insort lt) (sorted lt l2) l1.
Proof. unfold sorted. by rewrite foldr_app. Qed.

End SortChunks.

Section Determinism.

Lemma page_top_lt_trans a b c :
  page_top_lt a b = true → page_top_lt b c = true → page_top_lt a c = true.
Proof.
  unfold page_top_lt.
  rewrite !orb_true_iff, !andb_true_iff, !bool_decide_eq_true.
  intros [H1|[H1 H1']] [H2|[H2 H2']]; try (left; lia).
  right. split; [lia|]. by apply Qclt_trans with (bbox1 b).
Qed.

Lemma page_top_lt_pages a b :
  page a ≠ page b → page_top_lt a b = true ∨ page_top_lt b a = true.
Proof.
  intros H. unfold page_top_lt.
  destruct (Z.lt_trichotomy (page a) (page b)) as [Hlt|[?|Hgt]]; [|done|].
  - left. by rewrite bool_decide_eq_true_2.
  - right. by rewrite bool_decide_eq_true_2.
Qed.

(** Sorting the blocks of the pages gives the same list for every order
    of the pages, when the blocks of a page carry its index. *)
Lemma sorted_pages_Permutation (c : nat → list TextBlock) o1 o2 :
  (∀ i b, b ∈ c i → page b = Z.of_nat i) →
  o1 ≡ₚ o2 → NoDup o1 →
  sorted page_top_lt (concat (c <$> o1))
  = sorted page_top_lt (concat (c <$> o2)).
Proof.
  intros Hc. induction 1 as [|x l l' Hp IH|x y l|l l' l'' Hp1 IH1 Hp2 IH2];
    intros Hnd.
  - done.
  - apply NoDup_cons in Hnd as [_ Hnd].
    rewrite !fmap_cons. simpl. by rewrite !sorted_app, IH.
  - rewrite !fmap_cons. simpl. rewrite !sorted_app.
    apply (foldr_insort_comm _ page_top_lt_asym page_top_lt_trans).
    intros a b Ha Hb. apply page_top_lt_pages.
    rewrite (Hc _ _ Ha), (Hc _ _ Hb).
    apply NoDup_cons in Hnd as [Hx _]. intros Heq. apply Hx.
    apply Nat2Z.inj in Heq as ->. by left.
  - rewrite IH1 by done. apply IH2. by rewrite <-Hp1.
Qed.

(** Two orders of completion give the same blocks. *)
Lemma extractor_order_irrelevant
    (ocr : Document * nat → result (list TextBlock)) doc
    completed completed' r :
  well_numbered doc → page_faithful ocr doc →
  completion_order doc completed → completion_order doc completed' →
  get_document_blocks_parallel ocr completed doc = Ok r →
  get_document_blocks_parallel ocr completed' doc = Ok r.
Proof.
  intros Hw Hf Hc Hc' H.
  pose proof (extractor_inv ocr doc completed r Hc H) as Hall.
  rewrite (extractor_ok ocr doc completed Hc Hall) in H.
  rewrite (extractor_ok ocr doc completed' Hc' Hall), <-H.
  f_equal. unfold blocks_in_order. apply sorted_pages_Permutation.
  - intros i b. by apply page_blocks_page.
  - unfold completion_order in *. by rewrite Hc, Hc'.
  - unfold completion_order in Hc'. rewrite Hc'. apply NoDup_seq.
Qed.

End Determinism.

(** X22.  The blocks the extractor returns do not depend on the order in
    which the thread pool completes the pages: with pages numbered by
    their indices and an OCR parser that gives its blocks the number of
    their page, two orders of completion give the same list. *)
Theorem block_extraction_ignores_completion_order
    (ocr : Document * nat → result (list TextBlock)) (doc : Document)
    (completed completed' : list nat) (r : list TextBlock) :
  well_numbered doc → page_faithful ocr doc →
  completion_order doc completed → completion_order doc completed' →
  get_document_blocks_parallel ocr completed doc = Ok r →
  get_document_blocks_parallel ocr completed' doc = Ok r.
Proof. apply extractor_order_irrelevant. Qed.

Lemma block_extraction_ignores_completion_order_witness :
  ∃ r, get_document_blocks_parallel blind_ocr [0; 1] sample_pdf = Ok r
       ∧ get_document_blocks_parallel blind_ocr [1; 0] sample_pdf = Ok r.
Proof.
  eexists. split; [vm_compute; reflexivity|].
  apply (block_extraction_ignores_completion_order
           blind_ocr sample_pdf [0; 1] [1; 0]).
  - intros [|[|i]] p [= <-]; reflexivity.
  - intros i p bs b _ [= <-] Hb. by apply elem_of_nil in Hb.
  - unfold completion_order. reflexivity.
  - apply perm_swap.
  - vm_compute. reflexivity.
Defined.

(** X23.  The extractor raises only when the OCR parser does: it returns
    exactly when the OCR parser returns for every page whose text does
    not exceed the threshold of 150 characters. *)
Theorem block_extraction_fails_only_in_ocr
    (ocr : Document * nat → result (list TextBlock)) (doc : Document)
    (completed : list nat) :
  completion_order doc completed →
  returns (get_document_blocks_parallel ocr completed doc)
  ↔ ∀ i p, doc !! i = Some p → ¬ text_page p → returns (ocr (doc, i)).
Proof.
  intros Hc. split.
  - intros [r Hr] i p Hp Ht.
    rewrite <-(page_blocks_ocr ocr doc i p Hp Ht).
    apply (extractor_inv ocr doc completed r Hc Hr).
    by apply lookup_lt_Some in Hp.
  - intros H. eexists. apply extractor_ok; [done|].
    intros i Hi. destruct (lookup_lt_is_Some_2 doc i Hi) as [p Hp].
    destruct (decide (text_page p)) as [Ht|Ht].
    + eexists. by apply page_blocks_text.
    + rewrite (page_blocks_ocr ocr doc i p Hp Ht). by eapply H.
Qed.

Lemma block_extraction_fails_only_in_ocr_witness :
  returns (get_document_blocks_parallel
             (fun _ => Raise ValueError) [1; 0] sample_pdf)
  ↔ ∀ i p, sample_pdf !! i = Some p → ¬ text_page p →
           returns ((fun _ => Raise ValueError) (sample_pdf, i)
                    : result (list TextBlock)).
Proof.
  apply (block_extraction_fails_only_in_ocr (fun _ => Raise ValueError)).
  apply perm_swap.
Defined.

(** X24.  The extractor loses and invents no block: what it returns is a
    rearrangement of the blocks of the pages, in ascending order of page
    and, within a page, of the top of the line. *)
Theorem block_extraction_keeps_every_block
    (ocr : Document * nat → result (list TextBlock)) (doc : Document)
    (completed : list nat) (r : list TextBlock) :
  completion_order doc completed →
  get_document_blocks_parallel ocr completed doc = Ok r →
  r ≡ₚ blocks_in_order ocr doc (seq 0 (length doc))
  ∧ StronglySorted (not_after page_top_lt) r
  ∧ StronglySorted Z.le (page <$> r).
Proof.
  intros Hc H.
  pose proof (extractor_inv ocr doc completed r Hc H) as Hall.
  rewrite (extractor_ok ocr doc completed Hc Hall) in H.
  injection H as <-. split_and!.
  - rewrite sorted_Permutation. unfold blocks_in_order.
    unfold completion_order in Hc. by rewrite Hc.
  - apply sorted_sorted; [apply page_top_lt_asym|apply page_top_lt_negtrans].
  - apply sorted_page_top_pages.
Qed.

Lemma block_extraction_keeps_every_block_witness :
  ∃ r, get_document_blocks_parallel blind_ocr [1; 0] sample_pdf = Ok r
       ∧ r ≡ₚ blocks_in_order blind_ocr sample_pdf (seq 0 (length sample_pdf))
       ∧ StronglySorted (not_after page_top_lt) r
       ∧ StronglySorted Z.le (page <$> r).
Proof.
  eexists. split; [vm_compute; reflexivity|].
  apply (block_extraction_keeps_every_block blind_ocr sample_pdf [1; 0]).
  - apply perm_swap.
  - vm_compute. reflexivity.
Defined.

(** ** The processing of a file *)

Section ProcessFile.
Context (ocr : Document * nat → result (list TextBlock)).

(** After the extraction nothing raises: the filter and the classifier
    return for every list of blocks. *)
Lemma process_file_written completed (doc : Document) blocks :
  length doc ≤ 50 →
  get_document_blocks_parallel ocr completed doc = Ok blocks →
  ∃ filtered r,
    filter_non_content blocks (length doc) = Ok filtered
    ∧ filtered `sublist_of` blocks
    ∧ classify_headings (length doc) filtered = Ok r
    ∧ process_file ocr completed (Ok doc) = written r.
Proof.
  intros Hlen Hb.
  destruct (filter_non_content_ok blocks (length doc))
    as (filtered & removed & Hf & _ & Hfs).
  destruct (classify_headings_returns (length doc) filtered) as [r Hr].
  exists filtered, r. split_and!; try done.
  - rewrite Hfs. apply sublist_filter.
  - unfold process_file. simpl. rewrite decide_False by lia.
    rewrite Hb. simpl. rewrite Hf. simpl. by rewrite Hr.
Qed.

Lemma process_file_raised completed (doc : Document) e :
  length doc ≤ 50 →
  get_document_blocks_parallel ocr completed doc = Raise e →
  process_file ocr completed (Ok doc) = exception_error e.
Proof.
  intros Hlen Hb. unfold process_file. simpl.
  rewrite decide_False by lia. by rewrite Hb.
Qed.

Lemma process_file_limit completed (doc : Document) :
  50 < length doc → process_file ocr completed (Ok doc) = page_limit_error.
Proof.
  intros Hlen. unfold process_file. simpl. by rewrite decide_True.
Qed.

(** An exception of the collecting loop is one of a future. *)
Lemma collect_raise futures completed acc e :
  (∀ k, k ∈ completed → k < length futures) →
  for_each completed (collect futures) acc = Raise e →
  ∃ k, k ∈ completed ∧ futures !! k = Some (Raise e).
Proof.
  revert acc. induction completed as [|k completed IH]; intros acc Hk H.
  - done.
  - destruct (collect futures acc k) as [acc'|e'] eqn:Hstep.
    + rewrite (for_each_cons_ok _ _ _ _ _ Hstep) in H.
      destruct (IH acc') as (k' & Hk' & Hr); [|done|].
      * intros k' Hk'. apply Hk. by right.
      * exists k'. split; [by right|done].
    + change (for_each (k :: completed) (collect futures) acc)
        with (collect futures acc k
              ≫= fun s' => for_each completed (collect futures) s') in H.
      rewrite Hstep in H. injection H as ->.
      exists k. split; [by left|].
      unfold collect, index in Hstep.
      destruct (lookup_lt_is_Some_2 futures k) as [f Hf];
        [apply Hk; by left|].
      rewrite Hf in *. destruct f as [bs|e']; [done|].
      by injection Hstep as ->.
Qed.

(** An exception of the extractor is one of the OCR parser. *)
Lemma extractor_raise completed doc e :
  completion_order doc completed →
  get_document_blocks_parallel ocr completed doc = Raise e →
  ∃ i p, doc !! i = Some p ∧ ¬ text_page p ∧ ocr (doc, i) = Raise e.
Proof.
  intros Hc H. rewrite extractor_unfold in H.
  destruct (for_each _ _ _) as [all|e'] eqn:E; [done|].
  injection H as ->.
  apply collect_raise in E as (k & Hk & Hf).
  - rewrite Hc in Hk. apply elem_of_seq in Hk.
    rewrite futures_lookup in Hf by lia. injection Hf as Hf.
    destruct (lookup_lt_is_Some_2 doc k ltac:(lia)) as [p Hp].
    exists k, p. split; [done|].
    destruct (decide (text_page p)) as [Ht|Ht].
    + by rewrite (page_blocks_text ocr doc k p Hp Ht) in Hf.
    + by rewrite (page_blocks_ocr ocr doc k p Hp Ht) in Hf.
  - intros k Hk. rewrite Hc in Hk. apply elem_of_seq in Hk.
    rewrite length_fmap, length_seq. lia.
Qed.

Lemma elem_of_concat {A} (x : A) (ls : list (list A)) :
  x ∈ concat ls → ∃ l, x ∈ l ∧ l ∈ ls.
Proof.
  induction ls as [|l ls IH]; simpl.
  - intros Hx. by apply elem_of_nil in Hx.
  - intros [Hx|Hx]%elem_of_app.
    + exists l. split; [done|by left].
    + destruct (IH Hx) as (l' & ? & ?). exists l'. split; [done|by right].
Qed.

(** The blocks of the extractor lie on pages of the document. *)
Lemma extractor_pages completed doc blocks b :
  well_numbered doc → page_faithful ocr doc →
  completion_order doc completed →
  get_document_blocks_parallel ocr completed doc = Ok blocks →
  b ∈ blocks → (0 ≤ page b < Z.of_nat (length doc))%Z.
Proof.
  intros Hw Hf Hc H Hb.
  pose proof (extractor_inv ocr doc completed blocks Hc H) as Hall.
  rewrite (extractor_ok ocr doc completed Hc Hall) in H.
  injection H as <-. apply sorted_elem_of in Hb.
  unfold blocks_in_order in Hb.
  apply elem_of_concat in Hb as (bs & Hb & Hbs).
  apply list_elem_of_fmap in Hbs as (i & -> & Hi).
  rewrite Hc in Hi. apply elem_of_seq in Hi.
  rewrite (page_blocks_page ocr doc i b Hw Hf Hb). lia.
Qed.

End ProcessFile.

(** X25.  A document of at most 50 pages whose pages all have more than
    150 characters of text is processed without an error, whatever the
    OCR parser would do and in whatever order the pages complete. *)
Theorem text_documents_are_always_processed
    (ocr : Document * nat → result (list TextBlock)) (doc : Document)
    (completed : list nat) :
  length doc ≤ 50 →
  (∀ p, p ∈ doc → text_page p) →
  completion_order doc completed →
  ∃ r, process_file ocr completed (Ok doc) = written r.
Proof.
  intros Hlen Htext Hc.
  destruct (get_document_blocks_parallel ocr completed doc)
    as [blocks|e] eqn:E.
  - destruct (process_file_written ocr completed doc blocks Hlen E)
      as (filtered & r & _ & _ & _ & Hr).
    by exists r.
  - destruct (extractor_raise ocr completed doc e Hc E)
      as (i & p & Hp & Hnt & _).
    destruct Hnt. apply Htext. by eapply list_elem_of_lookup_2.
Qed.

Lemma text_documents_are_always_processed_witness :
  ∃ r, process_file (fun _ => Raise ValueError) [1; 0] (Ok sample_pdf)
       = written r.
Proof.
  apply text_documents_are_always_processed.
  - simpl. lia.
  - intros p Hp. unfold sample_pdf in Hp. rewrite !elem_of_cons in Hp.
    destruct Hp as [->|[->|Hp]]; [vm_compute; lia..|].
    by apply elem_of_nil in Hp.
  - apply perm_swap.
Defined.

(** X26.  What is written for an opened document: the page limit error
    exactly for more than 50 pages, and else an error only when the OCR
    parser raised it for a page at or below the threshold; the filter,
    the classifier and the text parser cause no error. *)
Theorem process_file_outcomes
    (ocr : Document * nat → result (list TextBlock)) (doc : Document)
    (completed : list nat) :
  completion_order doc completed →
  match process_file ocr completed (Ok doc) with
  | page_limit_error => 50 < length doc
  | exception_error e =>
      length doc ≤ 50
      ∧ ∃ i p, doc !! i = Some p ∧ ¬ text_page p ∧ ocr (doc, i) = Raise e
  | written r =>
      length doc ≤ 50
      ∧ ∀ i p, doc !! i = Some p → ¬ text_page p → returns (ocr (doc, i))
  end.
Proof.
  intros Hc. destruct (decide (50 < length doc)) as [Hlen|Hlen].
  { by rewrite process_file_limit. }
  apply Nat.nlt_ge in Hlen.
  destruct (get_document_blocks_parallel ocr completed doc)
    as [blocks|e] eqn:E.
  - destruct (process_file_written ocr completed doc blocks Hlen E)
      as (filtered & r & _ & _ & _ & ->).
    split; [done|]. intros i p Hp Ht.
    rewrite <-(page_blocks_ocr ocr doc i p Hp Ht).
    apply (extractor_inv ocr doc completed blocks Hc E).
    by apply lookup_lt_Some in Hp.
  - rewrite (process_file_raised ocr completed doc e Hlen E).
    split; [done|]. by apply (extractor_raise ocr completed).
Qed.

Lemma process_file_outcomes_witness :
  match process_file blind_ocr [1; 0] (Ok sample_pdf) with
  | page_limit_error => 50 < length sample_pdf
  | exception_error e =>
      length sample_pdf ≤ 50
      ∧ ∃ i p, sample_pdf !! i = Some p ∧ ¬ text_page p
               ∧ blind_ocr (sample_pdf, i) = Raise e
  | written r =>
      length sample_pdf ≤ 50
      ∧ ∀ i p, sample_pdf !! i = Some p → ¬ text_page p →
               returns (blind_ocr (sample_pdf, i))
  end.
Proof.
  apply process_file_outcomes. apply perm_swap.
Defined.

(** X27.  The outline written for a document is well formed: every entry
    has one of the levels H1, H2 and H3 and the number of a page of the
    document, and the page numbers never decrease. *)
Theorem written_outline_is_well_formed
    (ocr : Document * nat → result (list TextBlock)) (doc : Document)
    (completed : list nat) (r : DocumentOutline) :
  well_numbered doc → page_faithful ocr doc →
  completion_order doc completed →
  process_file ocr completed (Ok doc) = written r →
  (∀ it, it ∈ outline r →
     level it ∈ ["H1"; "H2"; "H3"]
     ∧ (0 ≤ item_page it < Z.of_nat (length doc))%Z)
  ∧ StronglySorted Z.le (item_page <$> outline r).
Proof.
  intros Hw Hf Hc H.
  destruct (decide (50 < length doc)) as [Hlen|Hlen].
  { by rewrite process_file_limit in H. }
  apply Nat.nlt_ge in Hlen.
  destruct (get_document_blocks_parallel ocr completed doc)
    as [blocks|e] eqn:E.
  2:{ by rewrite (process_file_raised ocr completed doc e Hlen E) in H. }
  destruct (process_file_written ocr completed doc blocks Hlen E)
    as (filtered & r' & _ & Hsub & Hr & Hw').
  rewrite Hw' in H. injection H as ->.
  destruct (classify_headings_entries (length doc) filtered)
    as (r1 & Hr1 & Hent).
  destruct (classify_headings_page_order (length doc) filtered)
    as (r2 & Hr2 & Hord).
  { eapply StronglySorted_sublist; [by apply fmap_sublist|].
    pose proof (extractor_inv ocr doc completed blocks Hc E) as Hall.
    rewrite (extractor_ok ocr doc completed Hc Hall) in E.
    injection E as <-. apply sorted_page_top_pages. }
  rewrite Hr in Hr1, Hr2. injection Hr1 as <-. injection Hr2 as <-.
  split; [|done]. intros it Hit.
  destruct (Hent it Hit) as (Hl & b & Hb & ->). split; [done|].
  apply (extractor_pages ocr completed doc blocks b Hw Hf Hc E).
  by eapply elem_of_sublist.
Qed.

Lemma written_outline_is_well_formed_witness :
  ∃ r, process_file blind_ocr [1; 0] (Ok sample_pdf) = written r
       ∧ (∀ it, it ∈ outline r →
            level it ∈ ["H1"; "H2"; "H3"]
            ∧ (0 ≤ item_page it < Z.of_nat (length sample_pdf))%Z)
       ∧ StronglySorted Z.le (item_page <$> outline r).
Proof.
  eexists. split; [vm_compute; reflexivity|].
  apply (written_outline_is_well_formed blind_ocr sample_pdf [1; 0]).
  - intros [|[|i]] p [= <-]; reflexivity.
  - intros i p bs b _ [= <-] Hb. by apply elem_of_nil in Hb.
  - apply perm_swap.
  - vm_compute. reflexivity.
Defined.

(** X28.  With pages numbered by their indices and an OCR parser that
    gives its blocks the number of their page, what is written for a
    document does not depend on the order in which the pages complete:
    when one order gives a result, every other gives the same result. *)
Theorem written_result_ignores_completion_order
    (ocr : Document * nat → result (list TextBlock)) (doc : Document)
    (completed completed' : list nat) (r : DocumentOutline) :
  well_numbered doc → page_faithful ocr doc →
  completion_order doc completed → completion_order doc completed' →
  process_file ocr completed (Ok doc) = written r →
  process_file ocr completed' (Ok doc) = written r.
Proof.
  intros Hw Hf Hc Hc' H.
  destruct (decide (50 < length doc)) as [Hlen|Hlen].
  { by rewrite process_file_limit in H. }
  apply Nat.nlt_ge in Hlen.
  destruct (get_document_blocks_parallel ocr completed doc)
    as [blocks|e] eqn:E.
  2:{ by rewrite (process_file_raised ocr completed doc e Hlen E) in H. }
  pose proof (extractor_order_irrelevant ocr doc completed completed'
                blocks Hw Hf Hc Hc' E) as E'.
  destruct (process_file_written ocr completed doc blocks Hlen E)
    as (filtered & r1 & Hf1 & _ & Hr1 & Hw1).
  destruct (process_file_written ocr completed' doc blocks Hlen E')
    as (filtered' & r2 & Hf2 & _ & Hr2 & Hw2).
  rewrite Hw2, <-H, Hw1. f_equal.
  rewrite Hf1 in Hf2. injection Hf2 as <-. congruence.
Qed.

Lemma written_result_ignores_completion_order_witness :
  ∃ r, process_file blind_ocr [0; 1] (Ok sample_pdf) = written r
       ∧ process_file blind_ocr [1; 0] (Ok sample_pdf) = written r.
Proof.
  eexists. split; [vm_compute; reflexivity|].
  apply (written_result_ignores_completion_order
           blind_ocr sample_pdf [0; 1] [1; 0]).
  - intros [|[|i]] p [= <-]; reflexivity.
  - intros i p bs b _ [= <-] Hb. by apply elem_of_nil in Hb.
  - unfold completion_order. reflexivity.
  - apply perm_swap.
  - vm_compute. reflexivity.
Defined.

(** ** The entries of Strategy 1 *)

Section Strategy1Entries.

Lemma split1_first sep t :
  contains sep t = true →
  ∃ h rest, split1 sep t = [h; rest] ∧ t = h +:+ String sep rest
            ∧ contains sep h = false.
Proof.
  induction t as [|c t IH]; simpl; [done|].
  destruct (bool_decide (c = sep)) eqn:E; simpl.
  - intros _. apply bool_decide_eq_true in E as ->. by exists "", t.
  - intros (h & rest & -> & -> & Hh)%IH.
    exists (String c h), rest. simpl. by rewrite E, Hh.
Qed.

(** The text of an entry is that of its block or the label before the
    first colon of a long text. *)
Lemma heading_text_cases t t' :
  heading_text t = Ok t' →
  t' = t
  ∨ (∃ label rest,
       t' = label +:+ ":" ∧ t = label +:+ ":" +:+ rest
       ∧ contains ":" label = false ∧ words label < 5 ∧ 10 ≤ words t).
Proof.
  unfold heading_text.
  destruct (bool_decide (10 ≤ words t)) eqn:Ew; simpl; [|by intros [= <-]; left].
  destruct (contains ":" t) eqn:Ec; [|by intros [= <-]; left].
  apply bool_decide_eq_true in Ew.
  destruct (split1_first ":" t Ec) as (h & rest & Hs & Ht & Hh).
  rewrite Hs. simpl. destruct (decide _) as [Hw|Hw]; intros [= <-].
  - right. by exists h, rest.
  - by left.
Qed.

Lemma emitted1_text tp stl b it :
  emitted1 tp stl b = Some it →
  (text b ∉ tp) ∧ date_pattern_match (strip (text b)) = false
  ∧ words (item_text it) < 10 ∧ heading_text (text b) = Ok (item_text it).
Proof.
  unfold emitted1, strategy1_item.
  destruct (bool_decide (text b ∈ tp)) eqn:Et; simpl; [done|].
  destruct (bool_decide (stl !! size b = None)); simpl; [done|].
  destruct (date_pattern_match _); [done|].
  destruct (heading_text (text b)) as [t'|e]; simpl; [|done].
  destruct (decide _); [|done]. unfold subscript.
  destruct (stl !! size b); simpl; [|done]. intros [= <-]. simpl.
  apply bool_decide_eq_false in Et. done.
Qed.

End Strategy1Entries.

(** X29.  An entry of Strategy 1 is short and comes from a block that is
    no title line and no date: it has fewer than 10 words, and its text
    is that of the block or, for a block of 10 words or more, the label
    of fewer than 5 words that ends at the first colon of the block. *)
Theorem strategy_1_entries_are_short_labels (blocks : list TextBlock)
    (title_parts : list string) (unique_sizes : list Z) :
  ∃ o, strategy1 blocks title_parts unique_sizes = Ok o
       ∧ ∀ it, it ∈ o →
           ∃ b, b ∈ blocks ∧ (text b ∉ title_parts)
                ∧ date_pattern_match (strip (text b)) = false
                ∧ item_page it = page b
                ∧ words (item_text it) < 10
                ∧ (item_text it = text b
                   ∨ (∃ label rest,
                        item_text it = label +:+ ":"
                        ∧ text b = label +:+ ":" +:+ rest
                        ∧ contains ":" label = false
                        ∧ words label < 5 ∧ 10 ≤ words (text b))).
Proof.
  eexists. split; [apply strategy1_ok|].
  intros it (b & Hb & He)%list_elem_of_omap.
  exists b. split; [done|].
  destruct (emitted1_text _ _ _ _ He) as (Ht & Hd & Hw & Hh).
  split_and!; try done.
  - by eapply emitted1_page.
  - by apply heading_text_cases.
Qed.

(** ** The entries of Strategy 2 *)

(** X30.  An entry of Strategy 2 is a heading candidate unchanged: it has
    the text and the page of a block that is above the body size, has
    fewer than 20 words and is no title line and no date; a block of the
    body size or below gives no entry. *)
Theorem strategy_2_entries_are_candidates (blocks : list TextBlock)
    (title_parts : list string) (unique_sizes : list Z) :
  ∃ o body_size,
    body_size_of blocks unique_sizes = Ok body_size
    ∧ strategy2 blocks title_parts unique_sizes = Ok o
    ∧ ∀ it, it ∈ o →
        ∃ b, b ∈ blocks ∧ item_text it = text b ∧ item_page it = page b
             ∧ (text b ∉ title_parts) ∧ (body_size < size b)%Z
             ∧ words (text b) < 20
             ∧ date_pattern_match (strip (text b)) = false.
Proof.
  destruct (strategy2_ok blocks title_parts unique_sizes)
    as (bs & Hbs & Ho).
  eexists _, bs. split; [done|]. split; [exact Ho|].
  intros it (b & Hb & He)%list_elem_of_omap.
  apply sorted_elem_of in Hb.
  apply list_elem_of_filter in Hb as [(Ht & Hs & Hw & Hd) Hb].
  apply strategy2_item_key in He. injection He as He1 He2.
  exists b. by split_and!.
Qed.
